(** * Reproducible double-precision dot product

    A shallow embedding of [src/reproblas/ddot.c] and the properties its
    specification states about it, followed by further properties of its
    functions and of the test program [src/tests/test_ddot.c].

    Conventions of the embedding.
    - A [uint64_t] is a [Z] in [[0, 2^64)]; a cast to [uint64_t] is [u64]
      (reduction modulo [2^64]); [unsigned __int128] arithmetic is reduced
      with [u128].  A [double] is represented by its 64-bit pattern, which
      is what the code itself manipulates through [dblbits_t].
    - An [int] is a [Z]; all [int] values of the program stay far inside the
      32-bit range, [INT_MIN] and [INT_MAX] only occur as markers.
    - [bigu_t] is the list of its limbs, least significant first.  Reading
      limb [i] is [limb a i]; writing it is [set_limb a i v].
    - Output parameters become results; the latched [overflow] flag is
      threaded through the calls that receive its address.
    - The arrays [x] and [y] are lists of patterns, [x[i]] is [nth i x 0];
      the program is only meant to be called with [n] elements present. *)

From Stdlib Require Import ZArith List Lia Bool Permutation.
Import ListNotations.
Local Open Scope Z_scope.

(** ** Constants *)

Definition WORD_BITS : Z := 64.
Definition ACC_EMIN : Z := -2148.
Definition ACC_EPROD_MIN : Z := -2148.
Definition ACC_EPROD_MAX : Z := 1942.
Definition PROD_BITS : Z := 106.
Definition ACC_BITS : Z := 4197.
Definition ACC_LIMBS : nat := 66.
Definition INT_MIN : Z := -2147483648.
Definition INT_MAX : Z := 2147483647.

(** The canonical quiet NaN and the two infinities, as bit patterns. *)
Definition CANONICAL_NAN : Z := 0x7FF8000000000001.
Definition POS_INF : Z := 0x7FF0000000000000.
Definition NEG_INF : Z := 0xFFF0000000000000.
Definition POS_ZERO : Z := 0.
Definition NEG_ZERO : Z := 0x8000000000000000.

(** ** Machine integers *)

Definition u64 (z : Z) : Z := z mod 2 ^ 64.
Definition u128 (z : Z) : Z := z mod 2 ^ 128.
Definition is_u64 (z : Z) : Prop := 0 <= z < 2 ^ 64.

(** ** Classification of binary64 patterns *)

Definition exp_field (u : Z) : Z := Z.land (Z.shiftr u 52) 0x7FF.
Definition frac_field (u : Z) : Z := Z.land u (Z.shiftl 1 52 - 1).

Definition is_nan_u64 (u : Z) : bool :=
  (exp_field u =? 0x7FF) && negb (frac_field u =? 0).

Definition is_inf_u64 (u : Z) : bool :=
  (exp_field u =? 0x7FF) && (frac_field u =? 0).

Definition is_zero_u64 (u : Z) : bool :=
  Z.land u (u64 (Z.lnot (Z.shiftl 1 63))) =? 0.

(** [(u >> 63) ? -1 : +1] *)
Definition sign_of_u64 (u : Z) : Z :=
  if Z.shiftr u 63 =? 0 then 1 else -1.

(** [decode_double_SE]: [None] stands for the [false] return (NaN or Inf),
    [Some (sign, S, E)] for the [true] return with the three outputs. *)
Definition decode_double_SE (u : Z) : option (Z * Z * Z) :=
  let sign := sign_of_u64 u in
  let exp := exp_field u in
  let frac := frac_field u in
  if exp =? 0x7FF then None
  else if exp =? 0 then
    if frac =? 0 then Some (sign, 0, 0)
    else Some (sign, frac, -1074)
  else Some (sign, Z.lor (Z.shiftl 1 52) frac, exp - 1023 - 52).

(** ** The wide accumulator *)

Definition bigu_t : Type := list Z.

Definition limb (a : bigu_t) (i : nat) : Z := nth i a 0.

Fixpoint set_limb (a : bigu_t) (i : nat) (v : Z) : bigu_t :=
  match a, i with
  | [], _ => []
  | _ :: t, O => v :: t
  | h :: t, S j => h :: set_limb t j v
  end.

Definition bigu_clear : bigu_t := repeat 0 ACC_LIMBS.

(** [add_word_at]: returns the accumulator, the carry and the overflow flag. *)
Definition add_word_at (a : bigu_t) (idx : nat) (w carry : Z) (overflow : bool)
  : bigu_t * Z * bool :=
  if (w =? 0) && (carry =? 0) then (a, carry, overflow)
  else if (ACC_LIMBS <=? idx)%nat then (a, carry, true)
  else
    let sum := u128 (limb a idx + w + carry) in
    (set_limb a idx (u64 sum), u64 (Z.shiftr sum 64), overflow).

(** The [while (carry != 0)] loop that ends [bigu_add_shifted_u128].  Each
    iteration either leaves the loop or moves [i] one limb up, and the loop is
    left at the latest when [i] reaches [ACC_LIMBS]; [fuel] bounds the number
    of iterations and [carry_loop_fuel] shows that it is never used up. *)
Fixpoint carry_loop (fuel : nat) (a : bigu_t) (i : nat) (carry : Z)
  (overflow : bool) : bigu_t * bool :=
  match fuel with
  | O => (a, overflow)
  | S fuel' =>
    if carry =? 0 then (a, overflow)
    else if (ACC_LIMBS <=? i)%nat then (a, true)
    else
      let sum := u128 (limb a i + carry) in
      carry_loop fuel' (set_limb a i (u64 sum)) (S i)
        (u64 (Z.shiftr sum 64)) overflow
  end.

(** The three limbs [v0, v1, v2] of [val << r]. *)
Definition shifted_limbs (val : Z) (r : Z) : Z * Z * Z :=
  let lo := u64 val in
  let hi := u64 (Z.shiftr val 64) in
  if r =? 0 then (lo, hi, 0)
  else
    let v0 := u64 (Z.shiftl lo r) in
    let carry0 := Z.shiftr lo (64 - r) in
    let v1 := Z.lor (u64 (Z.shiftl hi r)) carry0 in
    let carry1 := Z.shiftr hi (64 - r) in
    (v0, v1, carry1).

Definition bigu_add_shifted_u128 (a : bigu_t) (val : Z) (bit_shift : Z)
  (overflow : bool) : bigu_t * bool :=
  if val =? 0 then (a, overflow)
  else
    let word_off := Z.to_nat (bit_shift / WORD_BITS) in
    let r := bit_shift mod WORD_BITS in
    let '(v0, v1, v2) := shifted_limbs val r in
    let carry := 0 in
    let i := word_off in
    let '(a, carry, overflow) := add_word_at a i v0 carry overflow in
    let '(a, carry, overflow) := add_word_at a (i + 1) v1 carry overflow in
    let '(a, carry, overflow) := add_word_at a (i + 2) v2 carry overflow in
    carry_loop (S ACC_LIMBS) a (i + 3) carry overflow.

(** [bigu_cmp]: the loop runs [i] from [ACC_LIMBS - 1] down to [0]; [k] is
    [i + 1]. *)
Fixpoint bigu_cmp_from (k : nat) (a b : bigu_t) : Z :=
  match k with
  | O => 0
  | S i =>
    if limb a i <? limb b i then -1
    else if limb b i <? limb a i then 1
    else bigu_cmp_from i a b
  end.

Definition bigu_cmp (a b : bigu_t) : Z := bigu_cmp_from ACC_LIMBS a b.

(** [bigu_sub]: [k] iterations are left, [i] is the loop index.  The sum
    [b->limb[i] + borrow] is formed in [uint64_t] and only then widened. *)
Fixpoint bigu_sub_loop (k : nat) (i : nat) (a b c : bigu_t) (borrow : Z)
  : bigu_t :=
  match k with
  | O => c
  | S k' =>
    let ai := limb a i in
    let bi := u64 (limb b i + borrow) in
    let diff := u128 (ai - bi) in
    bigu_sub_loop k' (S i) a b (set_limb c i (u64 diff))
      (u64 (Z.land (Z.shiftr diff 64) 1))
  end.

Definition bigu_sub (a b c : bigu_t) : bigu_t :=
  bigu_sub_loop ACC_LIMBS 0 a b c 0.

(** [__builtin_clzll] on a non-zero 64-bit word. *)
Definition builtin_clzll (w : Z) : Z := 63 - Z.log2 w.

Fixpoint bigu_msb_from (k : nat) (a : bigu_t) : Z :=
  match k with
  | O => -1
  | S i =>
    let w := limb a i in
    if negb (w =? 0) then
      let lz := builtin_clzll w in
      let bit := 63 - lz in
      Z.of_nat i * 64 + bit
    else bigu_msb_from i a
  end.

Definition bigu_msb_index (a : bigu_t) : Z := bigu_msb_from ACC_LIMBS a.

(** [int] division and remainder truncate towards zero: [Z.quot], [Z.rem]. *)
Definition limb_or_zero (a : bigu_t) (widx : Z) : Z :=
  if (0 <=? widx) && (widx <? Z.of_nat ACC_LIMBS)
  then limb a (Z.to_nat widx) else 0.

Definition bigu_extract_bits64 (a : bigu_t) (start count : Z) : Z :=
  if count <=? 0 then 0
  else if Z.of_nat ACC_LIMBS * 64 <=? start then 0
  else
    let end_ := start + count - 1 in
    if end_ <? 0 then 0
    else
      let widx0 := Z.quot start 64 in
      let off0 := Z.rem start 64 in
      let w0 := limb_or_zero a widx0 in
      let w1 := limb_or_zero a (widx0 + 1) in
      let concat := Z.lor (u128 (Z.shiftl w1 64)) w0 in
      let shifted := Z.shiftr concat off0 in
      let mask :=
        if count =? 64 then u64 (Z.lnot 0)
        else u64 (u64 (Z.shiftl 1 count) - 1) in
      Z.land (u64 shifted) mask.

Definition bigu_has_any_below (a : bigu_t) (idx : Z) : bool :=
  if idx <=? 0 then false
  else
    let full_limbs := Z.quot idx 64 in
    let rem := Z.rem idx 64 in
    if existsb (fun i => negb (limb a i =? 0)) (seq 0 (Z.to_nat full_limbs))
    then true
    else if (0 <? rem) && (full_limbs <? Z.of_nat ACC_LIMBS) then
      let mask := u64 (Z.shiftl 1 rem - 1) in
      negb (Z.land (limb a (Z.to_nat full_limbs)) mask =? 0)
    else false.

(** ** Packing and final rounding *)

Definition pack_double (sign unbiased_exp frac52 : Z) : Z :=
  let signbit := if sign <? 0 then Z.shiftl 1 63 else 0 in
  let '(expbits, fracbits) :=
    if unbiased_exp =? INT_MIN then
      (0, Z.land frac52 (Z.shiftl 1 52 - 1))
    else if unbiased_exp =? INT_MAX then
      (0x7FF, 0)
    else
      let efield := unbiased_exp + 1023 in
      let efield := if efield <=? 0 then 0 else efield in
      (Z.land efield 0x7FF, Z.land frac52 (Z.shiftl 1 52 - 1)) in
  Z.lor (Z.lor signbit (Z.shiftl expbits 52)) fracbits.

(** The guard and sticky bits below position [g_idx + 1], as both rounding
    blocks of [finalize_to_double] compute them. *)
Definition guard_bit (mag : bigu_t) (g_idx : Z) : bool :=
  if 0 <=? g_idx
  then negb (Z.land (bigu_extract_bits64 mag g_idx 1) 1 =? 0)
  else false.

Definition round_up (mag : bigu_t) (g_idx : Z) (sig : Z) : bool :=
  let guard := guard_bit mag g_idx in
  let sticky := bigu_has_any_below mag g_idx in
  guard && (sticky || negb (Z.land sig 1 =? 0)).

Definition finalize_to_double (Pos Neg : bigu_t) : Z :=
  let mag := bigu_clear in
  let cmp := bigu_cmp Pos Neg in
  if cmp =? 0 then POS_ZERO
  else
    let '(mag, sgn) :=
      if 0 <? cmp then (bigu_sub Pos Neg mag, 1)
      else (bigu_sub Neg Pos mag, -1) in
    let msb := bigu_msb_index mag in
    if msb <? 0 then POS_ZERO
    else
      let E_star := ACC_EMIN + msb in
      if 1023 <? E_star then pack_double sgn INT_MAX 0
      else if E_star <? -1022 then
        let bot := -1074 - ACC_EMIN in
        let mant52 := bigu_extract_bits64 mag bot 52 in
        let g_idx := bot - 1 in
        if round_up mag g_idx mant52 then
          let mant52 := u64 (mant52 + 1) in
          if mant52 =? Z.shiftl 1 52 then pack_double sgn (-1022) 0
          else pack_double sgn INT_MIN mant52
        else pack_double sgn INT_MIN mant52
      else
        let cut := msb - 52 in
        let sig53 := bigu_extract_bits64 mag cut 53 in
        let g_idx := cut - 1 in
        let frac_of sig53 := Z.land sig53 (Z.shiftl 1 52 - 1) in
        if round_up mag g_idx sig53 then
          let sig53 := u64 (sig53 + 1) in
          if sig53 =? Z.shiftl 1 53 then
            let E_rounded := E_star + 1 in
            if 1023 <? E_rounded then pack_double sgn INT_MAX 0
            else pack_double sgn E_rounded 0
          else pack_double sgn E_star (frac_of sig53)
        else pack_double sgn E_star (frac_of sig53).

(** ** The driver *)

Record ddot_state : Type := mk_state {
  pos : bigu_t;
  neg : bigu_t;
  overflow : bool;
  saw_nan : bool;
  saw_invalid_zero_inf : bool;
  saw_pos_inf : bool;
  saw_neg_inf : bool
}.

Definition ddot_init : ddot_state :=
  mk_state bigu_clear bigu_clear false false false false false.

Definition latch_nan (st : ddot_state) : ddot_state :=
  mk_state (pos st) (neg st) (overflow st) true (saw_invalid_zero_inf st)
    (saw_pos_inf st) (saw_neg_inf st).

Definition latch_invalid (st : ddot_state) : ddot_state :=
  mk_state (pos st) (neg st) (overflow st) (saw_nan st) true
    (saw_pos_inf st) (saw_neg_inf st).

Definition latch_pos_inf (st : ddot_state) : ddot_state :=
  mk_state (pos st) (neg st) (overflow st) (saw_nan st)
    (saw_invalid_zero_inf st) true (saw_neg_inf st).

Definition latch_neg_inf (st : ddot_state) : ddot_state :=
  mk_state (pos st) (neg st) (overflow st) (saw_nan st)
    (saw_invalid_zero_inf st) (saw_pos_inf st) true.

Definition add_to_pos (st : ddot_state) (val shift : Z) : ddot_state :=
  let '(p, o) := bigu_add_shifted_u128 (pos st) val shift (overflow st) in
  mk_state p (neg st) o (saw_nan st) (saw_invalid_zero_inf st)
    (saw_pos_inf st) (saw_neg_inf st).

Definition add_to_neg (st : ddot_state) (val shift : Z) : ddot_state :=
  let '(m, o) := bigu_add_shifted_u128 (neg st) val shift (overflow st) in
  mk_state (pos st) m o (saw_nan st) (saw_invalid_zero_inf st)
    (saw_pos_inf st) (saw_neg_inf st).

(** One iteration of the [for] loop of [ddot_repro] on the patterns of
    [x[i]] and [y[i]]. *)
Definition ddot_step (st : ddot_state) (xu yu : Z) : ddot_state :=
  if is_nan_u64 xu || is_nan_u64 yu then latch_nan st
  else
    let x_is_inf := is_inf_u64 xu in
    let y_is_inf := is_inf_u64 yu in
    let x_is_zero := is_zero_u64 xu in
    let y_is_zero := is_zero_u64 yu in
    if (x_is_inf && y_is_zero) || (y_is_inf && x_is_zero) then latch_invalid st
    else if x_is_inf || y_is_inf then
      let sx := sign_of_u64 xu in
      let sy := sign_of_u64 yu in
      let s := sx * sy in
      if 0 <? s then latch_pos_inf st else latch_neg_inf st
    else
      match decode_double_SE xu with
      | None => latch_nan st
      | Some (sx, Sx, Ex) =>
        match decode_double_SE yu with
        | None => latch_nan st
        | Some (sy, Sy, Ey) =>
          if (Sx =? 0) || (Sy =? 0) then st
          else
            let Sprod := u128 (Sx * Sy) in
            let Eprod := Ex + Ey in
            if Eprod <? ACC_EMIN then st
            else
              let shift := Eprod - ACC_EMIN in
              if 0 <? sx * sy then add_to_pos st Sprod shift
              else add_to_neg st Sprod shift
        end
      end.

(** The arrays are lists of patterns; [x[i]] is [nth i x 0]. *)
Definition ddot_loop (x y : list Z) (n : nat) : ddot_state :=
  fold_left (fun st i => ddot_step st (nth i x 0) (nth i y 0))
    (seq 0 n) ddot_init.

(** The precedence chain after the loop. *)
Definition ddot_finish (st : ddot_state) : Z :=
  if saw_nan st || saw_invalid_zero_inf st then CANONICAL_NAN
  else if saw_pos_inf st && saw_neg_inf st then CANONICAL_NAN
  else if saw_pos_inf st && negb (saw_neg_inf st) then pack_double 1 INT_MAX 0
  else if negb (saw_pos_inf st) && saw_neg_inf st
  then pack_double (-1) INT_MAX 0
  else if overflow st then
    let cmp := bigu_cmp (pos st) (neg st) in
    if cmp =? 0 then POS_ZERO
    else pack_double (if 0 <? cmp then 1 else -1) INT_MAX 0
  else finalize_to_double (pos st) (neg st).

Definition ddot_repro (x y : list Z) (n : nat) : Z :=
  ddot_finish (ddot_loop x y n).

(** * Specification-level definitions *)

(** ** The integer denoted by a limb list *)

Fixpoint bigu_val (a : bigu_t) : Z :=
  match a with
  | [] => 0
  | w :: t => w + 2 ^ 64 * bigu_val t
  end.

(** Weight of limb [i]. *)
Definition weight (i : nat) : Z := 2 ^ (64 * Z.of_nat i).

Definition limbs_ok (a : bigu_t) : Prop := Forall is_u64 a.

Definition bigu_wf (a : bigu_t) : Prop :=
  length a = ACC_LIMBS /\ limbs_ok a.

(** The limbs of a non-negative integer, [n] of them. *)
Fixpoint limbs_of (n : nat) (v : Z) : bigu_t :=
  match n with
  | O => []
  | S m => v mod 2 ^ 64 :: limbs_of m (v / 2 ^ 64)
  end.

Definition bigu_of_Z (v : Z) : bigu_t := limbs_of ACC_LIMBS v.

(** The value of the [k] lowest limbs. *)
Definition val_low (k : nat) (a : bigu_t) : Z := bigu_val a mod weight k.


(** ** Where [bigu_sub] loses a borrow

    [bigu_sub_wraps a b] follows the borrow chain of [bigu_sub_loop] and
    tells whether some [b->limb[i] + borrow] exceeds [uint64_t], which is the
    case in which the limb sum wraps to [0] and the borrow is dropped. *)
Fixpoint sub_wraps_loop (k : nat) (i : nat) (a b : bigu_t) (borrow : Z)
  : bool :=
  match k with
  | O => false
  | S k' =>
    let ai := limb a i in
    let bi := u64 (limb b i + borrow) in
    let diff := u128 (ai - bi) in
    (2 ^ 64 <=? limb b i + borrow)
    || sub_wraps_loop k' (S i) a b (u64 (Z.land (Z.shiftr diff 64) 1))
  end.

Definition bigu_sub_wraps (a b : bigu_t) : bool :=
  sub_wraps_loop ACC_LIMBS 0 a b 0.

(** ** IEEE 754 binary64, on integers

    Every finite binary64 number is an integer multiple of [2^-1074], and
    every product of two of them an integer multiple of [2^-2148].  The
    specification is stated on these integers: [b64_scaled u] is the value of
    the pattern [u] times [2^1074], and the exact dot product times [2^2148]
    is the integer [exact_dot_scaled]. *)

Definition b64_sign (u : Z) : Z := if Z.testbit u 63 then -1 else 1.

Definition b64_exp (u : Z) : Z := (u / 2 ^ 52) mod 2 ^ 11.

Definition b64_frac (u : Z) : Z := u mod 2 ^ 52.

Definition b64_finite (u : Z) : bool := negb (b64_exp u =? 2047).

(** [(-1)^s * 2^(e-1023) * (1 + f/2^52)] for a normal number and
    [(-1)^s * 2^(-1022) * (f/2^52)] for a subnormal one, times [2^1074]. *)
Definition b64_scaled (u : Z) : Z :=
  b64_sign u *
  (if b64_exp u =? 0 then b64_frac u
   else (2 ^ 52 + b64_frac u) * 2 ^ (b64_exp u - 1)).

Definition exact_dot_scaled (x y : list Z) (n : nat) : Z :=
  fold_right Z.add 0
    (map (fun i => b64_scaled (nth i x 0) * b64_scaled (nth i y 0))
       (seq 0 n)).

(** The integer nearest to [m / 2^k], ties to the even one. *)
Definition round_half_even (m k : Z) : Z :=
  let q := m / 2 ^ k in
  let r := m mod 2 ^ k in
  if 2 * r <? 2 ^ k then q
  else if 2 ^ k <? 2 * r then q + 1
  else if Z.even q then q else q + 1.

(** Round-to-nearest-even of the positive real [m * 2^ACC_EMIN] to binary64,
    as the pattern of the result without its sign bit.  [e] is the exponent of
    the leading bit, [q] the exponent of the unit in the last place of the
    format at that magnitude, [sig] the rounded significand: the result is
    [sig * 2^q], which is infinite from [2^1024] on. *)
Definition rne_magnitude (m : Z) : Z :=
  let e := Z.log2 m + ACC_EMIN in
  let q := Z.max (e - 52) (-1074) in
  let sig := round_half_even m (q - ACC_EMIN) in
  if 2 ^ (1024 + 1074) <=? sig * 2 ^ (q + 1074) then POS_INF
  else if sig <? 2 ^ 52 then sig
  else if sig <? 2 ^ 53 then (q + 52 + 1023) * 2 ^ 52 + (sig - 2 ^ 52)
  else (q + 53 + 1023) * 2 ^ 52.

(** [round_to_nearest_even_binary64] of the real [t * 2^ACC_EMIN]: an exact
    zero is [+0.0], anything else keeps the sign of [t]. *)
Definition rne_binary64 (t : Z) : Z :=
  if t =? 0 then POS_ZERO
  else (if t <? 0 then 2 ^ 63 else 0) + rne_magnitude (Z.abs t).

(** The subtraction [finalize_to_double] performs, seen by [bigu_sub_wraps]. *)
Definition finalize_sub_wraps (Pos Neg : bigu_t) : bool :=
  if 0 <? bigu_cmp Pos Neg then bigu_sub_wraps Pos Neg
  else bigu_sub_wraps Neg Pos.

(** Lines 227-270 of [finalize_to_double]: rounding and packing of the
    magnitude [mag] with sign [sgn]. *)
Definition round_and_pack (mag : bigu_t) (sgn : Z) : Z :=
  let msb := bigu_msb_index mag in
  if msb <? 0 then POS_ZERO
  else
    let E_star := ACC_EMIN + msb in
    if 1023 <? E_star then pack_double sgn INT_MAX 0
    else if E_star <? -1022 then
      let bot := -1074 - ACC_EMIN in
      let mant52 := bigu_extract_bits64 mag bot 52 in
      let g_idx := bot - 1 in
      if round_up mag g_idx mant52 then
        let mant52 := u64 (mant52 + 1) in
        if mant52 =? Z.shiftl 1 52 then pack_double sgn (-1022) 0
        else pack_double sgn INT_MIN mant52
      else pack_double sgn INT_MIN mant52
    else
      let cut := msb - 52 in
      let sig53 := bigu_extract_bits64 mag cut 53 in
      let g_idx := cut - 1 in
      let frac_of sig53 := Z.land sig53 (Z.shiftl 1 52 - 1) in
      if round_up mag g_idx sig53 then
        let sig53 := u64 (sig53 + 1) in
        if sig53 =? Z.shiftl 1 53 then
          let E_rounded := E_star + 1 in
          if 1023 <? E_rounded then pack_double sgn INT_MAX 0
          else pack_double sgn E_rounded 0
        else pack_double sgn E_star (frac_of sig53)
      else pack_double sgn E_star (frac_of sig53).

Definition sign_bit (sgn : Z) : Z := if sgn <? 0 then 2 ^ 63 else 0.

(** ** What one pair contributes

    [classify_pair] names the branch of the loop body a pair takes;
    [ddot_step_classify] shows that [ddot_step] is [apply_class] of it. *)

Inductive pair_class : Type :=
| PairNaN
| PairInvalid
| PairInf (positive : bool)
| PairSkip
| PairProduct (positive : bool) (Sprod shift : Z).

Definition classify_pair (xu yu : Z) : pair_class :=
  if is_nan_u64 xu || is_nan_u64 yu then PairNaN
  else if (is_inf_u64 xu && is_zero_u64 yu) || (is_inf_u64 yu && is_zero_u64 xu)
  then PairInvalid
  else if is_inf_u64 xu || is_inf_u64 yu
  then PairInf (0 <? sign_of_u64 xu * sign_of_u64 yu)
  else
    match decode_double_SE xu, decode_double_SE yu with
    | Some (sx, Sx, Ex), Some (sy, Sy, Ey) =>
      if (Sx =? 0) || (Sy =? 0) then PairSkip
      else if Ex + Ey <? ACC_EMIN then PairSkip
      else PairProduct (0 <? sx * sy) (u128 (Sx * Sy)) (Ex + Ey - ACC_EMIN)
    | _, _ => PairNaN
    end.

Definition apply_class (st : ddot_state) (c : pair_class) : ddot_state :=
  match c with
  | PairNaN => latch_nan st
  | PairInvalid => latch_invalid st
  | PairInf true => latch_pos_inf st
  | PairInf false => latch_neg_inf st
  | PairSkip => st
  | PairProduct true v s => add_to_pos st v s
  | PairProduct false v s => add_to_neg st v s
  end.

(** The amounts a pair adds to [Pos] and to [Neg], in units of
    [2^ACC_EMIN], and the flags it latches. *)
Definition pos_term (xu yu : Z) : Z :=
  match classify_pair xu yu with
  | PairProduct true v s => v * 2 ^ s
  | _ => 0
  end.

Definition neg_term (xu yu : Z) : Z :=
  match classify_pair xu yu with
  | PairProduct false v s => v * 2 ^ s
  | _ => 0
  end.

Definition nan_pair (xu yu : Z) : bool :=
  match classify_pair xu yu with PairNaN => true | _ => false end.

Definition invalid_pair (xu yu : Z) : bool :=
  match classify_pair xu yu with PairInvalid => true | _ => false end.

Definition pos_inf_pair (xu yu : Z) : bool :=
  match classify_pair xu yu with PairInf true => true | _ => false end.

Definition neg_inf_pair (xu yu : Z) : bool :=
  match classify_pair xu yu with PairInf false => true | _ => false end.

(** The pairs the loop visits, in its order. *)
Definition pairs (x y : list Z) (n : nat) : list (Z * Z) :=
  map (fun i => (nth i x 0, nth i y 0)) (seq 0 n).

Definition step_pair (st : ddot_state) (p : Z * Z) : ddot_state :=
  ddot_step st (fst p) (snd p).

Definition sum_pairs (f : Z -> Z -> Z) (l : list (Z * Z)) : Z :=
  fold_right (fun p acc => f (fst p) (snd p) + acc) 0 l.

Definition any_pair (f : Z -> Z -> bool) (l : list (Z * Z)) : bool :=
  existsb (fun p => f (fst p) (snd p)) l.

(** The state once the amounts [P] and [N] and the flags have been absorbed:
    the accumulators add modulo their capacity, [overflow] records a carry
    out of the top limb, the flags are or-ed. *)
Definition absorb (st : ddot_state) (P N : Z) (nan inv pinf ninf : bool)
  : ddot_state :=
  mk_state
    (bigu_of_Z (bigu_val (pos st) + P))
    (bigu_of_Z (bigu_val (neg st) + N))
    (overflow st
     || (weight ACC_LIMBS <=? bigu_val (pos st) + P)
     || (weight ACC_LIMBS <=? bigu_val (neg st) + N))
    (saw_nan st || nan)
    (saw_invalid_zero_inf st || inv)
    (saw_pos_inf st || pinf)
    (saw_neg_inf st || ninf).

Definition state_wf (st : ddot_state) : Prop :=
  bigu_wf (pos st) /\ bigu_wf (neg st).

(** ** Vocabulary of the statements *)

(** [x o pi]: the sequence [x] read through the index list [pi]. *)
Definition permute (x : list Z) (pi : list nat) : list Z :=
  map (fun i => nth i x 0) pi.

(** Negation of a binary64: bit 63 flipped. *)
Definition b64_neg (u : Z) : Z := Z.lxor u (2 ^ 63).

(** The pair [(xu, yu)] is an infinite product of the given sign: one
    operand is infinite and the signs multiply to it. *)
Definition inf_product (positive : bool) (xu yu : Z) : bool :=
  (is_inf_u64 xu || is_inf_u64 yu)
  && Bool.eqb (0 <? sign_of_u64 xu * sign_of_u64 yu) positive.

(** A NaN operand, or the pair [0 * inf]. *)
Definition nan_or_zero_times_inf (xu yu : Z) : bool :=
  is_nan_u64 xu || is_nan_u64 yu
  || (is_inf_u64 xu && is_zero_u64 yu) || (is_inf_u64 yu && is_zero_u64 xu).

Definition exists_index (n : nat) (f : Z -> Z -> bool) (x y : list Z) : bool :=
  existsb (fun i => f (nth i x 0) (nth i y 0)) (seq 0 n).

(** All operands of the first [n] pairs are finite 64-bit patterns. *)
Definition finite_inputs (x y : list Z) (n : nat) : Prop :=
  forall i, (i < n)%nat ->
    is_u64 (nth i x 0) /\ is_u64 (nth i y 0) /\
    b64_finite (nth i x 0) = true /\ b64_finite (nth i y 0) = true.

(** Swapping the roles of the two signs in a state. *)
Definition swap_state (st : ddot_state) : ddot_state :=
  mk_state (neg st) (pos st) (overflow st) (saw_nan st)
    (saw_invalid_zero_inf st) (saw_neg_inf st) (saw_pos_inf st).

Definition flip_class (c : pair_class) : pair_class :=
  match c with
  | PairInf b => PairInf (negb b)
  | PairProduct b v s => PairProduct (negb b) v s
  | other => other
  end.

(** ** Inputs long enough to exhaust the accumulator *)

(** [2^30] elements. *)
Definition LONG_N : nat := Z.to_nat (2 ^ 30).

(** The pattern of [2^1023]. *)
Definition TWO_POW_1023 : Z := 0x7FE0000000000000.

(** [2^30] copies of [2^1023]. *)
Definition long_input : list Z := repeat TWO_POW_1023 LONG_N.

(** No NaN and no infinity among the first [n] operands. *)
Definition no_nan_no_inf (x y : list Z) (n : nat) : Prop :=
  forall i, (i < n)%nat ->
    is_nan_u64 (nth i x 0) = false /\ is_nan_u64 (nth i y 0) = false /\
    is_inf_u64 (nth i x 0) = false /\ is_inf_u64 (nth i y 0) = false.

(** The answer of precedence rule 5: [0], [+inf] or [-inf] by comparing the
    two accumulators. *)
Definition overflow_result (P N : bigu_t) : Z :=
  match bigu_val P ?= bigu_val N with
  | Eq => POS_ZERO
  | Gt => POS_INF
  | Lt => NEG_INF
  end.

(** The rule of the sign-symmetry sentence of the specification: the
    negated result, except that [+0.0] stays [+0.0]. *)
Definition claimed_negation (r : Z) : Z :=
  if r =? POS_ZERO then POS_ZERO else b64_neg r.

(** After the loop no infinity was seen and the accumulators are equal. *)
Definition exact_cancellation (st : ddot_state) : Prop :=
  saw_pos_inf st = false /\ saw_neg_inf st = false /\
  bigu_val (pos st) = bigu_val (neg st).

(** * Further parts of the program *)

(** ** The portable bit scan of [bigu_msb_index]

    Without [__builtin_clzll] the most significant bit of a non-zero limb is
    found by [int bit = 63; while (bit >= 0 && ((w >> bit) & 1ULL) == 0)
    --bit;].  The loop leaves at the latest when [bit] is [-1], after 64
    iterations; [fuel] bounds their number. *)
Fixpoint bit_scan (fuel : nat) (w bit : Z) : Z :=
  match fuel with
  | O => bit
  | S fuel' =>
    if (0 <=? bit) && (Z.land (Z.shiftr w bit) 1 =? 0)
    then bit_scan fuel' w (bit - 1)
    else bit
  end.

Definition msb_bit_portable (w : Z) : Z := bit_scan 65 w 63.

Fixpoint bigu_msb_from_portable (k : nat) (a : bigu_t) : Z :=
  match k with
  | O => -1
  | S i =>
    let w := limb a i in
    if negb (w =? 0) then
      let bit := msb_bit_portable w in
      Z.of_nat i * 64 + bit
    else bigu_msb_from_portable i a
  end.

Definition bigu_msb_index_portable (a : bigu_t) : Z :=
  bigu_msb_from_portable ACC_LIMBS a.

(** ** The shortest input that exhausts the accumulator *)

(** The pattern of the largest finite binary64. *)
Definition DBL_MAX : Z := 0x7FEFFFFFFFFFFFFF.

(** [2^28 + 1] elements. *)
Definition THRESHOLD_N : nat := Z.to_nat (2 ^ 28 + 1).

(** [2^28 + 1] copies of [DBL_MAX]. *)
Definition dbl_max_input : list Z := repeat DBL_MAX THRESHOLD_N.

(** ** The test program

    [src/tests/test_ddot.c] calls [ddot_repro] on fixed arrays and returns
    [0] from [main] when its four tests pass.  The tests are embedded with
    their return values; what they print is left out.  Floating-point
    constants are given by their patterns, and the C operators on [double]
    the tests use are read on patterns as IEEE 754 defines them. *)

Definition D_0 : Z := 0x0000000000000000.
Definition D_1 : Z := 0x3FF0000000000000.
Definition D_2 : Z := 0x4000000000000000.
Definition D_3 : Z := 0x4008000000000000.
Definition D_4 : Z := 0x4010000000000000.
Definition D_5 : Z := 0x4014000000000000.
Definition D_6 : Z := 0x4018000000000000.
Definition D_32 : Z := 0x4040000000000000.
(** [1e308] and [1e-308], rounded to binary64. *)
Definition D_1e308 : Z := 0x7FE1CCF385EBC8A0.
Definition D_1em308 : Z := 0x000730D67819E8D2.
(** [INFINITY] and [ldexp(1.0, -1074)]. *)
Definition D_INFINITY : Z := 0x7FF0000000000000.
Definition D_ldexp_1_m1074 : Z := 0x0000000000000001.

Definition as_bits (d : Z) : Z := d.

Definition isnan (d : Z) : bool := is_nan_u64 d.
Definition isinf (d : Z) : bool := is_inf_u64 d.

(** The position of a non-NaN pattern in the order of the reals: the
    magnitude bits, negated under a sign bit; both zeros are at [0]. *)
Definition double_rank (d : Z) : Z :=
  if Z.testbit d 63 then - (d mod 2 ^ 63) else d mod 2 ^ 63.

(** [a == b], [a != b], [a < b], [a > b]: comparisons with a NaN are false,
    except [!=]. *)
Definition double_eq (a b : Z) : bool :=
  negb (isnan a) && negb (isnan b) && (double_rank a =? double_rank b).
Definition double_ne (a b : Z) : bool := negb (double_eq a b).
Definition double_lt (a b : Z) : bool :=
  negb (isnan a) && negb (isnan b) && (double_rank a <? double_rank b).
Definition double_gt (a b : Z) : bool := double_lt b a.

Definition test_basic : Z :=
  let x := [D_1; D_2; D_3] in
  let y := [D_4; D_5; D_6] in
  let r := ddot_repro x y 3 in
  if double_ne r D_32 then 0 else 1.

Definition test_order_independence : Z :=
  let x1 := [D_1e308; D_1em308; D_3; D_5; D_1em308] in
  let y1 := [D_1em308; D_1e308; b64_neg D_3; D_2; b64_neg D_1em308] in
  let r1 := ddot_repro x1 y1 5 in
  let x2 := [D_3; D_1em308; D_5; D_1e308; D_1em308] in
  let y2 := [b64_neg D_3; b64_neg D_1em308; D_2; D_1em308; D_1e308] in
  let r2 := ddot_repro x2 y2 5 in
  if negb (as_bits r1 =? as_bits r2) then 0 else 1.

(** [NAN] expands to an implementation-defined quiet NaN; the test is
    embedded for any pattern [nan] it may denote. *)
Definition test_exceptions (nan : Z) : Z :=
  let x := [nan; D_1] in
  let y := [D_2; D_3] in
  let r := ddot_repro x y 2 in
  if negb (isnan r) then 0
  else
    let z := D_0 in
    let inf := D_INFINITY in
    let r2 := ddot_repro [z] [inf] 1 in
    if negb (isnan r2) then 0
    else
      let x3 := [inf; b64_neg inf] in
      let y3 := [D_2; D_2] in
      let r3 := ddot_repro x3 y3 2 in
      if negb (isnan r3) then 0
      else
        let r4 := ddot_repro [inf] [D_1] 1 in
        if negb (isinf r4) || double_lt r4 D_0 then 0
        else
          let ninf := b64_neg D_INFINITY in
          let r5 := ddot_repro [ninf] [D_1] 1 in
          if negb (isinf r5) || double_gt r5 D_0 then 0
          else 1.

Definition test_subnormal_path : Z :=
  let a := D_ldexp_1_m1074 in
  let x := [a; a; a; a] in
  let y := [D_1; D_1; D_1; D_1] in
  let r := ddot_repro x y 4 in
  if double_eq r D_0 then 0 else 1.

Definition main (nan : Z) : Z :=
  let ok := 1 in
  let ok := Z.land ok test_basic in
  let ok := Z.land ok test_order_independence in
  let ok := Z.land ok (test_exceptions nan) in
  let ok := Z.land ok test_subnormal_path in
  if negb (ok =? 0) then 0 else 1.

(** * Properties *)

(** Arithmetic is kept folded while list functions are simplified. *)
#[local] Arguments Z.add : simpl never.
#[local] Arguments Z.sub : simpl never.
#[local] Arguments Z.mul : simpl never.
#[local] Arguments Z.pow : simpl never.
#[local] Arguments Z.div : simpl never.
#[local] Arguments Z.modulo : simpl never.
#[local] Arguments Z.of_nat : simpl never.
#[local] Arguments Z.to_nat : simpl never.
#[local] Arguments Z.shiftl : simpl never.
#[local] Arguments Z.shiftr : simpl never.
#[local] Arguments Z.land : simpl never.
#[local] Arguments Z.lor : simpl never.
#[local] Arguments Z.leb : simpl never.
#[local] Arguments Z.ltb : simpl never.
#[local] Arguments Z.eqb : simpl never.

(** ** Bit operations as arithmetic *)

Lemma exp_field_eq (u : Z) : exp_field u = (u / 2 ^ 52) mod 2 ^ 11.
Proof.
  unfold exp_field. rewrite Z.shiftr_div_pow2 by lia.
  change 0x7FF with (Z.ones 11). now rewrite Z.land_ones by lia.
Qed.

Lemma frac_field_eq (u : Z) : frac_field u = u mod 2 ^ 52.
Proof.
  unfold frac_field. change (Z.shiftl 1 52 - 1) with (Z.ones 52).
  now rewrite Z.land_ones by lia.
Qed.

Lemma exp_field_range (u : Z) : 0 <= exp_field u < 2048.
Proof. rewrite exp_field_eq. apply Z.mod_pos_bound. lia. Qed.

Lemma frac_field_range (u : Z) : 0 <= frac_field u < 2 ^ 52.
Proof. rewrite frac_field_eq. apply Z.mod_pos_bound. lia. Qed.

Lemma land_disjoint (a b k : Z) :
  0 <= k -> 0 <= b < 2 ^ k -> a mod 2 ^ k = 0 -> Z.land a b = 0.
Proof.
  intros Hk Hb Ha. apply Z.bits_inj'. intros n Hn.
  rewrite Z.land_spec, Z.bits_0.
  destruct (Z.lt_ge_cases n k) as [Hlt | Hge].
  - rewrite (Z.div_mod a (2 ^ k)) by lia. rewrite Ha, Z.add_0_r.
    rewrite Z.mul_comm, Z.mul_pow2_bits_low by lia. reflexivity.
  - rewrite <- (Z.mod_small b (2 ^ k)) by lia.
    rewrite Z.mod_pow2_bits_high by lia. apply andb_false_r.
Qed.

Lemma lor_disjoint (a b k : Z) :
  0 <= k -> 0 <= b < 2 ^ k -> a mod 2 ^ k = 0 -> Z.lor a b = a + b.
Proof.
  intros Hk Hb Ha. pose proof (Z.add_lor_land a b) as H.
  rewrite (land_disjoint a b k) in H by assumption. lia.
Qed.

Lemma pow2_pos (k : Z) : 0 <= k -> 0 < 2 ^ k.
Proof. intros. apply Z.pow_pos_nonneg; lia. Qed.

(** ** Limb lists and the integer they denote *)

Lemma ACC_LIMBS_eq :
  Z.of_nat ACC_LIMBS = (ACC_BITS + WORD_BITS - 1) / WORD_BITS.
Proof. reflexivity. Qed.

Lemma weight_0 : weight 0 = 1.
Proof. reflexivity. Qed.

Lemma weight_S (i : nat) : weight (S i) = 2 ^ 64 * weight i.
Proof.
  unfold weight. rewrite Nat2Z.inj_succ.
  replace (64 * Z.succ (Z.of_nat i)) with (64 + 64 * Z.of_nat i) by lia.
  apply Z.pow_add_r; lia.
Qed.

Lemma weight_pos (i : nat) : 0 < weight i.
Proof. unfold weight. apply pow2_pos. lia. Qed.

Lemma bigu_val_bound (a : bigu_t) :
  limbs_ok a -> 0 <= bigu_val a < weight (length a).
Proof.
  induction 1 as [| w t Hw _ IH]; simpl bigu_val; simpl length.
  - rewrite weight_0. lia.
  - rewrite weight_S. unfold is_u64 in Hw. nia.
Qed.

Lemma length_set_limb (a : bigu_t) (i : nat) (v : Z) :
  length (set_limb a i v) = length a.
Proof.
  revert i. induction a as [| w t IH]; intros [| j]; simpl; auto.
Qed.

Lemma limb_set_limb_same (a : bigu_t) (i : nat) (v : Z) :
  (i < length a)%nat -> limb (set_limb a i v) i = v.
Proof.
  unfold limb. revert i.
  induction a as [| w t IH]; intros [| j] H; simpl in *; try lia; auto.
  apply IH. lia.
Qed.

Lemma limb_set_limb_other (a : bigu_t) (i j : nat) (v : Z) :
  i <> j -> limb (set_limb a i v) j = limb a j.
Proof.
  unfold limb. revert i j.
  induction a as [| w t IH]; intros [| i] [| j] H; simpl; auto; try lia.
Qed.

Lemma limbs_ok_set_limb (a : bigu_t) (i : nat) (v : Z) :
  limbs_ok a -> is_u64 v -> limbs_ok (set_limb a i v).
Proof.
  unfold limbs_ok. intros Ha Hv. revert i.
  induction Ha as [| w t Hw Ht IH]; intros [| j]; simpl; constructor; auto.
Qed.

Lemma bigu_val_set_limb (a : bigu_t) (i : nat) (v : Z) :
  (i < length a)%nat ->
  bigu_val (set_limb a i v) = bigu_val a + (v - limb a i) * weight i.
Proof.
  unfold limb. revert i.
  induction a as [| w t IH]; intros [| j] H; simpl in H; try lia.
  - simpl. rewrite weight_0. lia.
  - simpl set_limb. simpl bigu_val. simpl nth.
    rewrite IH by lia. rewrite weight_S. ring.
Qed.

Lemma limb_is_u64 (a : bigu_t) (i : nat) : limbs_ok a -> is_u64 (limb a i).
Proof.
  unfold limb, limbs_ok. intros Ha. revert i.
  induction Ha as [| w t Hw Ht IH]; intros [| j]; simpl; auto;
    unfold is_u64; lia.
Qed.

Lemma limb_out_of_range (a : bigu_t) (i : nat) :
  (length a <= i)%nat -> limb a i = 0.
Proof. intros. unfold limb. now apply nth_overflow. Qed.

Lemma limb_of_val (a : bigu_t) (i : nat) :
  limbs_ok a -> limb a i = (bigu_val a / weight i) mod 2 ^ 64.
Proof.
  unfold limb. intros Ha. revert i.
  induction Ha as [| w t Hw Ht IH]; intros [| j]; simpl bigu_val; simpl nth.
  - reflexivity.
  - rewrite Z.div_0_l by (pose proof (weight_pos (S j)); lia). reflexivity.
  - rewrite weight_0, Z.div_1_r.
    rewrite (Z.mul_comm (2 ^ 64)), Z.mod_add by lia.
    unfold is_u64 in Hw. now rewrite Z.mod_small.
  - rewrite IH, weight_S.
    rewrite <- Z.div_div by (pose proof (weight_pos j); lia).
    rewrite (Z.mul_comm (2 ^ 64)), Z.div_add by lia.
    unfold is_u64 in Hw. rewrite (Z.div_small w) by lia.
    now rewrite Z.add_0_l.
Qed.

Lemma bigu_val_inj (a b : bigu_t) :
  limbs_ok a -> limbs_ok b -> length a = length b ->
  bigu_val a = bigu_val b -> a = b.
Proof.
  intros Ha. revert b.
  induction Ha as [| w t Hw Ht IH]; intros [| w' t'] Hb Hlen Hv;
    simpl in Hlen; try discriminate; auto.
  inversion Hb as [| ? ? Hw' Ht']; subst. simpl in Hv.
  unfold is_u64 in *.
  assert (w = w') by lia. subst w'.
  f_equal. apply IH; auto; lia.
Qed.

Lemma length_limbs_of (n : nat) (v : Z) : length (limbs_of n v) = n.
Proof. revert v. induction n; intros; simpl; auto. Qed.

Lemma limbs_ok_limbs_of (n : nat) (v : Z) : limbs_ok (limbs_of n v).
Proof.
  revert v. induction n as [| m IH]; intros v; simpl; constructor.
  - unfold is_u64. apply Z.mod_pos_bound. lia.
  - apply IH.
Qed.

Lemma bigu_val_limbs_of (n : nat) (v : Z) :
  bigu_val (limbs_of n v) = v mod weight n.
Proof.
  revert v. induction n as [| m IH]; intros v.
  - simpl. rewrite weight_0. now rewrite Z.mod_1_r.
  - simpl limbs_of. simpl bigu_val. rewrite IH, weight_S.
    pose proof (weight_pos m).
    rewrite Z.rem_mul_r by lia. reflexivity.
Qed.

Lemma bigu_wf_of_Z (v : Z) : bigu_wf (bigu_of_Z v).
Proof.
  split; [apply length_limbs_of | apply limbs_ok_limbs_of].
Qed.

Lemma bigu_val_of_Z (v : Z) :
  bigu_val (bigu_of_Z v) = v mod weight ACC_LIMBS.
Proof. apply bigu_val_limbs_of. Qed.

Lemma bigu_of_Z_val (a : bigu_t) : bigu_wf a -> bigu_of_Z (bigu_val a) = a.
Proof.
  intros [Hlen Hok]. apply bigu_val_inj.
  - apply limbs_ok_limbs_of.
  - exact Hok.
  - unfold bigu_of_Z. rewrite length_limbs_of. now symmetry.
  - rewrite bigu_val_of_Z. apply Z.mod_small.
    rewrite <- Hlen. now apply bigu_val_bound.
Qed.

Lemma bigu_wf_clear : bigu_wf bigu_clear.
Proof.
  split; [reflexivity |]. unfold bigu_clear, limbs_ok.
  apply Forall_forall. intros w Hw. apply repeat_spec in Hw. subst.
  unfold is_u64. lia.
Qed.

Lemma bigu_val_clear : bigu_val bigu_clear = 0.
Proof. reflexivity. Qed.

(** ** Exact addition into the accumulator *)

Lemma u64_small (z : Z) : is_u64 z -> u64 z = z.
Proof. unfold is_u64, u64. intros. now apply Z.mod_small. Qed.

Lemma u128_small (z : Z) : 0 <= z < 2 ^ 128 -> u128 z = z.
Proof. unfold u128. intros. now apply Z.mod_small. Qed.

Lemma u64_is_u64 (z : Z) : is_u64 (u64 z).
Proof. unfold is_u64, u64. apply Z.mod_pos_bound. lia. Qed.

Lemma bigu_wf_set_limb (a : bigu_t) (i : nat) (v : Z) :
  bigu_wf a -> is_u64 v -> bigu_wf (set_limb a i v).
Proof.
  intros [Hlen Hok] Hv. split.
  - now rewrite length_set_limb.
  - now apply limbs_ok_set_limb.
Qed.

(** Closes a goal [run = result /\ wf /\ range /\ value equation] whose parts
    hold by computation, by assumption and by linear arithmetic. *)
Ltac spec_done :=
  split; [reflexivity | split; [assumption | split; [lia | lia]]].

(** One limb addition: the carry out and the new limb together hold the
    old limb plus the word plus the carry in. *)
Lemma add_limb_step (a : bigu_t) (i : nat) (s : Z) :
  bigu_wf a -> (i < ACC_LIMBS)%nat -> limb a i <= s < 2 ^ 65 ->
  let sum := u128 s in
  bigu_wf (set_limb a i (u64 sum)) /\
  0 <= u64 (Z.shiftr sum 64) <= 1 /\
  bigu_val (set_limb a i (u64 sum)) + u64 (Z.shiftr sum 64) * weight (S i)
  = bigu_val a + (s - limb a i) * weight i.
Proof.
  intros Hwf Hi Hs sum.
  pose proof (limb_is_u64 a i (proj2 Hwf)) as Hl. unfold is_u64 in Hl.
  assert (Hsum : sum = s) by (apply u128_small; lia).
  rewrite Hsum. rewrite Z.shiftr_div_pow2 by lia.
  assert (Hq : 0 <= s / 2 ^ 64 <= 1).
  { split; [apply Z.div_pos; lia |].
    assert (s / 2 ^ 64 < 2) by (apply Z.div_lt_upper_bound; lia). lia. }
  rewrite (u64_small (s / 2 ^ 64)) by (unfold is_u64; lia).
  split; [| split].
  - apply bigu_wf_set_limb; [assumption | apply u64_is_u64].
  - assumption.
  - rewrite bigu_val_set_limb by (rewrite (proj1 Hwf); assumption).
    rewrite weight_S. unfold u64.
    pose proof (Z.div_mod s (2 ^ 64) ltac:(lia)) as Hdm.
    set (q := s / 2 ^ 64) in *. set (m := s mod 2 ^ 64) in *.
    rewrite Hdm. ring.
Qed.

Lemma add_word_at_spec (a : bigu_t) (idx : nat) (w carry : Z) (o : bool) :
  bigu_wf a -> (idx < ACC_LIMBS)%nat -> is_u64 w -> 0 <= carry <= 1 ->
  exists a' c',
    add_word_at a idx w carry o = (a', c', o) /\
    bigu_wf a' /\ 0 <= c' <= 1 /\
    bigu_val a' + c' * weight (S idx)
    = bigu_val a + (w + carry) * weight idx.
Proof.
  intros Hwf Hidx Hw Hc. unfold add_word_at.
  destruct ((w =? 0) && (carry =? 0)) eqn:Hz.
  - apply andb_true_iff in Hz. destruct Hz as [Hw0 Hc0].
    apply Z.eqb_eq in Hw0, Hc0. subst.
    exists a, 0. spec_done.
  - apply Nat.leb_gt in Hidx. rewrite Hidx.
    apply Nat.leb_gt in Hidx.
    pose proof (limb_is_u64 a idx (proj2 Hwf)) as Hl.
    unfold is_u64 in Hl, Hw.
    destruct (add_limb_step a idx (limb a idx + w + carry) Hwf Hidx)
      as (Hwf' & Hc' & Hv); [lia |].
    eexists _, _. split; [reflexivity |].
    split; [exact Hwf' |]. split; [exact Hc' |].
    rewrite Hv. ring.
Qed.

Lemma carry_loop_S (fuel : nat) (a : bigu_t) (i : nat) (carry : Z)
  (o : bool) :
  carry_loop (S fuel) a i carry o =
  if carry =? 0 then (a, o)
  else if (ACC_LIMBS <=? i)%nat then (a, true)
  else
    let sum := u128 (limb a i + carry) in
    carry_loop fuel (set_limb a i (u64 sum)) (S i)
      (u64 (Z.shiftr sum 64)) o.
Proof. reflexivity. Qed.

Lemma carry_loop_spec (fuel : nat) :
  forall (a : bigu_t) (i : nat) (carry : Z) (o : bool),
  bigu_wf a -> (i <= ACC_LIMBS)%nat -> (ACC_LIMBS < fuel + i)%nat ->
  0 <= carry <= 1 ->
  exists a' c',
    carry_loop fuel a i carry o = (a', o || (c' =? 1)) /\
    bigu_wf a' /\ 0 <= c' <= 1 /\
    bigu_val a' + c' * weight ACC_LIMBS = bigu_val a + carry * weight i.
Proof.
  induction fuel as [| f IH]; intros a i carry o Hwf Hi Hfuel Hc.
  - lia.
  - rewrite carry_loop_S. destruct (carry =? 0) eqn:Hc0.
    + apply Z.eqb_eq in Hc0. subst carry.
      exists a, 0. rewrite orb_false_r. spec_done.
    + apply Z.eqb_neq in Hc0. assert (carry = 1) by lia. subst carry.
      destruct (ACC_LIMBS <=? i)%nat eqn:Hle.
      * apply Nat.leb_le in Hle. assert (i = ACC_LIMBS) by lia. subst i.
        exists a, 1. rewrite orb_true_r. spec_done.
      * apply Nat.leb_gt in Hle.
        pose proof (limb_is_u64 a i (proj2 Hwf)) as Hl. unfold is_u64 in Hl.
        destruct (add_limb_step a i (limb a i + 1) Hwf Hle)
          as (Hwf' & Hc' & Hv); [lia |].
        destruct (IH _ (S i) _ o Hwf' ltac:(lia) ltac:(lia) Hc')
          as (a' & c' & Heq & Hwf'' & Hc'' & Hv').
        exists a', c'. split; [exact Heq |].
        split; [exact Hwf'' |]. split; [exact Hc'' |].
        rewrite Hv', Hv. ring.
Qed.

(** The fuel of [carry_loop] is never exhausted: from limb [i] on, any
    amount above [ACC_LIMBS - i] gives the same run. *)
Lemma carry_loop_fuel (f1 f2 : nat) (a : bigu_t) (i : nat) (carry : Z)
  (o : bool) :
  (ACC_LIMBS - i < f1)%nat -> (ACC_LIMBS - i < f2)%nat ->
  carry_loop f1 a i carry o = carry_loop f2 a i carry o.
Proof.
  revert f2 a i carry.
  induction f1 as [| f1 IH]; intros [| f2] a i carry H1 H2; try lia.
  rewrite !carry_loop_S.
  destruct (carry =? 0); [reflexivity |].
  destruct (ACC_LIMBS <=? i)%nat eqn:Hle; [reflexivity |].
  apply Nat.leb_gt in Hle. apply IH; lia.
Qed.

Lemma shifted_limbs_spec (val r : Z) :
  0 <= val < 2 ^ 128 -> 0 <= r < 64 ->
  let '(v0, v1, v2) := shifted_limbs val r in
  is_u64 v0 /\ is_u64 v1 /\ is_u64 v2 /\
  v0 + v1 * 2 ^ 64 + v2 * 2 ^ 128 = val * 2 ^ r.
Proof.
  intros Hval Hr. unfold shifted_limbs.
  assert (Hhi : u64 (Z.shiftr val 64) = val / 2 ^ 64).
  { rewrite Z.shiftr_div_pow2 by lia. apply u64_small. unfold is_u64.
    split; [apply Z.div_pos; lia | apply Z.div_lt_upper_bound; lia]. }
  rewrite Hhi. change (u64 val) with (val mod 2 ^ 64).
  pose proof (Z.div_mod val (2 ^ 64) ltac:(lia)) as Hdm.
  pose proof (Z.mod_pos_bound val (2 ^ 64) ltac:(lia)) as Hlo.
  assert (Hhi' : 0 <= val / 2 ^ 64 < 2 ^ 64).
  { split; [apply Z.div_pos; lia | apply Z.div_lt_upper_bound; lia]. }
  set (lo := val mod 2 ^ 64) in *. set (hi := val / 2 ^ 64) in *.
  destruct (r =? 0) eqn:Hr0.
  - apply Z.eqb_eq in Hr0. subst r. unfold is_u64.
    rewrite Z.pow_0_r. repeat split; lia.
  - apply Z.eqb_neq in Hr0.
    rewrite !Z.shiftl_mul_pow2, !Z.shiftr_div_pow2 by lia.
    assert (HRQ : 2 ^ 64 = 2 ^ (64 - r) * 2 ^ r).
    { rewrite <- Z.pow_add_r by lia. f_equal. lia. }
    pose proof (pow2_pos r ltac:(lia)) as HR.
    pose proof (pow2_pos (64 - r) ltac:(lia)) as HQ.
    unfold u64. rewrite HRQ.
    set (R := 2 ^ r) in *. set (Q := 2 ^ (64 - r)) in *.
    rewrite !Z.mul_mod_distr_r by lia.
    pose proof (Z.div_mod lo Q ltac:(lia)) as Hlo_dm.
    pose proof (Z.div_mod hi Q ltac:(lia)) as Hhi_dm.
    pose proof (Z.mod_pos_bound lo Q ltac:(lia)) as Hlo_m.
    pose proof (Z.mod_pos_bound hi Q ltac:(lia)) as Hhi_m.
    assert (Hlo_q : 0 <= lo / Q < R).
    { split; [apply Z.div_pos; lia | apply Z.div_lt_upper_bound; lia]. }
    assert (Hhi_q : 0 <= hi / Q < R).
    { split; [apply Z.div_pos; lia | apply Z.div_lt_upper_bound; lia]. }
    rewrite (lor_disjoint (hi mod Q * R) (lo / Q) r); try lia.
    2:{ apply Z.mod_mul. lia. }
    set (lq := lo / Q) in *. set (lm := lo mod Q) in *.
    set (hq := hi / Q) in *. set (hm := hi mod Q) in *.
    unfold is_u64. rewrite HRQ.
    assert (H128 : 2 ^ 128 = (Q * R) * (Q * R)).
    { rewrite <- HRQ. rewrite <- Z.pow_add_r by lia. reflexivity. }
    rewrite H128.
    repeat split; try nia.
Qed.

Lemma pow2_shift_split (shift : Z) :
  0 <= shift ->
  2 ^ shift = 2 ^ (shift mod 64) * weight (Z.to_nat (shift / 64)).
Proof.
  intros Hs. unfold weight.
  rewrite Z2Nat.id by (apply Z.div_pos; lia).
  pose proof (Z.mod_pos_bound shift 64 ltac:(lia)).
  pose proof (Z.div_pos shift 64 Hs ltac:(lia)).
  rewrite <- Z.pow_add_r by lia. f_equal.
  pose proof (Z.div_mod shift 64 ltac:(lia)). lia.
Qed.

(** [bigu_add_shifted_u128] adds [val * 2^shift] exactly; [c] is the carry
    out of the top limb, and the flag is latched exactly when [c = 1]. *)
Lemma bigu_add_shifted_u128_spec (a : bigu_t) (val shift : Z) (o : bool) :
  bigu_wf a -> 0 <= val < 2 ^ 128 -> 0 <= shift <= 4090 ->
  exists a' c,
    bigu_add_shifted_u128 a val shift o = (a', o || (c =? 1)) /\
    bigu_wf a' /\ 0 <= c <= 1 /\
    bigu_val a' + c * weight ACC_LIMBS = bigu_val a + val * 2 ^ shift.
Proof.
  intros Hwf Hval Hshift. unfold bigu_add_shifted_u128, WORD_BITS.
  destruct (val =? 0) eqn:Hv0.
  - apply Z.eqb_eq in Hv0. subst val. exists a, 0.
    rewrite orb_false_r. spec_done.
  - pose proof (Z.mod_pos_bound shift 64 ltac:(lia)) as Hr.
    pose proof (shifted_limbs_spec val (shift mod 64) Hval Hr) as Hlimbs.
    destruct (shifted_limbs val (shift mod 64)) as [[v0 v1] v2].
    destruct Hlimbs as (H0 & H1 & H2 & Hsum).
    assert (Hoff : (Z.to_nat (shift / 64) <= 63)%nat).
    { assert (shift / 64 < 64) by (apply Z.div_lt_upper_bound; lia).
      pose proof (Z.div_pos shift 64 ltac:(lia) ltac:(lia)). lia. }
    set (i := Z.to_nat (shift / 64)) in *.
    assert (HACC : ACC_LIMBS = 66%nat) by reflexivity.
    destruct (add_word_at_spec a i v0 0 o Hwf ltac:(lia) H0 ltac:(lia))
      as (a1 & c1 & E1 & Hwf1 & Hc1 & V1).
    rewrite E1.
    destruct (add_word_at_spec a1 (i + 1) v1 c1 o Hwf1 ltac:(lia) H1 Hc1)
      as (a2 & c2 & E2 & Hwf2 & Hc2 & V2).
    rewrite E2.
    destruct (add_word_at_spec a2 (i + 2) v2 c2 o Hwf2 ltac:(lia) H2 Hc2)
      as (a3 & c3 & E3 & Hwf3 & Hc3 & V3).
    rewrite E3.
    destruct (carry_loop_spec (S ACC_LIMBS) a3 (i + 3) c3 o Hwf3
                ltac:(lia) ltac:(lia) Hc3)
      as (a' & c & E & Hwf' & Hc & V).
    exists a', c. split; [exact E |]. split; [exact Hwf' |].
    split; [exact Hc |].
    rewrite V, (pow2_shift_split shift) by lia. fold i.
    replace (S (i + 2)) with (i + 3)%nat in V3 by lia.
    replace (S (i + 1)) with (i + 2)%nat in V2 by lia.
    replace (S i) with (i + 1)%nat in V1 by lia.
    assert (W1 : weight (i + 1) = 2 ^ 64 * weight i).
    { rewrite Nat.add_1_r. apply weight_S. }
    assert (W2 : weight (i + 2) = 2 ^ 128 * weight i).
    { replace (i + 2)%nat with (S (S i)) by lia. rewrite !weight_S.
      change (2 ^ 128) with (2 ^ 64 * 2 ^ 64). ring. }
    rewrite W2 in V3, V2. rewrite W1 in V2, V1.
    assert (Hsum' : val * (2 ^ (shift mod 64) * weight i)
                    = v0 * weight i + v1 * (2 ^ 64 * weight i)
                      + v2 * (2 ^ 128 * weight i)).
    { rewrite Z.mul_assoc, <- Hsum. ring. }
    rewrite Hsum'. clear - V1 V2 V3. lia.
Qed.

(** The same in closed form: addition modulo the accumulator capacity, the
    flag recording the carry out. *)
Lemma bigu_add_shifted_u128_mod (a : bigu_t) (val shift : Z) (o : bool) :
  bigu_wf a -> 0 <= val < 2 ^ 128 -> 0 <= shift <= 4090 ->
  bigu_add_shifted_u128 a val shift o =
  (bigu_of_Z (bigu_val a + val * 2 ^ shift),
   o || (weight ACC_LIMBS <=? bigu_val a + val * 2 ^ shift)).
Proof.
  intros Hwf Hval Hshift.
  destruct (bigu_add_shifted_u128_spec a val shift o Hwf Hval Hshift)
    as (a' & c & E & Hwf' & Hc & V).
  rewrite E. rewrite <- V.
  pose proof (bigu_val_bound a' (proj2 Hwf')) as Hb.
  rewrite (proj1 Hwf') in Hb.
  assert (Hc' : c = 0 \/ c = 1) by lia.
  f_equal.
  - rewrite <- (bigu_of_Z_val a' Hwf') at 1.
    unfold bigu_of_Z. apply bigu_val_inj.
    + apply limbs_ok_limbs_of.
    + apply limbs_ok_limbs_of.
    + now rewrite !length_limbs_of.
    + rewrite !bigu_val_limbs_of. now rewrite Z.mod_add by lia.
  - f_equal. destruct Hc' as [-> | ->]; simpl.
    + symmetry. apply Z.leb_gt. lia.
    + symmetry. apply Z.leb_le. lia.
Qed.

(** ** Comparison and most significant bit *)

Lemma val_low_range (k : nat) (a : bigu_t) : 0 <= val_low k a < weight k.
Proof. apply Z.mod_pos_bound. apply weight_pos. Qed.

Lemma val_low_0 (a : bigu_t) : val_low 0 a = 0.
Proof. unfold val_low. rewrite weight_0. apply Z.mod_1_r. Qed.

Lemma val_low_S (k : nat) (a : bigu_t) :
  limbs_ok a -> val_low (S k) a = val_low k a + limb a k * weight k.
Proof.
  intros Ha. unfold val_low. rewrite weight_S, (Z.mul_comm (2 ^ 64)).
  pose proof (weight_pos k).
  rewrite Z.rem_mul_r by lia. rewrite (limb_of_val a k Ha). ring.
Qed.

Lemma val_low_all (a : bigu_t) : bigu_wf a -> val_low ACC_LIMBS a = bigu_val a.
Proof.
  intros [Hlen Hok]. apply Z.mod_small. rewrite <- Hlen.
  now apply bigu_val_bound.
Qed.

Lemma bigu_cmp_from_spec (k : nat) (a b : bigu_t) :
  limbs_ok a -> limbs_ok b ->
  bigu_cmp_from k a b = Z.sgn (val_low k a - val_low k b).
Proof.
  intros Ha Hb. induction k as [| i IH].
  - now rewrite !val_low_0.
  - simpl bigu_cmp_from. rewrite !val_low_S by assumption.
    pose proof (val_low_range i a). pose proof (val_low_range i b).
    pose proof (weight_pos i) as Hw.
    destruct (limb a i <? limb b i) eqn:Hlt.
    + apply Z.ltb_lt in Hlt. symmetry. apply Z.sgn_neg. nia.
    + apply Z.ltb_ge in Hlt. destruct (limb b i <? limb a i) eqn:Hgt.
      * apply Z.ltb_lt in Hgt. symmetry. apply Z.sgn_pos. nia.
      * apply Z.ltb_ge in Hgt. assert (limb a i = limb b i) as -> by lia.
        rewrite IH. f_equal. ring.
Qed.

Lemma bigu_cmp_spec (a b : bigu_t) :
  bigu_wf a -> bigu_wf b -> bigu_cmp a b = Z.sgn (bigu_val a - bigu_val b).
Proof.
  intros Ha Hb. unfold bigu_cmp.
  rewrite bigu_cmp_from_spec by (apply Ha || apply Hb).
  now rewrite !val_low_all.
Qed.

Lemma bigu_cmp_refl (a : bigu_t) : bigu_cmp a a = 0.
Proof.
  unfold bigu_cmp. induction ACC_LIMBS as [| i IH]; simpl; auto.
  now rewrite Z.ltb_irrefl.
Qed.

(** [bigu_cmp] answers [0] exactly when the limbs agree. *)
Lemma bigu_cmp_from_0 (k : nat) (a b : bigu_t) :
  bigu_cmp_from k a b = 0 <->
  (forall j, (j < k)%nat -> limb a j = limb b j).
Proof.
  induction k as [| i IH]; simpl bigu_cmp_from.
  - split; [intros _ j Hj; lia | reflexivity].
  - destruct (limb a i <? limb b i) eqn:Hlt.
    { apply Z.ltb_lt in Hlt. split; [discriminate |].
      intros H. specialize (H i ltac:(lia)). lia. }
    destruct (limb b i <? limb a i) eqn:Hgt.
    { apply Z.ltb_lt in Hgt. split; [discriminate |].
      intros H. specialize (H i ltac:(lia)). lia. }
    apply Z.ltb_ge in Hlt, Hgt. rewrite IH. split.
    + intros H j Hj. destruct (Nat.eq_dec j i) as [-> | Hne]; [lia |].
      apply H. lia.
    + intros H j Hj. apply H. lia.
Qed.

Lemma bigu_cmp_swap (a b : bigu_t) : bigu_cmp b a = - bigu_cmp a b.
Proof.
  unfold bigu_cmp. induction ACC_LIMBS as [| i IH]; simpl; auto.
  destruct (limb a i <? limb b i) eqn:H1, (limb b i <? limb a i) eqn:H2;
    try reflexivity; try assumption.
  apply Z.ltb_lt in H1, H2. lia.
Qed.

Lemma bigu_msb_from_spec (k : nat) (a : bigu_t) :
  limbs_ok a ->
  bigu_msb_from k a = if val_low k a =? 0 then -1 else Z.log2 (val_low k a).
Proof.
  intros Ha. induction k as [| i IH].
  - now rewrite val_low_0.
  - simpl bigu_msb_from. rewrite val_low_S by assumption.
    pose proof (val_low_range i a) as Hlo.
    pose proof (limb_is_u64 a i Ha) as Hl. unfold is_u64 in Hl.
    pose proof (weight_pos i) as Hw.
    destruct (limb a i =? 0) eqn:Hz; simpl negb; cbv iota.
    + apply Z.eqb_eq in Hz. rewrite Hz, Z.mul_0_l, Z.add_0_r. exact IH.
    + apply Z.eqb_neq in Hz. unfold builtin_clzll.
      assert (Hpos : 0 < limb a i) by lia.
      destruct (Z.log2_spec _ Hpos) as [Hlb Hub].
      pose proof (Z.log2_nonneg (limb a i)) as Hnn.
      set (l := Z.log2 (limb a i)) in *.
      assert (Hne : val_low i a + limb a i * weight i <> 0) by nia.
      apply Z.eqb_neq in Hne. rewrite Hne.
      symmetry. replace (Z.of_nat i * 64 + (63 - (63 - l)))
        with (l + 64 * Z.of_nat i) by lia.
      apply Z.log2_unique; [lia |].
      unfold weight in *. rewrite Z.pow_add_r by lia.
      replace (Z.succ (l + 64 * Z.of_nat i)) with (Z.succ l + 64 * Z.of_nat i)
        by lia.
      rewrite (Z.pow_add_r 2 (Z.succ l)) by lia.
      split; nia.
Qed.

Lemma bigu_msb_index_spec (a : bigu_t) :
  bigu_wf a ->
  bigu_msb_index a = if bigu_val a =? 0 then -1 else Z.log2 (bigu_val a).
Proof.
  intros Ha. unfold bigu_msb_index.
  rewrite bigu_msb_from_spec by apply Ha. now rewrite val_low_all.
Qed.

(** The answer is negative only for the all-zero accumulator. *)
Lemma bigu_msb_from_neg (k : nat) (a : bigu_t) :
  bigu_msb_from k a < 0 -> forall j, (j < k)%nat -> limb a j = 0.
Proof.
  induction k as [| i IH]; simpl bigu_msb_from; intros H j Hj; [lia |].
  destruct (limb a i =? 0) eqn:Hz; simpl negb in H; cbv iota in H.
  - apply Z.eqb_eq in Hz.
    destruct (Nat.eq_dec j i) as [-> | Hne]; [assumption |].
    apply IH; [assumption | lia].
  - unfold builtin_clzll in H. pose proof (Z.log2_nonneg (limb a i)). lia.
Qed.

(** ** Subtraction *)

Lemma bigu_sub_loop_S (k i : nat) (a b c : bigu_t) (borrow : Z) :
  bigu_sub_loop (S k) i a b c borrow =
  let ai := limb a i in
  let bi := u64 (limb b i + borrow) in
  let diff := u128 (ai - bi) in
  bigu_sub_loop k (S i) a b (set_limb c i (u64 diff))
    (u64 (Z.land (Z.shiftr diff 64) 1)).
Proof. reflexivity. Qed.

Lemma land_1 (x : Z) : Z.land x 1 = x mod 2.
Proof. apply (Z.land_ones x 1). lia. Qed.

(** The limb and the borrow one iteration produces from [ai] and [bi]. *)
Lemma sub_limb_step (ai bi : Z) :
  is_u64 ai -> is_u64 bi ->
  let diff := u128 (ai - bi) in
  let bw := u64 (Z.land (Z.shiftr diff 64) 1) in
  0 <= bw <= 1 /\ ai - bi = u64 diff - bw * 2 ^ 64.
Proof.
  unfold is_u64. intros Ha Hb. cbv zeta.
  rewrite land_1, Z.shiftr_div_pow2 by lia. unfold u128, u64.
  destruct (Z.lt_ge_cases ai bi) as [Hlt | Hge].
  - replace ((ai - bi) mod 2 ^ 128) with (ai - bi + 2 ^ 128).
    2:{ symmetry. rewrite <- (Z.mod_add _ 1) by lia.
        rewrite Z.mul_1_l. apply Z.mod_small. lia. }
    replace (ai - bi + 2 ^ 128)
      with ((ai - bi + 2 ^ 64) + (2 ^ 64 - 1) * 2 ^ 64) by
      (change (2 ^ 128) with (2 ^ 64 * 2 ^ 64); ring).
    rewrite Z.div_add, Z.mod_add by lia.
    rewrite (Z.div_small (ai - bi + 2 ^ 64)) by lia.
    rewrite (Z.mod_small (ai - bi + 2 ^ 64)) by lia.
    change ((0 + (2 ^ 64 - 1)) mod 2) with 1.
    change (1 mod 2 ^ 64) with 1. lia.
  - rewrite (Z.mod_small (ai - bi) (2 ^ 128)) by lia.
    rewrite (Z.div_small (ai - bi)) by lia.
    rewrite (Z.mod_small (ai - bi) (2 ^ 64)) by lia.
    change ((0 mod 2) mod 2 ^ 64) with 0. lia.
Qed.

Lemma length_bigu_sub_loop (k : nat) :
  forall i a b c borrow,
  length (bigu_sub_loop k i a b c borrow) = length c.
Proof.
  induction k as [| k IH]; intros; [reflexivity |].
  rewrite bigu_sub_loop_S. cbv zeta. rewrite IH. apply length_set_limb.
Qed.

Lemma limbs_ok_bigu_sub_loop (k : nat) :
  forall i a b c borrow,
  limbs_ok c -> limbs_ok (bigu_sub_loop k i a b c borrow).
Proof.
  induction k as [| k IH]; intros i a b c borrow Hc; [assumption |].
  rewrite bigu_sub_loop_S. cbv zeta. apply IH.
  apply limbs_ok_set_limb; [assumption | apply u64_is_u64].
Qed.

Lemma bigu_wf_sub (a b : bigu_t) : bigu_wf (bigu_sub a b bigu_clear).
Proof.
  split.
  - unfold bigu_sub. now rewrite length_bigu_sub_loop.
  - unfold bigu_sub. apply limbs_ok_bigu_sub_loop. apply bigu_wf_clear.
Qed.

(** Limbs below the loop index are final. *)
Lemma limb_bigu_sub_loop_below (k : nat) :
  forall i a b c borrow j,
  (j < i)%nat -> limb (bigu_sub_loop k i a b c borrow) j = limb c j.
Proof.
  induction k as [| k IH]; intros i a b c borrow j Hj; [reflexivity |].
  rewrite bigu_sub_loop_S. cbv zeta. rewrite IH by lia.
  apply limb_set_limb_other. lia.
Qed.

Lemma val_div_weight_S (a : bigu_t) (i : nat) :
  limbs_ok a ->
  bigu_val a / weight i = limb a i + 2 ^ 64 * (bigu_val a / weight (S i)).
Proof.
  intros Ha. rewrite (limb_of_val a i Ha), weight_S.
  pose proof (weight_pos i).
  replace (2 ^ 64 * weight i) with (weight i * 2 ^ 64) by ring.
  rewrite <- Z.div_div by lia.
  pose proof (Z.div_mod (bigu_val a / weight i) (2 ^ 64) ltac:(lia)). lia.
Qed.

Lemma limb_zero_above (c : bigu_t) (i : nat) :
  limbs_ok c -> bigu_val c < weight i -> limb c i = 0.
Proof.
  intros Hc Hlt. rewrite (limb_of_val c i Hc).
  pose proof (bigu_val_bound c Hc). rewrite Z.div_small by lia. reflexivity.
Qed.

Lemma sub_wraps_loop_S (k i : nat) (a b : bigu_t) (borrow : Z) :
  sub_wraps_loop (S k) i a b borrow =
  let ai := limb a i in
  let bi := u64 (limb b i + borrow) in
  let diff := u128 (ai - bi) in
  (2 ^ 64 <=? limb b i + borrow)
  || sub_wraps_loop k (S i) a b (u64 (Z.land (Z.shiftr diff 64) 1)).
Proof. reflexivity. Qed.

(** As long as no limb sum wraps, the loop subtracts exactly; [bout] is the
    borrow out of the top limb. *)
Lemma bigu_sub_loop_spec (k : nat) :
  forall i a b c borrow,
  limbs_ok a -> limbs_ok b -> limbs_ok c ->
  length a = length c -> length b = length c ->
  (i + k = length c)%nat -> bigu_val c < weight i -> 0 <= borrow <= 1 ->
  sub_wraps_loop k i a b borrow = false ->
  exists bout, 0 <= bout <= 1 /\
    bigu_val (bigu_sub_loop k i a b c borrow)
    = bigu_val c
      + (bigu_val a / weight i - bigu_val b / weight i - borrow) * weight i
      + bout * weight (i + k).
Proof.
  induction k as [| k IH];
    intros i a b c borrow Ha Hb Hc Hla Hlb Hlen Hlow Hbw Hnw.
  - exists borrow. split; [assumption |]. simpl bigu_sub_loop.
    rewrite Nat.add_0_r in *.
    pose proof (bigu_val_bound a Ha) as Hba.
    pose proof (bigu_val_bound b Hb) as Hbb.
    rewrite Hla, <- Hlen in Hba. rewrite Hlb, <- Hlen in Hbb.
    rewrite !Z.div_small by lia. ring.
  - rewrite sub_wraps_loop_S in Hnw. cbv zeta in Hnw.
    apply orb_false_iff in Hnw. destruct Hnw as [Hw Hnw].
    apply Z.leb_gt in Hw.
    rewrite bigu_sub_loop_S. cbv zeta.
    pose proof (limb_is_u64 a i Ha) as Hai.
    pose proof (limb_is_u64 b i Hb) as Hbi.
    assert (Hbi' : is_u64 (limb b i + borrow)) by (unfold is_u64 in *; lia).
    rewrite (u64_small (limb b i + borrow)) in * by assumption.
    destruct (sub_limb_step (limb a i) (limb b i + borrow) Hai Hbi')
      as [Hbw' Hstep].
    set (diff := u128 (limb a i - (limb b i + borrow))) in *.
    set (bw' := u64 (Z.land (Z.shiftr diff 64) 1)) in *.
    pose proof (u64_is_u64 diff) as Hv. set (v := u64 diff) in *.
    assert (Hci : limb c i = 0) by (now apply limb_zero_above).
    assert (Hv1 : bigu_val (set_limb c i v) = bigu_val c + v * weight i).
    { rewrite bigu_val_set_limb by lia. rewrite Hci. ring. }
    pose proof (bigu_val_bound c Hc) as Hbc.
    pose proof (weight_pos i) as Hwi.
    destruct (IH (S i) a b (set_limb c i v) bw' Ha Hb) as (bout & Hbout & Hval);
      try assumption; rewrite ?length_set_limb; try lia.
    + now apply limbs_ok_set_limb.
    + rewrite Hv1, weight_S. unfold is_u64 in Hv. nia.
    + exists bout. split; [assumption |]. rewrite Hval, Hv1.
      rewrite (val_div_weight_S a i Ha), (val_div_weight_S b i Hb).
      replace (S i + k)%nat with (i + S k)%nat by lia.
      rewrite weight_S.
      set (A' := bigu_val a / (2 ^ 64 * weight i)).
      set (B' := bigu_val b / (2 ^ 64 * weight i)).
      replace (limb a i + 2 ^ 64 * A' - (limb b i + 2 ^ 64 * B') - borrow)
        with ((limb a i - (limb b i + borrow)) + 2 ^ 64 * (A' - B')) by ring.
      rewrite Hstep. ring.
Qed.

(** With [a >= b] and no wrapped limb sum, [bigu_sub] is the difference. *)
Lemma bigu_sub_spec (a b : bigu_t) :
  bigu_wf a -> bigu_wf b -> bigu_val b <= bigu_val a ->
  bigu_sub_wraps a b = false ->
  bigu_val (bigu_sub a b bigu_clear) = bigu_val a - bigu_val b.
Proof.
  intros [Hla Ha] [Hlb Hb] Hle Hnw.
  pose proof bigu_wf_clear as [Hl0 Hok0].
  assert (Hlow : bigu_val bigu_clear < weight 0).
  { rewrite bigu_val_clear, weight_0. lia. }
  destruct (bigu_sub_loop_spec ACC_LIMBS 0 a b bigu_clear 0 Ha Hb Hok0
              ltac:(congruence) ltac:(congruence) ltac:(now rewrite Hl0)
              Hlow ltac:(lia) Hnw)
    as (bout & Hbout & Hval).
  pose proof (bigu_wf_sub a b) as [Hlc Hc].
  pose proof (bigu_val_bound _ Hc) as Hbc. rewrite Hlc in Hbc.
  pose proof (bigu_val_bound a Ha) as Hba. rewrite Hla in Hba.
  pose proof (bigu_val_bound b Hb) as Hbb. rewrite Hlb in Hbb.
  unfold bigu_sub in *. rewrite Hval in *.
  rewrite bigu_val_clear, weight_0, !Z.div_1_r in *.
  change (0 + ACC_LIMBS)%nat with ACC_LIMBS in *.
  assert (Hcases : bout = 0 \/ bout = 1) by lia.
  destruct Hcases as [-> | ->]; lia.
Qed.

(** Even when a borrow is lost, the result is zero only for equal operands:
    with no borrow pending, a zero limb of the result means equal limbs of
    the operands, and then no borrow leaves that limb. *)
Lemma bigu_sub_loop_zero (k : nat) :
  forall i a b c,
  limbs_ok a -> limbs_ok b -> (i + k <= length c)%nat ->
  (forall j, (i <= j < i + k)%nat -> limb (bigu_sub_loop k i a b c 0) j = 0) ->
  forall j, (i <= j < i + k)%nat -> limb a j = limb b j.
Proof.
  induction k as [| k IH]; intros i a b c Ha Hb Hlen Hz j Hj; [lia |].
  pose proof (limb_is_u64 a i Ha) as Hai.
  pose proof (limb_is_u64 b i Hb) as Hbi.
  assert (Hi : limb a i = limb b i).
  { specialize (Hz i ltac:(lia)). rewrite bigu_sub_loop_S in Hz.
    cbv zeta in Hz. rewrite limb_bigu_sub_loop_below in Hz by lia.
    rewrite limb_set_limb_same in Hz by lia.
    rewrite Z.add_0_r, (u64_small (limb b i)) in Hz by assumption.
    destruct (sub_limb_step (limb a i) (limb b i) Hai Hbi) as [Hbw Hstep].
    rewrite Hz in Hstep. unfold is_u64 in *. lia. }
  destruct (Nat.eq_dec j i) as [-> | Hne]; [assumption |].
  apply (IH (S i) a b (set_limb c i 0)); try assumption.
  - rewrite length_set_limb. lia.
  - intros j' Hj'. specialize (Hz j' ltac:(lia)).
    rewrite bigu_sub_loop_S in Hz. cbv zeta in Hz.
    rewrite Z.add_0_r, (u64_small (limb b i)), Hi, Z.sub_diag in Hz
      by assumption.
    exact Hz.
  - lia.
Qed.

Lemma bigu_sub_nonzero (a b : bigu_t) :
  bigu_wf a -> bigu_wf b -> bigu_cmp a b <> 0 ->
  0 <= bigu_msb_index (bigu_sub a b bigu_clear).
Proof.
  unfold bigu_cmp, bigu_msb_index, bigu_sub. intros Ha Hb Hcmp.
  set (m := bigu_sub_loop ACC_LIMBS 0 a b bigu_clear 0).
  destruct (Z.lt_ge_cases (bigu_msb_from ACC_LIMBS m) 0) as [Hneg | Hge];
    [| assumption].
  exfalso. apply Hcmp. apply (proj2 (bigu_cmp_from_0 ACC_LIMBS a b)).
  intros j Hj.
  apply (bigu_sub_loop_zero ACC_LIMBS 0 a b bigu_clear (proj2 Ha) (proj2 Hb)).
  - rewrite (proj1 bigu_wf_clear). lia.
  - intros j' Hj'. fold m.
    apply (bigu_msb_from_neg ACC_LIMBS m Hneg). lia.
  - lia.
Qed.

(** ** Bit windows *)

Lemma window_mod (x n m c : Z) :
  0 <= m -> 0 <= c -> m + c <= n ->
  ((x mod 2 ^ n) / 2 ^ m) mod 2 ^ c = (x / 2 ^ m) mod 2 ^ c.
Proof.
  intros Hm Hc Hn. apply Z.bits_inj'. intros j Hj.
  rewrite !Z.testbit_mod_pow2 by lia.
  rewrite !Z.div_pow2_bits by lia.
  rewrite Z.testbit_mod_pow2 by lia.
  destruct (j <? c) eqn:Hjc; [| reflexivity].
  apply Z.ltb_lt in Hjc.
  assert (H : (j + m <? n) = true) by (apply Z.ltb_lt; lia).
  now rewrite H.
Qed.

Lemma mod_mod_pow2 (x m n : Z) :
  0 <= n <= m -> (x mod 2 ^ m) mod 2 ^ n = x mod 2 ^ n.
Proof.
  intros H. pose proof (window_mod x m 0 n) as Hw.
  rewrite Z.pow_0_r, !Z.div_1_r in Hw. apply Hw; lia.
Qed.

Lemma weight_pow (i : nat) (off : Z) :
  0 <= off -> weight i * 2 ^ off = 2 ^ (64 * Z.of_nat i + off).
Proof. intros. unfold weight. rewrite Z.pow_add_r by lia. reflexivity. Qed.

Lemma limb_or_zero_eq (a : bigu_t) (widx : Z) :
  bigu_wf a -> 0 <= widx -> limb_or_zero a widx = limb a (Z.to_nat widx).
Proof.
  intros [Hlen Hok] Hw. unfold limb_or_zero.
  destruct (widx <? Z.of_nat ACC_LIMBS) eqn:Hlt.
  - apply Z.ltb_lt in Hlt. apply Z.leb_le in Hw. now rewrite Hw.
  - apply Z.ltb_ge in Hlt. rewrite andb_false_r. symmetry.
    apply limb_out_of_range. lia.
Qed.

(** Two adjacent limbs, as the 128-bit [concat] of [bigu_extract_bits64]. *)
Lemma limb_pair (a : bigu_t) (i : nat) :
  limbs_ok a ->
  Z.lor (u128 (Z.shiftl (limb a (S i)) 64)) (limb a i)
  = (bigu_val a / weight i) mod 2 ^ 128.
Proof.
  intros Ha.
  pose proof (limb_is_u64 a i Ha) as H0.
  pose proof (limb_is_u64 a (S i) Ha) as H1. unfold is_u64 in *.
  rewrite Z.shiftl_mul_pow2 by lia.
  rewrite u128_small by (change (2 ^ 128) with (2 ^ 64 * 2 ^ 64); nia).
  rewrite (lor_disjoint _ _ 64) by (try lia; apply Z.mod_mul; lia).
  change (2 ^ 128) with (2 ^ 64 * 2 ^ 64).
  rewrite Z.rem_mul_r by lia.
  rewrite (limb_of_val a i Ha), (limb_of_val a (S i) Ha), weight_S.
  pose proof (weight_pos i).
  replace (2 ^ 64 * weight i) with (weight i * 2 ^ 64) by ring.
  rewrite <- Z.div_div by lia. ring.
Qed.

Lemma bigu_extract_bits64_spec (a : bigu_t) (start count : Z) :
  bigu_wf a -> 0 <= start < Z.of_nat ACC_LIMBS * 64 -> 1 <= count <= 64 ->
  bigu_extract_bits64 a start count = (bigu_val a / 2 ^ start) mod 2 ^ count.
Proof.
  intros Hwf Hstart Hcount. unfold bigu_extract_bits64.
  assert (Hc0 : (count <=? 0) = false) by (apply Z.leb_gt; lia).
  assert (Hs0 : (Z.of_nat ACC_LIMBS * 64 <=? start) = false)
    by (apply Z.leb_gt; lia).
  assert (He0 : (start + count - 1 <? 0) = false) by (apply Z.ltb_ge; lia).
  rewrite Hc0, Hs0. cbv zeta. rewrite He0.
  rewrite Z.quot_div_nonneg, Z.rem_mod_nonneg by lia.
  pose proof (Z.mod_pos_bound start 64 ltac:(lia)) as Hoff.
  pose proof (Z.div_pos start 64 ltac:(lia) ltac:(lia)) as Hidx.
  pose proof (Z.div_mod start 64 ltac:(lia)) as Hdm.
  rewrite !limb_or_zero_eq by (assumption || lia).
  replace (Z.to_nat (start / 64 + 1)) with (S (Z.to_nat (start / 64))) by lia.
  rewrite limb_pair by apply Hwf.
  rewrite Z.shiftr_div_pow2 by lia.
  set (i := Z.to_nat (start / 64)). set (off := start mod 64) in *.
  assert (Hmask :
    (if count =? 64 then u64 (Z.lnot 0)
     else u64 (u64 (Z.shiftl 1 count) - 1)) = Z.ones count).
  { destruct (count =? 64) eqn:Hc64.
    - apply Z.eqb_eq in Hc64. subst count. reflexivity.
    - apply Z.eqb_neq in Hc64. rewrite Z.shiftl_1_l.
      assert (2 ^ count < 2 ^ 64) by (apply Z.pow_lt_mono_r; lia).
      pose proof (pow2_pos count ltac:(lia)).
      rewrite (u64_small (2 ^ count)) by (unfold is_u64; lia).
      rewrite u64_small by (unfold is_u64; lia).
      rewrite Z.ones_equiv. lia. }
  rewrite Hmask, Z.land_ones by lia. unfold u64.
  rewrite mod_mod_pow2 by lia.
  rewrite window_mod by lia.
  pose proof (weight_pos i). pose proof (pow2_pos off ltac:(lia)).
  rewrite Z.div_div by lia.
  rewrite weight_pow by lia. do 2 f_equal. f_equal. subst i. lia.
Qed.

Lemma existsb_limbs_nonzero (a : bigu_t) (k : nat) :
  limbs_ok a ->
  existsb (fun i => negb (limb a i =? 0)) (seq 0 k)
  = negb (val_low k a =? 0).
Proof.
  intros Ha. induction k as [| k IH].
  - now rewrite val_low_0.
  - rewrite seq_S, existsb_app, IH. simpl existsb. rewrite orb_false_r.
    rewrite val_low_S by assumption.
    pose proof (val_low_range k a). pose proof (weight_pos k).
    pose proof (limb_is_u64 a k Ha) as Hl. unfold is_u64 in Hl.
    destruct (Z.eqb_spec (val_low k a) 0) as [E1 | N1],
             (Z.eqb_spec (limb a k) 0) as [E2 | N2]; simpl; symmetry.
    + apply negb_false_iff, Z.eqb_eq. nia.
    + apply negb_true_iff, Z.eqb_neq. nia.
    + apply negb_true_iff, Z.eqb_neq. nia.
    + apply negb_true_iff, Z.eqb_neq. nia.
Qed.

Lemma bigu_has_any_below_spec (a : bigu_t) (idx : Z) :
  bigu_wf a -> 0 <= idx < Z.of_nat ACC_LIMBS * 64 ->
  bigu_has_any_below a idx = negb (bigu_val a mod 2 ^ idx =? 0).
Proof.
  intros Hwf Hidx. unfold bigu_has_any_below.
  destruct (idx <=? 0) eqn:Hle.
  - apply Z.leb_le in Hle. assert (idx = 0) as -> by lia.
    now rewrite Z.pow_0_r, Z.mod_1_r.
  - apply Z.leb_gt in Hle. cbv zeta.
    rewrite Z.quot_div_nonneg, Z.rem_mod_nonneg by lia.
    pose proof (Z.mod_pos_bound idx 64 ltac:(lia)) as Hoff.
    pose proof (Z.div_pos idx 64 ltac:(lia) ltac:(lia)) as Hi.
    pose proof (Z.div_mod idx 64 ltac:(lia)) as Hdm.
    rewrite existsb_limbs_nonzero by apply Hwf.
    assert (Hfl : (idx / 64 <? Z.of_nat ACC_LIMBS) = true)
      by (apply Z.ltb_lt; apply Z.div_lt_upper_bound; lia).
    rewrite Hfl, andb_true_r.
    set (i := Z.to_nat (idx / 64)). set (off := idx mod 64) in *.
    assert (Hsplit : bigu_val a mod 2 ^ idx
                     = val_low i a
                       + weight i * ((limb a i) mod 2 ^ off)).
    { replace idx with (64 * Z.of_nat i + off) by (subst i; lia).
      rewrite <- weight_pow by lia.
      pose proof (weight_pos i). pose proof (pow2_pos off ltac:(lia)).
      rewrite Z.rem_mul_r by lia. unfold val_low. f_equal. f_equal.
      rewrite (limb_of_val a i (proj2 Hwf)).
      symmetry. apply mod_mod_pow2. lia. }
    rewrite Hsplit.
    pose proof (val_low_range i a) as Hlo. pose proof (weight_pos i) as Hw.
    pose proof (Z.mod_pos_bound (limb a i) (2 ^ off)
                  (pow2_pos off ltac:(lia))) as Hm.
    destruct (val_low i a =? 0) eqn:H1; simpl negb; cbv iota.
    + apply Z.eqb_eq in H1. rewrite H1, Z.add_0_l.
      destruct (0 <? off) eqn:Hoff0.
      * rewrite Z.shiftl_1_l.
        assert (2 ^ off < 2 ^ 64) by (apply Z.pow_lt_mono_r; lia).
        rewrite u64_small by (unfold is_u64; lia).
        replace (2 ^ off - 1) with (Z.ones off) by (rewrite Z.ones_equiv; lia).
        rewrite Z.land_ones by lia. f_equal.
        destruct (limb a i mod 2 ^ off =? 0) eqn:H2.
        -- apply Z.eqb_eq in H2. rewrite H2. symmetry. apply Z.eqb_eq. lia.
        -- apply Z.eqb_neq in H2. symmetry. apply Z.eqb_neq. nia.
      * apply Z.ltb_ge in Hoff0. assert (off = 0) as -> by lia.
        rewrite Z.pow_0_r, Z.mod_1_r. symmetry. apply negb_false_iff.
        apply Z.eqb_eq. lia.
    + apply Z.eqb_neq in H1. symmetry. apply negb_true_iff.
      apply Z.eqb_neq. nia.
Qed.

(** ** Packing *)

Lemma sign_bit_cases (sgn : Z) : sign_bit sgn = 0 \/ sign_bit sgn = 2 ^ 63.
Proof. unfold sign_bit. destruct (sgn <? 0); auto. Qed.

Lemma pack_fields (s e f : Z) :
  s = 0 \/ s = 2 ^ 63 -> 0 <= e < 2 ^ 11 -> 0 <= f < 2 ^ 52 ->
  Z.lor (Z.lor s (Z.shiftl e 52)) f = s + e * 2 ^ 52 + f.
Proof.
  intros Hs He Hf. rewrite Z.shiftl_mul_pow2 by lia.
  assert (H63 : 2 ^ 63 = 2 ^ 11 * 2 ^ 52) by reflexivity.
  rewrite (lor_disjoint s (e * 2 ^ 52) 63); try lia.
  - rewrite (lor_disjoint _ f 52); try lia.
    destruct Hs as [-> | ->].
    + rewrite Z.add_0_l. apply Z.mod_mul. lia.
    + rewrite H63, <- Z.mul_add_distr_r. apply Z.mod_mul. lia.
  - destruct Hs as [-> | ->]; [reflexivity | apply Z.mod_same; lia].
Qed.

Lemma pack_double_inf (sgn : Z) :
  pack_double sgn INT_MAX 0 = sign_bit sgn + POS_INF.
Proof.
  unfold pack_double, sign_bit. destruct (sgn <? 0); reflexivity.
Qed.

Lemma pack_double_subnormal (sgn frac : Z) :
  0 <= frac < 2 ^ 52 -> pack_double sgn INT_MIN frac = sign_bit sgn + frac.
Proof.
  intros Hf. unfold pack_double.
  change (INT_MIN =? INT_MIN) with true. cbv iota.
  change (Z.shiftl 1 52 - 1) with (Z.ones 52). rewrite Z.land_ones by lia.
  rewrite Z.mod_small by lia. rewrite Z.shiftl_1_l.
  fold (sign_bit sgn).
  rewrite pack_fields by (try apply sign_bit_cases; lia). lia.
Qed.

Lemma pack_double_normal (sgn e frac : Z) :
  1 <= e + 1023 <= 2046 -> 0 <= frac < 2 ^ 52 ->
  pack_double sgn e frac = sign_bit sgn + (e + 1023) * 2 ^ 52 + frac.
Proof.
  intros He Hf. unfold pack_double.
  assert (H1 : (e =? INT_MIN) = false) by (apply Z.eqb_neq; unfold INT_MIN; lia).
  assert (H2 : (e =? INT_MAX) = false) by (apply Z.eqb_neq; unfold INT_MAX; lia).
  assert (H3 : (e + 1023 <=? 0) = false) by (apply Z.leb_gt; lia).
  rewrite H1, H2. cbv zeta. rewrite H3.
  change 0x7FF with (Z.ones 11).
  change (Z.shiftl 1 52 - 1) with (Z.ones 52). rewrite !Z.land_ones by lia.
  rewrite !Z.mod_small by lia. rewrite Z.shiftl_1_l.
  fold (sign_bit sgn).
  apply pack_fields; try apply sign_bit_cases; lia.
Qed.

(** ** Rounding *)

(** [round_half_even] through the guard bit, the sticky bits and the parity
    of the truncated quotient, which is how the code decides. *)
Lemma round_half_even_guard_sticky (m k : Z) :
  1 <= k ->
  round_half_even m k
  = m / 2 ^ k
    + (if negb ((m / 2 ^ (k - 1)) mod 2 =? 0)
          && (negb (m mod 2 ^ (k - 1) =? 0)
              || negb ((m / 2 ^ k) mod 2 =? 0))
       then 1 else 0).
Proof.
  intros Hk. unfold round_half_even.
  assert (Hpow : 2 ^ k = 2 ^ (k - 1) * 2).
  { replace k with ((k - 1) + 1) at 1 by lia.
    rewrite Z.pow_add_r by lia. reflexivity. }
  pose proof (pow2_pos (k - 1) ltac:(lia)) as Hh.
  set (h := 2 ^ (k - 1)) in *.
  assert (Hr : m mod 2 ^ k = m mod h + h * ((m / h) mod 2)).
  { rewrite Hpow. apply Z.rem_mul_r; lia. }
  rewrite Hr, Hpow.
  pose proof (Z.mod_pos_bound m h Hh) as Hs.
  pose proof (Z.mod_pos_bound (m / h) 2 ltac:(lia)) as Hg.
  set (s := m mod h) in *. set (g := (m / h) mod 2) in *.
  set (q := m / (h * 2)). rewrite Zeven_mod.
  destruct (Z.eqb_spec g 0) as [Hg0 | Hg1]; simpl negb; cbv iota.
  - assert (H : (2 * (s + h * g) <? h * 2) = true) by (apply Z.ltb_lt; nia).
    rewrite H. simpl andb. cbv iota. lia.
  - assert (Hg1' : g = 1) by lia.
    assert (H : (2 * (s + h * g) <? h * 2) = false) by (apply Z.ltb_ge; nia).
    rewrite H. simpl andb.
    destruct (Z.eqb_spec s 0) as [Hs0 | Hs1]; simpl negb; simpl orb.
    + assert (H' : (h * 2 <? 2 * (s + h * g)) = false)
        by (apply Z.ltb_ge; nia).
      rewrite H'. destruct (q mod 2 =? 0); simpl negb; cbv iota; lia.
    + assert (H' : (h * 2 <? 2 * (s + h * g)) = true)
        by (apply Z.ltb_lt; nia).
      rewrite H'. reflexivity.
Qed.

(** The code's [round_up] decision, on the value of the magnitude. *)
Lemma guard_bit_spec (mag : bigu_t) (g : Z) :
  bigu_wf mag -> 0 <= g < Z.of_nat ACC_LIMBS * 64 ->
  guard_bit mag g = negb ((bigu_val mag / 2 ^ g) mod 2 =? 0).
Proof.
  intros Hwf Hg. unfold guard_bit.
  assert (H : (0 <=? g) = true) by (apply Z.leb_le; lia). rewrite H.
  rewrite bigu_extract_bits64_spec by (assumption || lia).
  rewrite land_1. change (2 ^ 1) with 2. now rewrite Z.mod_mod by lia.
Qed.

Lemma round_up_spec (mag : bigu_t) (k sig : Z) :
  bigu_wf mag -> 1 <= k <= Z.of_nat ACC_LIMBS * 64 ->
  sig = bigu_val mag / 2 ^ k ->
  sig + (if round_up mag (k - 1) sig then 1 else 0)
  = round_half_even (bigu_val mag) k.
Proof.
  intros Hwf Hk Hsig. unfold round_up.
  rewrite guard_bit_spec, bigu_has_any_below_spec by (assumption || lia).
  rewrite land_1, round_half_even_guard_sticky by lia. now rewrite Hsig.
Qed.

Lemma round_half_even_bounds (m k : Z) :
  m / 2 ^ k <= round_half_even m k <= m / 2 ^ k + 1.
Proof.
  unfold round_half_even.
  destruct (2 * (m mod 2 ^ k) <? 2 ^ k); [lia |].
  destruct (2 ^ k <? 2 * (m mod 2 ^ k)); [lia |].
  destruct (Z.even (m / 2 ^ k)); lia.
Qed.

Lemma div_pow2_bounds (m L c : Z) :
  0 <= c <= L -> 2 ^ L <= m < 2 ^ (L + 1) ->
  2 ^ (L - c) <= m / 2 ^ c < 2 ^ (L - c + 1).
Proof.
  intros Hc Hm. pose proof (pow2_pos c ltac:(lia)) as Hp. split.
  - apply Z.div_le_lower_bound; [assumption |].
    rewrite <- Z.pow_add_r by lia. now replace (c + (L - c)) with L by lia.
  - apply Z.div_lt_upper_bound; [assumption |].
    rewrite <- Z.pow_add_r by lia.
    now replace (c + (L - c + 1)) with (L + 1) by lia.
Qed.

(** The three ranges of [rne_magnitude], by the position [L] of the leading
    bit of [m]. *)
Lemma rne_magnitude_overflow (m : Z) :
  0 < m -> 3171 < Z.log2 m -> rne_magnitude m = POS_INF.
Proof.
  intros Hm HL. unfold rne_magnitude, ACC_EMIN.
  destruct (Z.log2_spec m Hm) as [Hlo Hhi].
  set (L := Z.log2 m) in *.
  rewrite Z.max_l by lia.
  replace (L + -2148 - 52 - -2148) with (L - 52) by lia.
  replace (L + -2148 - 52 + 1074) with (L - 1126) by lia.
  pose proof (round_half_even_bounds m (L - 52)) as Hb.
  pose proof (div_pow2_bounds m L (L - 52) ltac:(lia) (conj Hlo Hhi)) as Hd.
  replace (L - (L - 52)) with 52 in Hd by lia.
  set (sig := round_half_even m (L - 52)) in *.
  assert (H : (2 ^ (1024 + 1074) <=? sig * 2 ^ (L - 1126)) = true).
  { apply Z.leb_le.
    apply Z.le_trans with (2 ^ 52 * 2 ^ (L - 1126)).
    - rewrite <- Z.pow_add_r by lia. apply Z.pow_le_mono_r; lia.
    - apply Z.mul_le_mono_nonneg_r; [apply Z.pow_nonneg |]; lia. }
  now rewrite H.
Qed.

Lemma rne_magnitude_subnormal (m : Z) :
  0 < m -> Z.log2 m < 1126 ->
  let sig := round_half_even m 1074 in
  sig <= 2 ^ 52 /\
  rne_magnitude m = if sig =? 2 ^ 52 then 2 ^ 52 else sig.
Proof.
  intros Hm HL sig. unfold rne_magnitude, ACC_EMIN.
  destruct (Z.log2_spec m Hm) as [Hlo Hhi].
  pose proof (Z.log2_nonneg m) as HL0.
  set (L := Z.log2 m) in *.
  rewrite Z.max_r by lia.
  change (-1074 - -2148) with 1074. change (-1074 + 1074) with 0.
  rewrite Z.pow_0_r, Z.mul_1_r. fold sig.
  pose proof (round_half_even_bounds m 1074) as Hb. fold sig in Hb.
  assert (Hq : 0 <= m / 2 ^ 1074 < 2 ^ 52).
  { split; [apply Z.div_pos; lia |].
    apply Z.div_lt_upper_bound; [lia |].
    rewrite <- Z.pow_add_r by lia.
    apply Z.lt_le_trans with (2 ^ (Z.succ L)); [assumption |].
    apply Z.pow_le_mono_r; lia. }
  split; [lia |].
  assert (H : (2 ^ (1024 + 1074) <=? sig) = false).
  { apply Z.leb_gt. apply Z.le_lt_trans with (2 ^ 52); [lia |].
    apply Z.pow_lt_mono_r; lia. }
  rewrite H.
  destruct (Z.eqb_spec sig (2 ^ 52)) as [-> | Hne].
  - reflexivity.
  - assert (H' : (sig <? 2 ^ 52) = true) by (apply Z.ltb_lt; lia).
    now rewrite H'.
Qed.

Lemma rne_magnitude_normal (m : Z) :
  0 < m -> 1126 <= Z.log2 m <= 3171 ->
  let L := Z.log2 m in
  let sig := round_half_even m (L - 52) in
  2 ^ 52 <= sig <= 2 ^ 53 /\
  rne_magnitude m =
    if sig =? 2 ^ 53 then
      if L =? 3171 then POS_INF else (L - 1124) * 2 ^ 52
    else (L - 1125) * 2 ^ 52 + (sig - 2 ^ 52).
Proof.
  intros Hm HL L sig. unfold rne_magnitude, ACC_EMIN.
  destruct (Z.log2_spec m Hm) as [Hlo Hhi]. fold L in Hlo, Hhi, HL |- *.
  rewrite Z.max_l by lia.
  replace (L + -2148 - 52 - -2148) with (L - 52) by lia.
  replace (L + -2148 - 52 + 1074) with (L - 1126) by lia.
  replace (L + -2148 - 52 + 52 + 1023) with (L - 1125) by lia.
  replace (L + -2148 - 52 + 53 + 1023) with (L - 1124) by lia.
  fold sig.
  pose proof (round_half_even_bounds m (L - 52)) as Hb. fold sig in Hb.
  pose proof (div_pow2_bounds m L (L - 52) ltac:(lia) (conj Hlo Hhi)) as Hd.
  replace (L - (L - 52)) with 52 in Hd by lia.
  change (2 ^ (52 + 1)) with (2 ^ 53) in Hd.
  split; [lia |].
  pose proof (pow2_pos (L - 1126) ltac:(lia)) as Hp.
  assert (Hlim : 2 ^ 53 * 2 ^ (L - 1126) <= 2 ^ (1024 + 1074)).
  { rewrite <- Z.pow_add_r by lia. apply Z.pow_le_mono_r; lia. }
  destruct (Z.eqb_spec sig (2 ^ 53)) as [Hs | Hs].
  - rewrite Hs. destruct (Z.eqb_spec L 3171) as [HL' | HL'].
    + assert (H : (2 ^ (1024 + 1074) <=? 2 ^ 53 * 2 ^ (L - 1126)) = true).
      { apply Z.leb_le. rewrite <- Z.pow_add_r by lia.
        apply Z.pow_le_mono_r; lia. }
      now rewrite H.
    + assert (H : (2 ^ (1024 + 1074) <=? 2 ^ 53 * 2 ^ (L - 1126)) = false).
      { apply Z.leb_gt. rewrite <- Z.pow_add_r by lia.
        apply Z.pow_lt_mono_r; lia. }
      rewrite H. reflexivity.
  - assert (H : (2 ^ (1024 + 1074) <=? sig * 2 ^ (L - 1126)) = false).
    { apply Z.leb_gt.
      apply Z.lt_le_trans with (2 ^ 53 * 2 ^ (L - 1126)); [| assumption].
      apply Z.mul_lt_mono_pos_r; lia. }
    rewrite H.
    assert (H1 : (sig <? 2 ^ 52) = false) by (apply Z.ltb_ge; lia).
    assert (H2 : (sig <? 2 ^ 53) = true) by (apply Z.ltb_lt; lia).
    now rewrite H1, H2.
Qed.

(** [round_and_pack] rounds the magnitude to nearest-even. *)
Lemma round_and_pack_spec (mag : bigu_t) (sgn : Z) :
  bigu_wf mag -> 0 < bigu_val mag ->
  round_and_pack mag sgn = sign_bit sgn + rne_magnitude (bigu_val mag).
Proof.
  intros Hwf Hm. unfold round_and_pack.
  rewrite (bigu_msb_index_spec mag Hwf).
  pose proof (bigu_val_bound mag (proj2 Hwf)) as Hb.
  rewrite (proj1 Hwf) in Hb. unfold weight in Hb.
  change (64 * Z.of_nat ACC_LIMBS) with 4224 in Hb.
  set (m := bigu_val mag) in *.
  assert (Hz : (m =? 0) = false) by (apply Z.eqb_neq; lia). rewrite Hz.
  destruct (Z.log2_spec m Hm) as [Hlo Hhi].
  pose proof (Z.log2_nonneg m) as HL0.
  assert (HL1 : Z.log2 m < 4224) by (apply Z.log2_lt_pow2; lia).
  set (L := Z.log2 m) in *.
  assert (Hn : (L <? 0) = false) by (apply Z.ltb_ge; lia). rewrite Hn.
  cbv zeta. unfold ACC_EMIN.
  assert (HACC : Z.of_nat ACC_LIMBS * 64 = 4224) by reflexivity.
  destruct (1023 <? -2148 + L) eqn:Hov.
  { (* beyond the largest finite number *)
    apply Z.ltb_lt in Hov.
    rewrite rne_magnitude_overflow by (fold L; lia).
    apply pack_double_inf. }
  apply Z.ltb_ge in Hov.
  destruct (-2148 + L <? -1022) eqn:Hsub.
  { (* subnormal range *)
    apply Z.ltb_lt in Hsub.
    destruct (rne_magnitude_subnormal m Hm ltac:(fold L; lia))
      as [Hsig Hrne].
    rewrite Hrne. clear Hrne.
    change (-1074 - -2148) with 1074.
    assert (Hq : 0 <= m / 2 ^ 1074 < 2 ^ 52).
    { split; [apply Z.div_pos; lia |].
      apply Z.div_lt_upper_bound; [lia |].
      rewrite <- Z.pow_add_r by lia.
      apply Z.lt_le_trans with (2 ^ (Z.succ L)); [assumption |].
      apply Z.pow_le_mono_r; lia. }
    assert (Hmant : bigu_extract_bits64 mag 1074 52 = m / 2 ^ 1074).
    { rewrite bigu_extract_bits64_spec by (assumption || lia).
      fold m. apply Z.mod_small. lia. }
    rewrite Hmant.
    pose proof (round_up_spec mag 1074 (m / 2 ^ 1074) Hwf ltac:(lia)
                  eq_refl) as Hru.
    fold m in Hru. set (sig := round_half_even m 1074) in *.
    destruct (round_up mag (1074 - 1) (m / 2 ^ 1074)).
    - rewrite u64_small by (unfold is_u64; lia).
      rewrite Z.shiftl_1_l. rewrite Hru.
      destruct (Z.eqb_spec sig (2 ^ 52)) as [Heq | Hne].
      + rewrite pack_double_normal by lia. lia.
      + apply pack_double_subnormal. lia.
    - rewrite Z.add_0_r in Hru. rewrite Hru.
      assert (Hne : (sig =? 2 ^ 52) = false) by (apply Z.eqb_neq; lia).
      rewrite Hne. apply pack_double_subnormal. lia. }
  (* normal range *)
  apply Z.ltb_ge in Hsub.
  destruct (rne_magnitude_normal m Hm ltac:(fold L; lia)) as [Hsig Hrne].
  rewrite Hrne. clear Hrne. fold L in Hsig |- *.
  pose proof (div_pow2_bounds m L (L - 52) ltac:(lia) (conj Hlo Hhi)) as Hd.
  replace (L - (L - 52)) with 52 in Hd by lia.
  change (2 ^ (52 + 1)) with (2 ^ 53) in Hd.
  assert (Hsig53 : bigu_extract_bits64 mag (L - 52) 53 = m / 2 ^ (L - 52)).
  { rewrite bigu_extract_bits64_spec by (assumption || lia).
    fold m. apply Z.mod_small. lia. }
  rewrite Hsig53.
  pose proof (round_up_spec mag (L - 52) (m / 2 ^ (L - 52)) Hwf ltac:(lia)
                eq_refl) as Hru.
  fold m in Hru. set (sig := round_half_even m (L - 52)) in *.
  assert (Hfrac : forall s, 2 ^ 52 <= s < 2 ^ 53 ->
            Z.land s (Z.shiftl 1 52 - 1) = s - 2 ^ 52).
  { intros s Hs. change (Z.shiftl 1 52 - 1) with (Z.ones 52).
    rewrite Z.land_ones by lia.
    rewrite <- (Z.mod_add s (-1) (2 ^ 52)) by lia.
    rewrite Z.mod_small by lia. lia. }
  destruct (round_up mag (L - 52 - 1) (m / 2 ^ (L - 52))).
  - rewrite u64_small by (unfold is_u64; lia).
    rewrite Z.shiftl_1_l. rewrite Hru.
    destruct (Z.eqb_spec sig (2 ^ 53)) as [Heq | Hne].
    + destruct (Z.eqb_spec L 3171) as [HL | HL].
      * assert (H : (1023 <? -2148 + L + 1) = true) by (apply Z.ltb_lt; lia).
        rewrite H. apply pack_double_inf.
      * assert (H : (1023 <? -2148 + L + 1) = false) by (apply Z.ltb_ge; lia).
        rewrite H. rewrite pack_double_normal by lia. lia.
    + rewrite Hfrac by lia. rewrite pack_double_normal by lia. lia.
  - rewrite Z.add_0_r in Hru. rewrite Hru.
    assert (Hne : (sig =? 2 ^ 53) = false) by (apply Z.eqb_neq; lia).
    rewrite Hne, Hfrac by lia. rewrite pack_double_normal by lia. lia.
Qed.

Lemma finalize_to_double_eq (Pos Neg : bigu_t) :
  finalize_to_double Pos Neg =
  let cmp := bigu_cmp Pos Neg in
  if cmp =? 0 then POS_ZERO
  else if 0 <? cmp then round_and_pack (bigu_sub Pos Neg bigu_clear) 1
  else round_and_pack (bigu_sub Neg Pos bigu_clear) (-1).
Proof.
  unfold finalize_to_double, round_and_pack. cbv zeta.
  destruct (bigu_cmp Pos Neg =? 0); [reflexivity |].
  destruct (0 <? bigu_cmp Pos Neg); reflexivity.
Qed.

(** The finalizer is a correct rounding of [Pos - Neg] whenever its
    subtraction loses no borrow. *)
Lemma finalize_to_double_rounds (Pos Neg : bigu_t) :
  bigu_wf Pos -> bigu_wf Neg -> finalize_sub_wraps Pos Neg = false ->
  finalize_to_double Pos Neg = rne_binary64 (bigu_val Pos - bigu_val Neg).
Proof.
  intros HP HN Hnw. rewrite finalize_to_double_eq. cbv zeta.
  unfold finalize_sub_wraps in Hnw.
  rewrite (bigu_cmp_spec Pos Neg HP HN) in *.
  unfold rne_binary64.
  set (t := bigu_val Pos - bigu_val Neg) in *.
  destruct (Z.lt_trichotomy t 0) as [Hneg | [Hzero | Hpos]].
  - rewrite (Z.sgn_neg t Hneg) in *.
    change (-1 =? 0) with false. change (0 <? -1) with false in *.
    cbv iota in *.
    assert (H0 : (t =? 0) = false) by (apply Z.eqb_neq; lia).
    assert (H1 : (t <? 0) = true) by (apply Z.ltb_lt; lia).
    rewrite H0, H1.
    pose proof (bigu_sub_spec Neg Pos HN HP ltac:(lia) Hnw) as Hv.
    rewrite round_and_pack_spec by (try apply bigu_wf_sub; lia).
    rewrite Hv. replace (Z.abs t) with (bigu_val Neg - bigu_val Pos) by lia.
    reflexivity.
  - rewrite Hzero. reflexivity.
  - rewrite (Z.sgn_pos t Hpos) in *.
    change (1 =? 0) with false. change (0 <? 1) with true in *.
    cbv iota in *.
    assert (H0 : (t =? 0) = false) by (apply Z.eqb_neq; lia).
    assert (H1 : (t <? 0) = false) by (apply Z.ltb_ge; lia).
    rewrite H0, H1.
    pose proof (bigu_sub_spec Pos Neg HP HN ltac:(lia) Hnw) as Hv.
    rewrite round_and_pack_spec by (try apply bigu_wf_sub; lia).
    rewrite Hv. replace (Z.abs t) with (bigu_val Pos - bigu_val Neg) by lia.
    reflexivity.
Qed.

(** ** The rounding of the specification

    [round_half_even] and [rne_binary64] are what the theorem on the rounded
    sum is measured against; the lemmas below tie them to the words
    "nearest", "ties to even" and "binary64". *)

Lemma round_half_even_exact (a k : Z) :
  0 <= k -> round_half_even (a * 2 ^ k) k = a.
Proof.
  intros Hk. unfold round_half_even. pose proof (pow2_pos k Hk).
  rewrite Z.mod_mul, Z.div_mul by lia.
  assert (H0 : (2 * 0 <? 2 ^ k) = true) by (apply Z.ltb_lt; lia).
  now rewrite H0.
Qed.

(** The rounded value is within half a unit of [m / 2^k]. *)
Lemma round_half_even_nearest (m k : Z) :
  0 <= k -> 2 * Z.abs (round_half_even m k * 2 ^ k - m) <= 2 ^ k.
Proof.
  intros Hk. unfold round_half_even. pose proof (pow2_pos k Hk) as Hp.
  pose proof (Z.div_mod m (2 ^ k) ltac:(lia)) as Hdm.
  pose proof (Z.mod_pos_bound m (2 ^ k) Hp) as Hr.
  set (q := m / 2 ^ k) in *. set (r := m mod 2 ^ k) in *.
  destruct (Z.ltb_spec (2 * r) (2 ^ k)); [lia |].
  destruct (Z.ltb_spec (2 ^ k) (2 * r)); [lia |].
  destruct (Z.even q); lia.
Qed.

(** On a tie the even neighbour is chosen. *)
Lemma round_half_even_tie (m k : Z) :
  0 <= k -> 2 * (m mod 2 ^ k) = 2 ^ k ->
  Z.even (round_half_even m k) = true.
Proof.
  intros Hk Htie. unfold round_half_even. rewrite Htie, Z.ltb_irrefl.
  destruct (Z.even (m / 2 ^ k)) eqn:He; [assumption |].
  rewrite Z.add_1_r, Z.even_succ. rewrite <- Z.negb_even. now rewrite He.
Qed.

(** A 64-bit pattern is its three fields. *)
Lemma u64_fields (u : Z) :
  is_u64 u ->
  u = (if Z.testbit u 63 then 2 ^ 63 else 0)
      + b64_exp u * 2 ^ 52 + b64_frac u.
Proof.
  unfold is_u64, b64_exp, b64_frac. intros Hu.
  rewrite Z.testbit_eqb by lia.
  assert (Hs : 0 <= u / 2 ^ 63 < 2).
  { split; [apply Z.div_pos; lia | apply Z.div_lt_upper_bound; lia]. }
  rewrite (Z.mod_small (u / 2 ^ 63)) by lia.
  pose proof (Z.div_mod u (2 ^ 52) ltac:(lia)) as H1.
  pose proof (Z.div_mod (u / 2 ^ 52) (2 ^ 11) ltac:(lia)) as H2.
  rewrite Z.div_div in H2 by lia.
  change (2 ^ 52 * 2 ^ 11) with (2 ^ 63) in H2.
  destruct (Z.eqb_spec (u / 2 ^ 63) 1) as [E | E]; lia.
Qed.

(** Rounding a representable number gives its own pattern back ([-0.0]
    apart, whose value is the exact zero). *)
Lemma rne_binary64_representable (u : Z) :
  is_u64 u -> b64_finite u = true -> u <> NEG_ZERO ->
  rne_binary64 (b64_scaled u * 2 ^ 1074) = u.
Proof.
  intros Hu Hfin Hnz.
  pose proof (u64_fields u Hu) as Hfields.
  unfold b64_finite in Hfin. apply negb_true_iff, Z.eqb_neq in Hfin.
  assert (He : 0 <= b64_exp u < 2047).
  { pose proof (Z.mod_pos_bound (u / 2 ^ 52) (2 ^ 11) ltac:(lia)).
    unfold b64_exp in *. lia. }
  assert (Hf : 0 <= b64_frac u < 2 ^ 52)
    by (apply Z.mod_pos_bound; lia).
  unfold b64_scaled, b64_sign.
  set (e := b64_exp u) in *. set (f := b64_frac u) in *.
  set (mag := if e =? 0 then f else (2 ^ 52 + f) * 2 ^ (e - 1)).
  assert (Hmag : 0 <= mag).
  { subst mag. destruct (e =? 0) eqn:E; [lia |].
    apply Z.eqb_neq in E. pose proof (pow2_pos (e - 1) ltac:(lia)). nia. }
  (* the pattern of the magnitude *)
  assert (Hm : 0 < mag -> rne_magnitude (mag * 2 ^ 1074) = e * 2 ^ 52 + f).
  { intros Hpos. pose proof (pow2_pos 1074 ltac:(lia)) as H1074.
    assert (Hm0 : 0 < mag * 2 ^ 1074) by nia.
    subst mag. destruct (Z.eqb_spec e 0) as [E | E].
    - (* subnormal *)
      assert (HL : Z.log2 (f * 2 ^ 1074) < 1126).
      { rewrite Z.log2_mul_pow2 by lia.
        assert (Z.log2 f < 52) by (apply Z.log2_lt_pow2; lia). lia. }
      destruct (rne_magnitude_subnormal _ Hm0 HL) as [_ ->].
      rewrite round_half_even_exact by lia.
      assert (Hne : (f =? 2 ^ 52) = false) by (apply Z.eqb_neq; lia).
      rewrite Hne, E. lia.
    - (* normal *)
      assert (Hlog : Z.log2 (2 ^ 52 + f) = 52).
      { apply Z.log2_unique; [lia |].
        change (2 ^ Z.succ 52) with (2 ^ 52 + 2 ^ 52). lia. }
      assert (Hshape : (2 ^ 52 + f) * 2 ^ (e - 1) * 2 ^ 1074
                       = (2 ^ 52 + f) * 2 ^ (e + 1073)).
      { rewrite <- Z.mul_assoc, <- Z.pow_add_r by lia.
        do 2 f_equal. lia. }
      rewrite Hshape in *.
      assert (HL : Z.log2 ((2 ^ 52 + f) * 2 ^ (e + 1073)) = e + 1125).
      { rewrite Z.log2_mul_pow2 by lia. lia. }
      destruct (rne_magnitude_normal _ Hm0 ltac:(rewrite HL; lia)) as [_ ->].
      rewrite HL. replace (e + 1125 - 52) with (e + 1073) by lia.
      rewrite round_half_even_exact by lia.
      assert (Hne : (2 ^ 52 + f =? 2 ^ 53) = false).
      { apply Z.eqb_neq. change (2 ^ 53) with (2 ^ 52 + 2 ^ 52). lia. }
      rewrite Hne. lia. }
  unfold rne_binary64.
  destruct (Z.eq_dec mag 0) as [Hz | Hnz'].
  - (* a zero *)
    rewrite Hz, Z.mul_0_r, Z.mul_0_l. change (0 =? 0) with true. cbv iota.
    assert (e = 0 /\ f = 0) as [E F].
    { subst mag. destruct (Z.eqb_spec e 0) as [E | E]; [lia |].
      pose proof (pow2_pos (e - 1) ltac:(lia)). nia. }
    rewrite E, F in Hfields. unfold NEG_ZERO, POS_ZERO in *.
    destruct (Z.testbit u 63); [exfalso; apply Hnz; rewrite Hfields |];
      try reflexivity; lia.
  - pose proof (pow2_pos 1074 ltac:(lia)) as H1074.
    specialize (Hm ltac:(lia)).
    destruct (Z.testbit u 63).
    + assert (H0 : (-1 * mag * 2 ^ 1074 =? 0) = false)
        by (apply Z.eqb_neq; nia).
      assert (H1 : (-1 * mag * 2 ^ 1074 <? 0) = true)
        by (apply Z.ltb_lt; nia).
      rewrite H0, H1.
      replace (Z.abs (-1 * mag * 2 ^ 1074)) with (mag * 2 ^ 1074) by nia.
      rewrite Hm. lia.
    + assert (H0 : (1 * mag * 2 ^ 1074 =? 0) = false)
        by (apply Z.eqb_neq; nia).
      assert (H1 : (1 * mag * 2 ^ 1074 <? 0) = false)
        by (apply Z.ltb_ge; nia).
      rewrite H0, H1.
      replace (Z.abs (1 * mag * 2 ^ 1074)) with (mag * 2 ^ 1074) by nia.
      rewrite Hm. lia.
Qed.

(** ** Decoding *)

Lemma sign_of_u64_cases (u : Z) : sign_of_u64 u = 1 \/ sign_of_u64 u = -1.
Proof. unfold sign_of_u64. destruct (Z.shiftr u 63 =? 0); auto. Qed.

Lemma decode_double_SE_range (u sx S E : Z) :
  decode_double_SE u = Some (sx, S, E) ->
  (sx = 1 \/ sx = -1) /\ 0 <= S < 2 ^ 53 /\ (S <> 0 -> -1074 <= E <= 971).
Proof.
  unfold decode_double_SE.
  pose proof (exp_field_range u) as He.
  pose proof (frac_field_range u) as Hf.
  pose proof (sign_of_u64_cases u) as Hs.
  destruct (Z.eqb_spec (exp_field u) 0x7FF) as [| Hne]; [discriminate |].
  destruct (Z.eqb_spec (exp_field u) 0) as [| Hnz].
  - destruct (Z.eqb_spec (frac_field u) 0); intros H; inversion H; subst;
      repeat split; auto; lia.
  - intros H. inversion H; subst. clear H.
    rewrite Z.shiftl_1_l.
    rewrite (lor_disjoint (2 ^ 52) (frac_field u) 52)
      by (try lia; apply Z.mod_same; lia).
    change (2 ^ 53) with (2 ^ 52 + 2 ^ 52).
    repeat split; auto; lia.
Qed.

Lemma decode_double_SE_None (u : Z) :
  decode_double_SE u = None <-> exp_field u = 0x7FF.
Proof.
  unfold decode_double_SE.
  destruct (Z.eqb_spec (exp_field u) 0x7FF) as [He | Hne].
  - split; auto.
  - destruct (exp_field u =? 0); [destruct (frac_field u =? 0) |];
      split; intros H; try discriminate; contradiction.
Qed.

Lemma not_nan_not_inf (u : Z) :
  is_nan_u64 u = false -> is_inf_u64 u = false -> exp_field u <> 0x7FF.
Proof.
  unfold is_nan_u64, is_inf_u64. intros Hn Hi He.
  apply Z.eqb_eq in He. rewrite He in *. simpl in *.
  destruct (frac_field u =? 0); discriminate.
Qed.

(** ** One step of the loop *)

Lemma ddot_step_classify (st : ddot_state) (xu yu : Z) :
  ddot_step st xu yu = apply_class st (classify_pair xu yu).
Proof.
  unfold ddot_step, classify_pair. cbv zeta.
  destruct (is_nan_u64 xu || is_nan_u64 yu); [reflexivity |].
  destruct ((is_inf_u64 xu && is_zero_u64 yu)
            || (is_inf_u64 yu && is_zero_u64 xu)); [reflexivity |].
  destruct (is_inf_u64 xu || is_inf_u64 yu).
  { destruct (0 <? sign_of_u64 xu * sign_of_u64 yu); reflexivity. }
  destruct (decode_double_SE xu) as [[[sx Sx] Ex] |]; [| reflexivity].
  destruct (decode_double_SE yu) as [[[sy Sy] Ey] |]; [| reflexivity].
  destruct ((Sx =? 0) || (Sy =? 0)); [reflexivity |].
  destruct (Ex + Ey <? ACC_EMIN); [reflexivity |].
  destruct (0 <? sx * sy); reflexivity.
Qed.

Lemma classify_product_range (xu yu : Z) (b : bool) (v s : Z) :
  classify_pair xu yu = PairProduct b v s ->
  0 <= v < 2 ^ 128 /\ 0 <= s <= 4090.
Proof.
  unfold classify_pair.
  destruct (is_nan_u64 xu || is_nan_u64 yu); [discriminate |].
  destruct ((is_inf_u64 xu && is_zero_u64 yu)
            || (is_inf_u64 yu && is_zero_u64 xu)); [discriminate |].
  destruct (is_inf_u64 xu || is_inf_u64 yu); [discriminate |].
  destruct (decode_double_SE xu) as [[[sx Sx] Ex] |] eqn:Dx; [| discriminate].
  destruct (decode_double_SE yu) as [[[sy Sy] Ey] |] eqn:Dy; [| discriminate].
  destruct (decode_double_SE_range _ _ _ _ Dx) as (_ & HSx & HEx).
  destruct (decode_double_SE_range _ _ _ _ Dy) as (_ & HSy & HEy).
  destruct ((Sx =? 0) || (Sy =? 0)) eqn:Hz; [discriminate |].
  apply orb_false_iff in Hz. destruct Hz as [Hx Hy].
  apply Z.eqb_neq in Hx, Hy.
  destruct (Ex + Ey <? ACC_EMIN) eqn:Hd; [discriminate |].
  apply Z.ltb_ge in Hd. unfold ACC_EMIN in *.
  intros H. inversion H; subst. split.
  - unfold u128. apply Z.mod_pos_bound. lia.
  - specialize (HEx Hx). specialize (HEy Hy). lia.
Qed.

Lemma pos_term_nonneg (xu yu : Z) : 0 <= pos_term xu yu.
Proof.
  unfold pos_term.
  destruct (classify_pair xu yu) as [| | | | [|] v s] eqn:Hc; try lia.
  destruct (classify_product_range _ _ _ _ _ Hc) as [Hv Hs].
  pose proof (pow2_pos s ltac:(lia)). nia.
Qed.

Lemma neg_term_nonneg (xu yu : Z) : 0 <= neg_term xu yu.
Proof.
  unfold neg_term.
  destruct (classify_pair xu yu) as [| | | | [|] v s] eqn:Hc; try lia.
  destruct (classify_product_range _ _ _ _ _ Hc) as [Hv Hs].
  pose proof (pow2_pos s ltac:(lia)). nia.
Qed.

Lemma absorb_nothing (st : ddot_state) (nan inv pinf ninf : bool) :
  state_wf st ->
  absorb st 0 0 nan inv pinf ninf
  = mk_state (pos st) (neg st) (overflow st) (saw_nan st || nan)
      (saw_invalid_zero_inf st || inv) (saw_pos_inf st || pinf)
      (saw_neg_inf st || ninf).
Proof.
  intros [Hp Hn]. unfold absorb. rewrite !Z.add_0_r.
  rewrite !bigu_of_Z_val by assumption.
  pose proof (bigu_val_bound _ (proj2 Hp)) as Bp.
  pose proof (bigu_val_bound _ (proj2 Hn)) as Bn.
  rewrite (proj1 Hp) in Bp. rewrite (proj1 Hn) in Bn.
  assert (H1 : (weight ACC_LIMBS <=? bigu_val (pos st)) = false)
    by (apply Z.leb_gt; lia).
  assert (H2 : (weight ACC_LIMBS <=? bigu_val (neg st)) = false)
    by (apply Z.leb_gt; lia).
  now rewrite H1, H2, !orb_false_r.
Qed.

Lemma ddot_step_absorb (st : ddot_state) (xu yu : Z) :
  state_wf st ->
  ddot_step st xu yu
  = absorb st (pos_term xu yu) (neg_term xu yu) (nan_pair xu yu)
      (invalid_pair xu yu) (pos_inf_pair xu yu) (neg_inf_pair xu yu).
Proof.
  intros Hwf. rewrite ddot_step_classify.
  unfold pos_term, neg_term, nan_pair, invalid_pair, pos_inf_pair,
    neg_inf_pair.
  destruct (classify_pair xu yu) as [| | [|] | | [|] v s] eqn:Hc;
    try (rewrite absorb_nothing by assumption; destruct st; simpl;
         now rewrite ?orb_false_r, ?orb_true_r).
  - destruct (classify_product_range _ _ _ _ _ Hc) as [Hv Hs].
    destruct Hwf as [Hp Hn]. unfold apply_class, add_to_pos, absorb.
    rewrite bigu_add_shifted_u128_mod by assumption.
    rewrite Z.add_0_r, (bigu_of_Z_val (neg st)) by assumption.
    pose proof (bigu_val_bound _ (proj2 Hn)) as Bn. rewrite (proj1 Hn) in Bn.
    assert (H2 : (weight ACC_LIMBS <=? bigu_val (neg st)) = false)
      by (apply Z.leb_gt; lia).
    now rewrite H2, !orb_false_r.
  - destruct (classify_product_range _ _ _ _ _ Hc) as [Hv Hs].
    destruct Hwf as [Hp Hn]. unfold apply_class, add_to_neg, absorb.
    rewrite bigu_add_shifted_u128_mod by assumption.
    rewrite Z.add_0_r, (bigu_of_Z_val (pos st)) by assumption.
    pose proof (bigu_val_bound _ (proj2 Hp)) as Bp. rewrite (proj1 Hp) in Bp.
    assert (H1 : (weight ACC_LIMBS <=? bigu_val (pos st)) = false)
      by (apply Z.leb_gt; lia).
    now rewrite H1, !orb_false_r.
Qed.

(** ** The loop in closed form *)

Lemma bigu_of_Z_add_mod (u v : Z) :
  bigu_of_Z (u mod weight ACC_LIMBS + v) = bigu_of_Z (u + v).
Proof.
  apply bigu_val_inj; try apply limbs_ok_limbs_of.
  - unfold bigu_of_Z. now rewrite !length_limbs_of.
  - rewrite !bigu_val_of_Z. pose proof (weight_pos ACC_LIMBS).
    apply Z.add_mod_idemp_l. lia.
Qed.

Lemma overflow_accum (a p p' : Z) :
  0 <= a < weight ACC_LIMBS -> 0 <= p -> 0 <= p' ->
  (weight ACC_LIMBS <=? a + p)
  || (weight ACC_LIMBS <=? (a + p) mod weight ACC_LIMBS + p')
  = (weight ACC_LIMBS <=? a + (p + p')).
Proof.
  intros Ha Hp Hp'. set (W := weight ACC_LIMBS) in *.
  destruct (Z.leb_spec W (a + p)) as [H1 | H1]; simpl.
  - symmetry. apply Z.leb_le. lia.
  - rewrite Z.mod_small by lia. f_equal. lia.
Qed.

Lemma state_wf_absorb (st : ddot_state) (P N : Z) (nan inv pinf ninf : bool) :
  state_wf (absorb st P N nan inv pinf ninf).
Proof. split; apply bigu_wf_of_Z. Qed.

Lemma state_wf_init : state_wf ddot_init.
Proof. split; apply bigu_wf_clear. Qed.

Lemma absorb_absorb (st : ddot_state) (P N P' N' : Z)
  (nan inv pinf ninf nan' inv' pinf' ninf' : bool) :
  state_wf st -> 0 <= P -> 0 <= N -> 0 <= P' -> 0 <= N' ->
  absorb (absorb st P N nan inv pinf ninf) P' N' nan' inv' pinf' ninf'
  = absorb st (P + P') (N + N') (nan || nan') (inv || inv')
      (pinf || pinf') (ninf || ninf').
Proof.
  intros [Hp Hn] HP HN HP' HN'. unfold absorb.
  cbn [pos neg overflow saw_nan saw_invalid_zero_inf saw_pos_inf saw_neg_inf].
  rewrite !bigu_val_of_Z, !bigu_of_Z_add_mod, !Z.add_assoc.
  pose proof (bigu_val_bound _ (proj2 Hp)) as Bp.
  pose proof (bigu_val_bound _ (proj2 Hn)) as Bn.
  rewrite (proj1 Hp) in Bp. rewrite (proj1 Hn) in Bn.
  pose proof (overflow_accum (bigu_val (pos st)) P P' Bp HP HP') as Op.
  pose proof (overflow_accum (bigu_val (neg st)) N N' Bn HN HN') as On.
  rewrite Z.add_assoc in Op, On. rewrite <- Op, <- On.
  f_equal; try apply eq_sym, orb_assoc.
  destruct (overflow st),
    (weight ACC_LIMBS <=? bigu_val (pos st) + P),
    (weight ACC_LIMBS <=? bigu_val (neg st) + N),
    (weight ACC_LIMBS <=? (bigu_val (pos st) + P) mod weight ACC_LIMBS + P'),
    (weight ACC_LIMBS <=? (bigu_val (neg st) + N) mod weight ACC_LIMBS + N');
    reflexivity.
Qed.

Lemma sum_pairs_nonneg (f : Z -> Z -> Z) (l : list (Z * Z)) :
  (forall a b, 0 <= f a b) -> 0 <= sum_pairs f l.
Proof.
  intros Hf. induction l as [| p l IH]; simpl; [lia |].
  specialize (Hf (fst p) (snd p)). lia.
Qed.

Lemma run_pairs_absorb (l : list (Z * Z)) :
  forall st, state_wf st ->
  fold_left step_pair l st
  = absorb st (sum_pairs pos_term l) (sum_pairs neg_term l)
      (any_pair nan_pair l) (any_pair invalid_pair l)
      (any_pair pos_inf_pair l) (any_pair neg_inf_pair l).
Proof.
  induction l as [| p l IH]; intros st Hwf.
  - simpl. rewrite absorb_nothing by assumption.
    destruct st; simpl. now rewrite !orb_false_r.
  - simpl fold_left. unfold step_pair at 2.
    rewrite ddot_step_absorb by assumption.
    rewrite IH by apply state_wf_absorb.
    rewrite absorb_absorb; try assumption;
      try apply pos_term_nonneg; try apply neg_term_nonneg;
      try (apply sum_pairs_nonneg; intros;
           (apply pos_term_nonneg || apply neg_term_nonneg)).
    reflexivity.
Qed.

Lemma ddot_loop_pairs (x y : list Z) (n : nat) :
  ddot_loop x y n = fold_left step_pair (pairs x y n) ddot_init.
Proof.
  unfold ddot_loop, pairs. generalize ddot_init. generalize (seq 0 n).
  induction l as [| i l IH]; intros st; simpl; [reflexivity |].
  apply IH.
Qed.

Lemma ddot_loop_absorb (x y : list Z) (n : nat) :
  let l := pairs x y n in
  ddot_loop x y n
  = absorb ddot_init (sum_pairs pos_term l) (sum_pairs neg_term l)
      (any_pair nan_pair l) (any_pair invalid_pair l)
      (any_pair pos_inf_pair l) (any_pair neg_inf_pair l).
Proof.
  intros l. rewrite ddot_loop_pairs. apply run_pairs_absorb.
  apply state_wf_init.
Qed.

Lemma state_wf_loop (x y : list Z) (n : nat) : state_wf (ddot_loop x y n).
Proof. rewrite ddot_loop_absorb. apply state_wf_absorb. Qed.

(** The sums and the flags do not depend on the order of the pairs. *)
Lemma sum_pairs_perm (f : Z -> Z -> Z) (l l' : list (Z * Z)) :
  Permutation l l' -> sum_pairs f l = sum_pairs f l'.
Proof.
  induction 1 as [| p l l' _ IH | p q l | l l' l'' _ IH1 _ IH2]; simpl;
    try lia.
Qed.

Lemma any_pair_perm (f : Z -> Z -> bool) (l l' : list (Z * Z)) :
  Permutation l l' -> any_pair f l = any_pair f l'.
Proof.
  unfold any_pair.
  induction 1 as [| p l l' _ IH | p q l | l l' l'' _ IH1 _ IH2]; simpl.
  - reflexivity.
  - now rewrite IH.
  - now rewrite !orb_assoc, (orb_comm (f (fst q) (snd q))).
  - now rewrite IH1.
Qed.

(** * The properties of the specification *)

(** ** C7: range of the product exponent *)

(** C7.  For two operands that [decode_double_SE] accepts as finite and whose
    significands are non-zero, [Eprod = Ex + Ey] lies in
    [[ACC_EPROD_MIN, ACC_EPROD_MAX] = [-2148, 1942]], and the test
    [Eprod < ACC_EMIN] that guards the dropping branch of [ddot_repro] is
    false. *)
Theorem eprod_in_range (ux uy sx Sx Ex sy Sy Ey : Z) :
  decode_double_SE ux = Some (sx, Sx, Ex) ->
  decode_double_SE uy = Some (sy, Sy, Ey) ->
  Sx <> 0 -> Sy <> 0 ->
  ACC_EPROD_MIN <= Ex + Ey <= ACC_EPROD_MAX /\
  (Ex + Ey <? ACC_EMIN) = false.
Proof.
  intros Dx Dy Hx Hy.
  destruct (decode_double_SE_range _ _ _ _ Dx) as (_ & _ & HEx).
  destruct (decode_double_SE_range _ _ _ _ Dy) as (_ & _ & HEy).
  specialize (HEx Hx). specialize (HEy Hy).
  unfold ACC_EPROD_MIN, ACC_EPROD_MAX, ACC_EMIN.
  split; [lia | apply Z.ltb_ge; lia].
Qed.

(** The two smallest subnormals reach the lower end of the interval. *)
Lemma eprod_in_range_witness :
  ACC_EPROD_MIN <= -1074 + -1074 <= ACC_EPROD_MAX /\
  (-1074 + -1074 <? ACC_EMIN) = false.
Proof.
  apply (eprod_in_range 1 1 1 1 (-1074) 1 1 (-1074)).
  - reflexivity.
  - reflexivity.
  - lia.
  - lia.
Defined.

(** ** C8: exact shifted addition *)

(** C8.  For a well-formed accumulator [A], a 128-bit [val] and a shift in
    [[0, 4090]], [bigu_add_shifted_u128] adds exactly within the range of
    the accumulator ([ACC_LIMBS] limbs of 64 bits): when the exact sum of
    the old value and [val * 2^shift] fits, the overflow flag stays unset
    and the accumulator afterwards denotes that sum, no bit of the addend
    lost.  If the call leaves the flag unset, the accumulator denotes the
    exact sum; if the exact sum does not fit, the flag is set, and the
    accumulator then holds the sum modulo [2^4224].  The flag is only ever
    latched: the run with an incoming flag [o] yields the same accumulator
    and the flag [o || _]. *)
Theorem bigu_add_shifted_u128_exact (A : bigu_t) (val shift : Z) :
  bigu_wf A -> 0 <= val < 2 ^ 128 -> 0 <= shift <= 4090 ->
  let r := bigu_add_shifted_u128 A val shift false in
  bigu_wf (fst r) /\
  (bigu_val A + val * 2 ^ shift < weight ACC_LIMBS ->
   snd r = false /\ bigu_val (fst r) = bigu_val A + val * 2 ^ shift) /\
  (snd r = false -> bigu_val (fst r) = bigu_val A + val * 2 ^ shift) /\
  (weight ACC_LIMBS <= bigu_val A + val * 2 ^ shift -> snd r = true) /\
  bigu_val (fst r) = (bigu_val A + val * 2 ^ shift) mod weight ACC_LIMBS /\
  (forall o, bigu_add_shifted_u128 A val shift o = (fst r, o || snd r)).
Proof.
  intros Hwf Hval Hshift r.
  destruct (bigu_add_shifted_u128_spec A val shift false Hwf Hval Hshift)
    as (A' & c & E & Hwf' & Hc & V).
  subst r. rewrite E. cbn [fst snd orb].
  pose proof (bigu_val_bound A' (proj2 Hwf')) as Hb.
  rewrite (proj1 Hwf') in Hb.
  pose proof (weight_pos ACC_LIMBS) as HW.
  split; [exact Hwf' |]. split; [| split; [| split; [| split]]].
  - intros Hfit.
    assert (c = 0) by nia. subst c. split; [reflexivity | lia].
  - intros Hno. apply Z.eqb_neq in Hno. assert (c = 0) by lia. subst c. lia.
  - intros Hbig. apply Z.eqb_eq.
    destruct (Z.eq_dec c 1) as [| Hne]; [assumption |].
    assert (c = 0) by lia. subst c. lia.
  - rewrite <- V. rewrite Z.mod_add by lia. symmetry. now apply Z.mod_small.
  - intros o.
    destruct (bigu_add_shifted_u128_spec A val shift o Hwf Hval Hshift)
      as (A2 & c2 & E2 & Hwf2 & Hc2 & V2).
    rewrite E2.
    pose proof (bigu_val_bound A2 (proj2 Hwf2)) as Hb2.
    rewrite (proj1 Hwf2) in Hb2.
    assert (c2 = c) by nia. subst c2.
    f_equal. apply bigu_val_inj; try apply Hwf2; try apply Hwf'.
    + now rewrite (proj1 Hwf2), (proj1 Hwf').
    + lia.
Qed.

(** On an empty accumulator, [3 * 2^70] fits: the flag stays unset and the
    accumulator denotes [3 * 2^70]. *)
Lemma bigu_add_shifted_u128_exact_witness :
  let r := bigu_add_shifted_u128 bigu_clear 3 70 false in
  bigu_wf (fst r) /\
  snd r = false /\
  bigu_val (fst r) = bigu_val bigu_clear + 3 * 2 ^ 70 /\
  bigu_val (fst r) = 3 * 2 ^ 70 /\
  (forall o, bigu_add_shifted_u128 bigu_clear 3 70 o = (fst r, o || snd r)).
Proof.
  destruct (bigu_add_shifted_u128_exact bigu_clear 3 70 bigu_wf_clear
              ltac:(lia) ltac:(lia))
    as (Hwf & Hfit & _ & _ & _ & Hlatch).
  assert (Hlt : bigu_val bigu_clear + 3 * 2 ^ 70 < weight ACC_LIMBS).
  { rewrite bigu_val_clear. unfold weight.
    apply Z.lt_le_trans with (2 ^ 72); [lia |].
    apply Z.pow_le_mono_r; unfold ACC_LIMBS; lia. }
  destruct (Hfit Hlt) as [Hflag Hsum].
  split; [exact Hwf |]. split; [exact Hflag |]. split; [exact Hsum |].
  split; [rewrite Hsum, bigu_val_clear; ring | exact Hlatch].
Defined.

(** The nominal width [ACC_BITS] is not what latches the flag: this sum
    needs 4218 bits and is added without overflow. *)
Lemma acc_bits_not_enforced :
  let r := bigu_add_shifted_u128 bigu_clear (2 ^ 127) 4090 false in
  snd r = false /\ bigu_val (fst r) = 2 ^ 4217 /\ 2 ^ ACC_BITS <= 2 ^ 4217.
Proof. vm_compute. repeat split; discriminate. Qed.

(** ** C2: order independence *)

Lemma nth_map_in (f : nat -> Z) (l : list nat) (j : nat) :
  (j < length l)%nat -> nth j (map f l) 0 = f (nth j l 0%nat).
Proof.
  intros H. rewrite (nth_indep _ 0 (f 0%nat)) by now rewrite length_map.
  apply map_nth.
Qed.

Lemma map_nth_seq (l : list nat) :
  map (fun j => nth j l 0%nat) (seq 0 (length l)) = l.
Proof.
  induction l as [| a l IH]; [reflexivity |].
  simpl length. rewrite <- cons_seq, <- seq_shift. simpl map.
  rewrite map_map. simpl. now rewrite IH.
Qed.

Lemma pairs_permute (x y : list Z) (pi : list nat) :
  pairs (permute x pi) (permute y pi) (length pi)
  = map (fun i => (nth i x 0, nth i y 0)) pi.
Proof.
  unfold pairs, permute.
  transitivity (map (fun i => (nth i x 0, nth i y 0))
                  (map (fun j => nth j pi 0%nat) (seq 0 (length pi)))).
  - rewrite map_map. apply map_ext_in. intros j Hj. apply in_seq in Hj.
    rewrite !nth_map_in by lia. reflexivity.
  - now rewrite map_nth_seq.
Qed.

(** C2.  For every [n], every [x] and [y] and every permutation [pi] of
    [[0, n)], [ddot_repro] returns the same bit pattern on
    [(x o pi, y o pi, n)] as on [(x, y, n)], whatever flags are latched on
    the way, the accumulator overflow flag included. *)
Theorem ddot_repro_order_independent (x y : list Z) (n : nat)
  (pi : list nat) :
  Permutation pi (seq 0 n) ->
  ddot_repro (permute x pi) (permute y pi) n = ddot_repro x y n.
Proof.
  intros Hperm. unfold ddot_repro. f_equal.
  assert (Hlen : length pi = n).
  { rewrite (Permutation_length Hperm). apply length_seq. }
  rewrite !ddot_loop_absorb. cbv zeta.
  assert (Hp : Permutation (pairs (permute x pi) (permute y pi) n)
                           (pairs x y n)).
  { rewrite <- Hlen at 1. rewrite pairs_permute. unfold pairs.
    now apply Permutation_map. }
  rewrite (sum_pairs_perm pos_term _ _ Hp), (sum_pairs_perm neg_term _ _ Hp).
  rewrite (any_pair_perm nan_pair _ _ Hp), (any_pair_perm invalid_pair _ _ Hp).
  rewrite (any_pair_perm pos_inf_pair _ _ Hp).
  now rewrite (any_pair_perm neg_inf_pair _ _ Hp).
Qed.

Lemma ddot_repro_order_independent_witness :
  ddot_repro
    (permute [0x3FF0000000000000; 0x4000000000000000; 0x4008000000000000]
       [2; 0; 1]%nat)
    (permute [0x4010000000000000; 0x4014000000000000; 0x4018000000000000]
       [2; 0; 1]%nat) 3
  = ddot_repro [0x3FF0000000000000; 0x4000000000000000; 0x4008000000000000]
      [0x4010000000000000; 0x4014000000000000; 0x4018000000000000] 3.
Proof.
  apply ddot_repro_order_independent.
  apply (Permutation_cons_append [0; 1]%nat 2%nat).
Defined.

(** ** The state after the loop *)

Lemma any_pair_pairs (f : Z -> Z -> bool) (x y : list Z) (n : nat) :
  any_pair f (pairs x y n) = exists_index n f x y.
Proof.
  unfold any_pair, pairs, exists_index. generalize (seq 0 n).
  induction l as [| i l IH]; simpl; [reflexivity | now rewrite IH].
Qed.

Lemma ddot_loop_state (x y : list Z) (n : nat) :
  let P := sum_pairs pos_term (pairs x y n) in
  let N := sum_pairs neg_term (pairs x y n) in
  ddot_loop x y n
  = mk_state (bigu_of_Z P) (bigu_of_Z N)
      ((weight ACC_LIMBS <=? P) || (weight ACC_LIMBS <=? N))
      (exists_index n nan_pair x y) (exists_index n invalid_pair x y)
      (exists_index n pos_inf_pair x y) (exists_index n neg_inf_pair x y).
Proof.
  intros P N. rewrite ddot_loop_absorb. cbv zeta. unfold absorb, ddot_init.
  cbn [pos neg overflow saw_nan saw_invalid_zero_inf saw_pos_inf saw_neg_inf].
  rewrite bigu_val_clear, !Z.add_0_l, !any_pair_pairs. reflexivity.
Qed.

Lemma exists_index_true (n : nat) (f : Z -> Z -> bool) (x y : list Z)
  (i : nat) :
  (i < n)%nat -> f (nth i x 0) (nth i y 0) = true ->
  exists_index n f x y = true.
Proof.
  intros Hi Hf. unfold exists_index. apply existsb_exists.
  exists i. split; [apply in_seq; lia | assumption].
Qed.

Lemma exists_index_false (n : nat) (f : Z -> Z -> bool) (x y : list Z) :
  (forall i, (i < n)%nat -> f (nth i x 0) (nth i y 0) = false) ->
  exists_index n f x y = false.
Proof.
  intros H. unfold exists_index.
  destruct (existsb _ _) eqn:E; [| reflexivity].
  apply existsb_exists in E. destruct E as (i & Hin & Hf).
  apply in_seq in Hin. rewrite H in Hf by lia. discriminate.
Qed.

Lemma exists_index_ext (n : nat) (f g : Z -> Z -> bool) (x y : list Z) :
  (forall i, (i < n)%nat ->
     f (nth i x 0) (nth i y 0) = g (nth i x 0) (nth i y 0)) ->
  exists_index n f x y = exists_index n g x y.
Proof.
  intros H. unfold exists_index.
  assert (Hin : forall i, In i (seq 0 n) -> (i < n)%nat)
    by (intros i Hi; apply in_seq in Hi; lia).
  induction (seq 0 n) as [| i l IH]; simpl; [reflexivity |].
  rewrite H by (apply Hin; now left).
  rewrite IH; [reflexivity |]. intros j Hj. apply Hin. now right.
Qed.

(** ** Which pairs latch which flag *)

Lemma classify_decodes (xu yu : Z) :
  is_nan_u64 xu || is_nan_u64 yu = false ->
  is_inf_u64 xu || is_inf_u64 yu = false ->
  exists sx Sx Ex sy Sy Ey,
    decode_double_SE xu = Some (sx, Sx, Ex) /\
    decode_double_SE yu = Some (sy, Sy, Ey).
Proof.
  intros Hn Hi. apply orb_false_iff in Hn, Hi.
  destruct Hn as [Hnx Hny], Hi as [Hix Hiy].
  pose proof (not_nan_not_inf xu Hnx Hix) as Hx.
  pose proof (not_nan_not_inf yu Hny Hiy) as Hy.
  destruct (decode_double_SE xu) as [[[sx Sx] Ex] |] eqn:Dx.
  2:{ apply decode_double_SE_None in Dx. contradiction. }
  destruct (decode_double_SE yu) as [[[sy Sy] Ey] |] eqn:Dy.
  2:{ apply decode_double_SE_None in Dy. contradiction. }
  now exists sx, Sx, Ex, sy, Sy, Ey.
Qed.

Lemma nan_pair_eq (xu yu : Z) :
  nan_pair xu yu = is_nan_u64 xu || is_nan_u64 yu.
Proof.
  unfold nan_pair, classify_pair.
  destruct (is_nan_u64 xu || is_nan_u64 yu) eqn:Hn; [reflexivity |].
  destruct ((is_inf_u64 xu && is_zero_u64 yu)
            || (is_inf_u64 yu && is_zero_u64 xu)); [reflexivity |].
  destruct (is_inf_u64 xu || is_inf_u64 yu) eqn:Hi; [reflexivity |].
  destruct (classify_decodes xu yu Hn Hi)
    as (sx & Sx & Ex & sy & Sy & Ey & Dx & Dy).
  rewrite Dx, Dy.
  destruct ((Sx =? 0) || (Sy =? 0)); [reflexivity |].
  destruct (Ex + Ey <? ACC_EMIN); reflexivity.
Qed.

Lemma invalid_pair_eq (xu yu : Z) :
  invalid_pair xu yu
  = negb (is_nan_u64 xu || is_nan_u64 yu)
    && ((is_inf_u64 xu && is_zero_u64 yu) || (is_inf_u64 yu && is_zero_u64 xu)).
Proof.
  unfold invalid_pair, classify_pair.
  destruct (is_nan_u64 xu || is_nan_u64 yu) eqn:Hn; [reflexivity |].
  destruct ((is_inf_u64 xu && is_zero_u64 yu)
            || (is_inf_u64 yu && is_zero_u64 xu)); [reflexivity |].
  destruct (is_inf_u64 xu || is_inf_u64 yu) eqn:Hi; [reflexivity |].
  destruct (classify_decodes xu yu Hn Hi)
    as (sx & Sx & Ex & sy & Sy & Ey & Dx & Dy).
  rewrite Dx, Dy.
  destruct ((Sx =? 0) || (Sy =? 0)); [reflexivity |].
  destruct (Ex + Ey <? ACC_EMIN); reflexivity.
Qed.

Lemma inf_pair_eq (b : bool) (xu yu : Z) :
  nan_or_zero_times_inf xu yu = false ->
  (if b then pos_inf_pair xu yu else neg_inf_pair xu yu)
  = inf_product b xu yu.
Proof.
  unfold nan_or_zero_times_inf. rewrite <- orb_assoc. intros H.
  apply orb_false_iff in H. destruct H as [Hn Hz].
  unfold pos_inf_pair, neg_inf_pair, inf_product, classify_pair.
  rewrite Hn, Hz.
  destruct (is_inf_u64 xu || is_inf_u64 yu) eqn:Hi.
  - destruct (0 <? sign_of_u64 xu * sign_of_u64 yu), b; reflexivity.
  - destruct (classify_decodes xu yu Hn Hi)
      as (sx & Sx & Ex & sy & Sy & Ey & Dx & Dy).
    rewrite Dx, Dy.
    destruct ((Sx =? 0) || (Sy =? 0)); [now destruct b |].
    destruct (Ex + Ey <? ACC_EMIN); now destruct b.
Qed.

Lemma nan_or_invalid_pair (xu yu : Z) :
  nan_pair xu yu || invalid_pair xu yu = nan_or_zero_times_inf xu yu.
Proof.
  rewrite nan_pair_eq, invalid_pair_eq. unfold nan_or_zero_times_inf.
  destruct (is_nan_u64 xu), (is_nan_u64 yu), (is_inf_u64 xu), (is_inf_u64 yu),
    (is_zero_u64 xu), (is_zero_u64 yu); reflexivity.
Qed.

(** ** C3: NaN precedence *)

(** C3.  If some pair [(x[i], y[i])], [i < n], has a NaN operand or is a
    [0 * inf] pair, [ddot_repro] returns [0x7FF8000000000001], whatever the
    other pairs are. *)
Theorem ddot_repro_nan_precedence (x y : list Z) (n i : nat) :
  (i < n)%nat ->
  nan_or_zero_times_inf (nth i x 0) (nth i y 0) = true ->
  ddot_repro x y n = 0x7FF8000000000001.
Proof.
  intros Hi Hbad. unfold ddot_repro. rewrite ddot_loop_state. cbv zeta.
  unfold ddot_finish.
  cbn [pos neg overflow saw_nan saw_invalid_zero_inf saw_pos_inf saw_neg_inf].
  rewrite <- nan_or_invalid_pair in Hbad.
  apply orb_true_iff in Hbad. destruct Hbad as [Hnan | Hinv].
  - now rewrite (exists_index_true n nan_pair x y i Hi Hnan).
  - rewrite (exists_index_true n invalid_pair x y i Hi Hinv).
    now rewrite orb_true_r.
Qed.

Lemma ddot_repro_nan_precedence_witness :
  ddot_repro [0x3FF0000000000000; 0; 0x4008000000000000]
             [0x4000000000000000; 0x7FF0000000000000; 0x7FF0000000000000] 3
  = 0x7FF8000000000001.
Proof.
  apply (ddot_repro_nan_precedence _ _ 3%nat 1%nat).
  - lia.
  - reflexivity.
Defined.

(** ** C4: combination of infinities *)

(** C4.  On an input without NaN operand and without [0 * inf] pair: if
    there are infinite products of both signs the result is the canonical
    NaN; if there are positive ones only it is [+inf]; if there are negative
    ones only it is [-inf].  The accumulators play no role. *)
Theorem ddot_repro_infinities (x y : list Z) (n : nat) :
  (forall i, (i < n)%nat ->
     nan_or_zero_times_inf (nth i x 0) (nth i y 0) = false) ->
  let some_pos := exists_index n (inf_product true) x y in
  let some_neg := exists_index n (inf_product false) x y in
  (some_pos = true -> some_neg = true -> ddot_repro x y n = CANONICAL_NAN) /\
  (some_pos = true -> some_neg = false -> ddot_repro x y n = POS_INF) /\
  (some_pos = false -> some_neg = true -> ddot_repro x y n = NEG_INF).
Proof.
  intros Hok some_pos some_neg.
  unfold ddot_repro. rewrite ddot_loop_state. cbv zeta. unfold ddot_finish.
  cbn [pos neg overflow saw_nan saw_invalid_zero_inf saw_pos_inf saw_neg_inf].
  assert (Hnan : exists_index n nan_pair x y = false).
  { apply exists_index_false. intros i Hi. specialize (Hok i Hi).
    rewrite <- nan_or_invalid_pair in Hok. now apply orb_false_iff in Hok. }
  assert (Hinv : exists_index n invalid_pair x y = false).
  { apply exists_index_false. intros i Hi. specialize (Hok i Hi).
    rewrite <- nan_or_invalid_pair in Hok. now apply orb_false_iff in Hok. }
  assert (Hp : exists_index n pos_inf_pair x y = some_pos).
  { apply exists_index_ext. intros i Hi.
    apply (inf_pair_eq true). now apply Hok. }
  assert (Hn : exists_index n neg_inf_pair x y = some_neg).
  { apply exists_index_ext. intros i Hi.
    apply (inf_pair_eq false). now apply Hok. }
  rewrite Hnan, Hinv, Hp, Hn. cbn [orb].
  repeat split; intros -> ->; reflexivity.
Qed.

Lemma ddot_repro_infinities_witness :
  let x := [0x7FF0000000000000; 0x4000000000000000; 0xFFF0000000000000] in
  let y := [0x4000000000000000; 0x4008000000000000; 0xC000000000000000] in
  let some_pos := exists_index 3 (inf_product true) x y in
  let some_neg := exists_index 3 (inf_product false) x y in
  (some_pos = true -> some_neg = true -> ddot_repro x y 3 = CANONICAL_NAN) /\
  (some_pos = true -> some_neg = false -> ddot_repro x y 3 = POS_INF) /\
  (some_pos = false -> some_neg = true -> ddot_repro x y 3 = NEG_INF).
Proof.
  apply ddot_repro_infinities.
  intros [| [| [| i]]] Hi; try reflexivity. lia.
Defined.

(** ** C5: zero results *)

(** C5.  [ddot_repro x y 0] is [+0.0]; and whenever no exceptional flag is
    latched and the two accumulators are equal after the loop (exact
    cancellation), the result is [+0.0], never [-0.0]. *)
Theorem ddot_repro_zero (x y : list Z) (n : nat) :
  n = 0%nat \/
  (let st := ddot_loop x y n in
   saw_nan st = false /\ saw_invalid_zero_inf st = false /\
   saw_pos_inf st = false /\ saw_neg_inf st = false /\
   overflow st = false /\ pos st = neg st) ->
  ddot_repro x y n = POS_ZERO.
Proof.
  intros [-> | H].
  - reflexivity.
  - cbv zeta in H. destruct H as (H1 & H2 & H3 & H4 & H5 & H6).
    unfold ddot_repro, ddot_finish. rewrite H1, H2, H3, H4, H5. cbn.
    rewrite finalize_to_double_eq. cbv zeta.
    now rewrite H6, bigu_cmp_refl.
Qed.

Lemma ddot_repro_zero_witness :
  ddot_repro [0x3FF8000000000000; 0x4008000000000000]
             [0x4000000000000000; 0xBFF0000000000000] 2 = POS_ZERO.
Proof.
  apply ddot_repro_zero. right. vm_compute. repeat split; reflexivity.
Defined.

(** ** C10: where NaN results come from *)

Lemma exp_frac_of_fields (s e f : Z) :
  s = 0 \/ s = 2 ^ 63 -> 0 <= e < 2 ^ 11 -> 0 <= f < 2 ^ 52 ->
  exp_field (s + e * 2 ^ 52 + f) = e /\ frac_field (s + e * 2 ^ 52 + f) = f.
Proof.
  intros Hs He Hf. rewrite exp_field_eq, frac_field_eq.
  assert (H63 : 2 ^ 63 = 2 ^ 11 * 2 ^ 52) by reflexivity.
  destruct Hs as [-> | ->].
  - rewrite Z.add_0_l. split.
    + rewrite Z.add_comm, Z.div_add by lia.
      rewrite (Z.div_small f) by lia. now rewrite Z.add_0_l, Z.mod_small.
    + rewrite Z.add_comm, Z.mod_add by lia. now apply Z.mod_small.
  - rewrite H63. split.
    + replace (2 ^ 11 * 2 ^ 52 + e * 2 ^ 52 + f)
        with (f + (2 ^ 11 + e) * 2 ^ 52) by ring.
      rewrite Z.div_add by lia. rewrite (Z.div_small f) by lia.
      rewrite Z.add_0_l.
      replace (2 ^ 11 + e) with (e + 1 * 2 ^ 11) by ring.
      rewrite Z.mod_add by lia. now apply Z.mod_small.
    + replace (2 ^ 11 * 2 ^ 52 + e * 2 ^ 52 + f)
        with (f + (2 ^ 11 + e) * 2 ^ 52) by ring.
      rewrite Z.mod_add by lia. now apply Z.mod_small.
Qed.

Lemma fields_not_nan (s e f : Z) :
  s = 0 \/ s = 2 ^ 63 -> 0 <= e < 2 ^ 11 -> 0 <= f < 2 ^ 52 ->
  e <> 2047 \/ f = 0 ->
  is_nan_u64 (s + e * 2 ^ 52 + f) = false.
Proof.
  intros Hs He Hf Hor. unfold is_nan_u64.
  destruct (exp_frac_of_fields s e f Hs He Hf) as [-> ->].
  destruct Hor as [Hne | ->].
  - apply Z.eqb_neq in Hne. now rewrite Hne.
  - apply andb_false_r.
Qed.

(** No call of [pack_double] that the program makes yields a NaN. *)
Lemma pack_double_not_nan (sgn e f : Z) :
  (e = INT_MAX \/ e = INT_MIN \/ 1 <= e + 1023 <= 2046) ->
  is_nan_u64 (pack_double sgn e f) = false.
Proof.
  intros He. unfold pack_double.
  change (Z.shiftl 1 52 - 1) with (Z.ones 52). rewrite Z.land_ones by lia.
  rewrite Z.shiftl_1_l. fold (sign_bit sgn).
  pose proof (sign_bit_cases sgn) as Hs.
  pose proof (Z.mod_pos_bound f (2 ^ 52) ltac:(lia)) as Hf.
  destruct (Z.eqb_spec e INT_MIN) as [H1 | H1].
  { rewrite pack_fields by lia. apply fields_not_nan; try lia. }
  destruct (Z.eqb_spec e INT_MAX) as [H2 | H2].
  { rewrite pack_fields by lia. apply fields_not_nan; lia. }
  destruct He as [He | [He | He]]; try contradiction.
  assert (H3 : (e + 1023 <=? 0) = false) by (apply Z.leb_gt; lia).
  cbv zeta. rewrite H3. change 0x7FF with (Z.ones 11).
  rewrite Z.land_ones, Z.mod_small by lia.
  rewrite pack_fields by lia. apply fields_not_nan; lia.
Qed.

Lemma round_and_pack_not_nan (mag : bigu_t) (sgn : Z) :
  is_nan_u64 (round_and_pack mag sgn) = false.
Proof.
  unfold round_and_pack. cbv zeta. unfold ACC_EMIN.
  destruct (bigu_msb_index mag <? 0); [reflexivity |].
  destruct (1023 <? -2148 + bigu_msb_index mag) eqn:H1.
  { apply pack_double_not_nan. now left. }
  apply Z.ltb_ge in H1.
  destruct (-2148 + bigu_msb_index mag <? -1022) eqn:H2.
  { destruct (round_up mag _ _).
    - destruct (_ =? Z.shiftl 1 52); apply pack_double_not_nan;
        [right; right; lia | right; now left].
    - apply pack_double_not_nan. right. now left. }
  apply Z.ltb_ge in H2.
  destruct (round_up mag _ _).
  - destruct (_ =? Z.shiftl 1 53).
    + destruct (1023 <? -2148 + bigu_msb_index mag + 1) eqn:H3.
      * apply pack_double_not_nan. now left.
      * apply Z.ltb_ge in H3. apply pack_double_not_nan. right; right; lia.
    + apply pack_double_not_nan. right; right; lia.
  - apply pack_double_not_nan. right; right; lia.
Qed.

Lemma finalize_to_double_not_nan (Pos Neg : bigu_t) :
  is_nan_u64 (finalize_to_double Pos Neg) = false.
Proof.
  rewrite finalize_to_double_eq. cbv zeta.
  destruct (bigu_cmp Pos Neg =? 0); [reflexivity |].
  destruct (0 <? bigu_cmp Pos Neg); apply round_and_pack_not_nan.
Qed.

Lemma ddot_finish_is_nan (st : ddot_state) :
  is_nan_u64 (ddot_finish st)
  = saw_nan st || saw_invalid_zero_inf st
    || (saw_pos_inf st && saw_neg_inf st) /\
  (is_nan_u64 (ddot_finish st) = true -> ddot_finish st = CANONICAL_NAN).
Proof.
  unfold ddot_finish. cbv zeta.
  destruct (saw_nan st); [split; reflexivity |].
  destruct (saw_invalid_zero_inf st); [split; reflexivity |].
  destruct (saw_pos_inf st), (saw_neg_inf st); cbn [orb andb negb];
    try (split; [reflexivity | discriminate || reflexivity]).
  destruct (overflow st).
  - destruct (bigu_cmp _ _ =? 0); [split; [reflexivity | discriminate] |].
    destruct (0 <? bigu_cmp _ _); split; (reflexivity || discriminate).
  - rewrite finalize_to_double_not_nan. split; [reflexivity | discriminate].
Qed.

(** C10.  [finalize_to_double] never returns a NaN pattern, for any two
    accumulators; [ddot_repro] returns a NaN exactly when [saw_nan],
    [saw_invalid_zero_inf], or both [saw_pos_inf] and [saw_neg_inf] are
    latched after the loop, and that NaN is [0x7FF8000000000001]. *)
Theorem ddot_repro_nan_iff (x y : list Z) (n : nat) :
  (forall Pos Neg, is_nan_u64 (finalize_to_double Pos Neg) = false) /\
  (let st := ddot_loop x y n in
   is_nan_u64 (ddot_repro x y n)
   = saw_nan st || saw_invalid_zero_inf st
     || (saw_pos_inf st && saw_neg_inf st)) /\
  (is_nan_u64 (ddot_repro x y n) = true ->
   ddot_repro x y n = 0x7FF8000000000001).
Proof.
  split; [exact finalize_to_double_not_nan |].
  exact (ddot_finish_is_nan (ddot_loop x y n)).
Qed.

(** ** C9: the latched overflow flag *)

Lemma no_inf_flags (xu yu : Z) :
  is_nan_u64 xu = false -> is_nan_u64 yu = false ->
  is_inf_u64 xu = false -> is_inf_u64 yu = false ->
  nan_pair xu yu = false /\ invalid_pair xu yu = false /\
  pos_inf_pair xu yu = false /\ neg_inf_pair xu yu = false.
Proof.
  intros Hnx Hny Hix Hiy.
  assert (Hok : nan_or_zero_times_inf xu yu = false).
  { unfold nan_or_zero_times_inf. now rewrite Hnx, Hny, Hix, Hiy. }
  pose proof (inf_pair_eq true xu yu Hok) as Hp.
  pose proof (inf_pair_eq false xu yu Hok) as Hn.
  cbv iota in Hp, Hn. unfold inf_product in Hp, Hn.
  rewrite Hix, Hiy in Hp, Hn. cbn [orb andb] in Hp, Hn.
  rewrite <- nan_or_invalid_pair in Hok. apply orb_false_iff in Hok.
  tauto.
Qed.

Lemma no_nan_no_inf_state (x y : list Z) (n : nat) :
  no_nan_no_inf x y n ->
  let st := ddot_loop x y n in
  saw_nan st = false /\ saw_invalid_zero_inf st = false /\
  saw_pos_inf st = false /\ saw_neg_inf st = false.
Proof.
  intros H. cbv zeta. rewrite ddot_loop_state. cbv zeta.
  cbn [saw_nan saw_invalid_zero_inf saw_pos_inf saw_neg_inf].
  repeat split; apply exists_index_false; intros i Hi;
    destruct (H i Hi) as (H1 & H2 & H3 & H4);
    apply (no_inf_flags _ _ H1 H2 H3 H4).
Qed.

(** Precedence rule 5 on the state after the loop. *)
Lemma overflow_path (x y : list Z) (n : nat) :
  no_nan_no_inf x y n ->
  overflow (ddot_loop x y n) = true ->
  ddot_repro x y n
  = overflow_result (pos (ddot_loop x y n)) (neg (ddot_loop x y n)).
Proof.
  intros Hin Hov. unfold overflow_result.
  destruct (no_nan_no_inf_state x y n Hin) as (H1 & H2 & H3 & H4).
  destruct (state_wf_loop x y n) as [Hp Hn].
  unfold ddot_repro, ddot_finish. rewrite H1, H2, H3, H4, Hov.
  cbn [orb andb negb]. cbv zeta.
  rewrite (bigu_cmp_spec _ _ Hp Hn).
  destruct (Z.compare_spec (bigu_val (pos (ddot_loop x y n)))
                           (bigu_val (neg (ddot_loop x y n)))) as [E | L | G].
  - rewrite E, Z.sub_diag. reflexivity.
  - rewrite Z.sgn_neg by lia. reflexivity.
  - rewrite Z.sgn_pos by lia. reflexivity.
Qed.

(** C9.  On an input without NaN and without infinity (hence without
    [0 * inf] pair and without infinite contribution), if the overflow flag
    is latched after the loop, [ddot_repro] returns [+0.0] when [Pos] equals
    [Neg], [+inf] when [Pos] exceeds [Neg] and [-inf] when [Neg] exceeds
    [Pos]: the result is [overflow_result], decided by the comparison alone,
    and the rounding of the finalizer takes no part in it. *)
Theorem ddot_repro_overflow (x y : list Z) (n : nat) :
  no_nan_no_inf x y n ->
  overflow (ddot_loop x y n) = true ->
  ddot_repro x y n
  = overflow_result (pos (ddot_loop x y n)) (neg (ddot_loop x y n)).
Proof.
  intros Hin Hov. unfold overflow_result.
  rewrite (overflow_path x y n Hin Hov). reflexivity.
Qed.

(** *** A run that exhausts the accumulator *)

Lemma map_const_seq {A : Type} (c : A) (n s : nat) :
  map (fun _ => c) (seq s n) = repeat c n.
Proof.
  revert s. induction n as [| n IH]; intros s; simpl; [reflexivity |].
  now rewrite IH.
Qed.

Lemma pairs_repeat (a b : Z) (n : nat) :
  pairs (repeat a n) (repeat b n) n = repeat (a, b) n.
Proof.
  unfold pairs. rewrite <- (map_const_seq (a, b) n 0).
  apply map_ext_in. intros i Hi. apply in_seq in Hi.
  now rewrite !nth_repeat_lt by lia.
Qed.

Lemma sum_pairs_repeat (f : Z -> Z -> Z) (p : Z * Z) (n : nat) :
  sum_pairs f (repeat p n) = Z.of_nat n * f (fst p) (snd p).
Proof.
  induction n as [| n IH]; [reflexivity |].
  rewrite Nat2Z.inj_succ. simpl repeat. simpl sum_pairs.
  fold (sum_pairs f (repeat p n)). rewrite IH. ring.
Qed.

Lemma LONG_N_eq : Z.of_nat LONG_N = 2 ^ 30.
Proof. unfold LONG_N. apply Z2Nat.id. lia. Qed.

Lemma long_input_ok : no_nan_no_inf long_input long_input LONG_N.
Proof.
  intros i Hi. unfold long_input.
  rewrite nth_repeat_lt by assumption. repeat split; reflexivity.
Qed.

Lemma long_input_terms :
  pos_term TWO_POW_1023 TWO_POW_1023 = 2 ^ 4194 /\
  neg_term TWO_POW_1023 TWO_POW_1023 = 0.
Proof. split; vm_compute; reflexivity. Qed.

Lemma long_input_sums :
  sum_pairs pos_term (pairs long_input long_input LONG_N)
  = weight ACC_LIMBS /\
  sum_pairs neg_term (pairs long_input long_input LONG_N) = 0.
Proof.
  unfold long_input. rewrite pairs_repeat, !sum_pairs_repeat.
  cbn [fst snd]. destruct long_input_terms as [-> ->].
  rewrite LONG_N_eq. split; [| ring].
  unfold weight. rewrite <- Z.pow_add_r by lia. reflexivity.
Qed.

Lemma long_input_overflow :
  overflow (ddot_loop long_input long_input LONG_N) = true.
Proof.
  rewrite ddot_loop_state. cbv zeta. cbn [overflow].
  destruct long_input_sums as [-> _]. now rewrite Z.leb_refl.
Qed.

Lemma ddot_repro_overflow_witness :
  ddot_repro long_input long_input LONG_N
  = overflow_result (pos (ddot_loop long_input long_input LONG_N))
      (neg (ddot_loop long_input long_input LONG_N)).
Proof.
  exact (ddot_repro_overflow long_input long_input LONG_N
           long_input_ok long_input_overflow).
Defined.

(** ** C1: the result is the rounded exact sum *)

Lemma sign_of_u64_b64_sign (u : Z) : is_u64 u -> sign_of_u64 u = b64_sign u.
Proof.
  unfold is_u64, sign_of_u64, b64_sign. intros Hu.
  rewrite Z.shiftr_div_pow2, Z.testbit_eqb by lia.
  assert (H : 0 <= u / 2 ^ 63 < 2).
  { split; [apply Z.div_pos; lia | apply Z.div_lt_upper_bound; lia]. }
  rewrite Z.mod_small by lia.
  destruct (Z.eqb_spec (u / 2 ^ 63) 0) as [-> | Hne]; [reflexivity |].
  assert (u / 2 ^ 63 = 1) as -> by lia. reflexivity.
Qed.

(** The decoded triple denotes the value of the pattern. *)
Lemma decode_double_SE_scaled (u sx S E : Z) :
  is_u64 u -> decode_double_SE u = Some (sx, S, E) ->
  b64_scaled u = sx * S * 2 ^ (E + 1074).
Proof.
  intros Hu. unfold decode_double_SE, b64_scaled.
  rewrite (sign_of_u64_b64_sign u Hu).
  fold (b64_exp u). unfold b64_exp, b64_frac.
  rewrite <- exp_field_eq, <- frac_field_eq.
  pose proof (exp_field_range u) as He.
  pose proof (frac_field_range u) as Hf.
  destruct (Z.eqb_spec (exp_field u) 0x7FF) as [| Hne]; [discriminate |].
  destruct (Z.eqb_spec (exp_field u) 0) as [Hz | Hnz].
  - destruct (Z.eqb_spec (frac_field u) 0) as [Hf0 | Hf0];
      intros H; inversion H; subst; clear H.
    + rewrite Hf0. ring.
    + change (-1074 + 1074) with 0. rewrite Z.pow_0_r. ring.
  - intros H. inversion H; subst; clear H.
    rewrite Z.shiftl_1_l.
    rewrite (lor_disjoint (2 ^ 52) (frac_field u) 52)
      by (try lia; apply Z.mod_same; lia).
    replace (exp_field u - 1023 - 52 + 1074) with (exp_field u - 1) by lia.
    ring.
Qed.

Lemma b64_finite_exp (u : Z) :
  b64_finite u = true -> exp_field u <> 0x7FF.
Proof.
  unfold b64_finite, b64_exp. rewrite <- exp_field_eq.
  intros H. apply negb_true_iff in H. now apply Z.eqb_neq in H.
Qed.

Lemma finite_not_nan_inf (u : Z) :
  b64_finite u = true -> is_nan_u64 u = false /\ is_inf_u64 u = false.
Proof.
  intros H. apply b64_finite_exp in H. apply Z.eqb_neq in H.
  unfold is_nan_u64, is_inf_u64. now rewrite H.
Qed.

(** What a finite pair adds to [Pos] minus what it adds to [Neg] is its
    exact product. *)
Lemma finite_pair_terms (xu yu : Z) :
  is_u64 xu -> is_u64 yu -> b64_finite xu = true -> b64_finite yu = true ->
  pos_term xu yu - neg_term xu yu = b64_scaled xu * b64_scaled yu.
Proof.
  intros Hxu Hyu Hfx Hfy.
  destruct (finite_not_nan_inf xu Hfx) as [Hnx Hix].
  destruct (finite_not_nan_inf yu Hfy) as [Hny Hiy].
  assert (Hn : is_nan_u64 xu || is_nan_u64 yu = false) by now rewrite Hnx, Hny.
  assert (Hi : is_inf_u64 xu || is_inf_u64 yu = false) by now rewrite Hix, Hiy.
  destruct (classify_decodes xu yu Hn Hi)
    as (sx & Sx & Ex & sy & Sy & Ey & Dx & Dy).
  rewrite (decode_double_SE_scaled _ _ _ _ Hxu Dx).
  rewrite (decode_double_SE_scaled _ _ _ _ Hyu Dy).
  destruct (decode_double_SE_range _ _ _ _ Dx) as (Hsx & HSx & HEx).
  destruct (decode_double_SE_range _ _ _ _ Dy) as (Hsy & HSy & HEy).
  unfold pos_term, neg_term, classify_pair.
  rewrite Hn, Hix, Hiy, Dx, Dy. cbn [andb orb].
  destruct (Z.eqb_spec Sx 0) as [-> | HSx0]; [cbn [orb]; ring |].
  destruct (Z.eqb_spec Sy 0) as [-> | HSy0]; [cbn [orb]; ring |].
  cbn [orb]. specialize (HEx HSx0). specialize (HEy HSy0).
  assert (Hd : (Ex + Ey <? ACC_EMIN) = false)
    by (apply Z.ltb_ge; unfold ACC_EMIN; lia).
  rewrite Hd. unfold ACC_EMIN.
  assert (Hprod : u128 (Sx * Sy) = Sx * Sy).
  { apply u128_small. change (2 ^ 128) with (2 ^ 53 * 2 ^ 75). nia. }
  rewrite Hprod.
  replace (Ex + Ey - -2148) with ((Ex + 1074) + (Ey + 1074)) by lia.
  rewrite Z.pow_add_r by lia.
  destruct Hsx as [-> | ->], Hsy as [-> | ->].
  - change (0 <? 1 * 1) with true. cbv iota. ring.
  - change (0 <? 1 * -1) with false. cbv iota. ring.
  - change (0 <? -1 * 1) with false. cbv iota. ring.
  - change (0 <? -1 * -1) with true. cbv iota. ring.
Qed.

Lemma finite_sums (x y : list Z) (n : nat) :
  finite_inputs x y n ->
  sum_pairs pos_term (pairs x y n) - sum_pairs neg_term (pairs x y n)
  = exact_dot_scaled x y n.
Proof.
  unfold finite_inputs, pairs, exact_dot_scaled. intros H.
  assert (Hin : forall i, In i (seq 0 n) -> (i < n)%nat)
    by (intros i Hi; apply in_seq in Hi; lia).
  induction (seq 0 n) as [| i l IH]; [reflexivity |].
  simpl map. simpl sum_pairs. simpl fold_right.
  fold (sum_pairs pos_term (map (fun i => (nth i x 0, nth i y 0)) l)).
  fold (sum_pairs neg_term (map (fun i => (nth i x 0, nth i y 0)) l)).
  destruct (H i (Hin i ltac:(now left))) as (H1 & H2 & H3 & H4).
  rewrite <- (finite_pair_terms _ _ H1 H2 H3 H4).
  rewrite <- IH by (intros j Hj; apply Hin; now right). ring.
Qed.

Lemma finite_no_nan_no_inf (x y : list Z) (n : nat) :
  finite_inputs x y n -> no_nan_no_inf x y n.
Proof.
  intros H i Hi. destruct (H i Hi) as (_ & _ & Hx & Hy).
  destruct (finite_not_nan_inf _ Hx), (finite_not_nan_inf _ Hy). auto.
Qed.

(** Without a latched overflow the accumulators hold the two sums. *)
Lemma no_overflow_values (x y : list Z) (n : nat) :
  overflow (ddot_loop x y n) = false ->
  bigu_val (pos (ddot_loop x y n)) = sum_pairs pos_term (pairs x y n) /\
  bigu_val (neg (ddot_loop x y n)) = sum_pairs neg_term (pairs x y n).
Proof.
  rewrite ddot_loop_state. cbv zeta. cbn [overflow pos neg]. intros H.
  apply orb_false_iff in H. destruct H as [Hp Hn].
  apply Z.leb_gt in Hp, Hn. rewrite !bigu_val_of_Z.
  pose proof (sum_pairs_nonneg pos_term (pairs x y n) pos_term_nonneg).
  pose proof (sum_pairs_nonneg neg_term (pairs x y n) neg_term_nonneg).
  split; apply Z.mod_small; lia.
Qed.

(** C1, as the code has it.  On finite operands, when the overflow flag is
    not latched and the subtraction of the finalizer forms no limb sum
    [b->limb[i] + borrow] that wraps, [ddot_repro] returns the exact sum
    rounded once to nearest-even: subnormal results, signed zeros from
    underflow and overflow to infinity included. *)
Theorem ddot_repro_rounds_exact_sum (x y : list Z) (n : nat) :
  finite_inputs x y n ->
  overflow (ddot_loop x y n) = false ->
  finalize_sub_wraps (pos (ddot_loop x y n)) (neg (ddot_loop x y n)) = false ->
  ddot_repro x y n = rne_binary64 (exact_dot_scaled x y n).
Proof.
  intros Hfin Hov Hnw.
  destruct (no_nan_no_inf_state x y n (finite_no_nan_no_inf x y n Hfin))
    as (H1 & H2 & H3 & H4).
  destruct (state_wf_loop x y n) as [Hp Hn].
  destruct (no_overflow_values x y n Hov) as [Vp Vn].
  unfold ddot_repro, ddot_finish. rewrite H1, H2, H3, H4, Hov.
  cbn [orb andb negb].
  rewrite (finalize_to_double_rounds _ _ Hp Hn Hnw), Vp, Vn.
  now rewrite (finite_sums x y n Hfin).
Qed.

Lemma ddot_repro_rounds_exact_sum_witness :
  ddot_repro
    [0x3FF0000000000000; 0x4000000000000000; 0x4008000000000000]
    [0x4010000000000000; 0xC014000000000000; 0x4018000000000000] 3
  = rne_binary64
      (exact_dot_scaled
         [0x3FF0000000000000; 0x4000000000000000; 0x4008000000000000]
         [0x4010000000000000; 0xC014000000000000; 0x4018000000000000] 3).
Proof.
  apply ddot_repro_rounds_exact_sum.
  - intros [| [| [| i]]] Hi; try lia; unfold is_u64;
      repeat split; try reflexivity; discriminate.
  - reflexivity.
  - reflexivity.
Defined.

(** *** Where the claim as stated fails *)

Lemma fold_add_repeat (c : Z) (n : nat) :
  fold_right Z.add 0 (repeat c n) = Z.of_nat n * c.
Proof.
  induction n as [| n IH]; [reflexivity |].
  rewrite Nat2Z.inj_succ. simpl. rewrite IH. ring.
Qed.

Lemma exact_dot_scaled_repeat (a b : Z) (n : nat) :
  exact_dot_scaled (repeat a n) (repeat b n) n
  = Z.of_nat n * (b64_scaled a * b64_scaled b).
Proof.
  unfold exact_dot_scaled. rewrite <- fold_add_repeat. f_equal.
  rewrite <- (map_const_seq (b64_scaled a * b64_scaled b) n 0).
  apply map_ext_in. intros i Hi. apply in_seq in Hi.
  now rewrite !nth_repeat_lt by lia.
Qed.

Lemma long_input_finite : finite_inputs long_input long_input LONG_N.
Proof.
  intros i Hi. unfold long_input. rewrite nth_repeat_lt by assumption.
  unfold is_u64, TWO_POW_1023. repeat split; try reflexivity; discriminate.
Qed.

Lemma long_input_result :
  ddot_repro long_input long_input LONG_N = POS_ZERO.
Proof.
  rewrite (overflow_path _ _ _ long_input_ok long_input_overflow).
  unfold overflow_result. rewrite ddot_loop_state. cbv zeta. cbn [pos neg].
  destruct long_input_sums as [-> ->].
  rewrite !bigu_val_of_Z.
  rewrite Z.mod_same by (pose proof (weight_pos ACC_LIMBS); lia).
  rewrite Z.mod_0_l by (pose proof (weight_pos ACC_LIMBS); lia).
  reflexivity.
Qed.

Lemma long_input_exact_sum :
  exact_dot_scaled long_input long_input LONG_N = 2 ^ 4224.
Proof.
  unfold long_input. rewrite exact_dot_scaled_repeat, LONG_N_eq.
  reflexivity.
Qed.

(** On [2^30] copies of the pair [(2^1023, 2^1023)] all operands are finite
    and the exact sum is [2^2076], which rounds to [+inf]; the accumulator
    wraps to zero on the last addition, the overflow flag is latched, and
    [ddot_repro] answers [+0.0]. *)
Lemma ddot_repro_exhausted_accumulator :
  finite_inputs long_input long_input LONG_N /\
  ddot_repro long_input long_input LONG_N = POS_ZERO /\
  rne_binary64 (exact_dot_scaled long_input long_input LONG_N) = POS_INF /\
  ddot_repro long_input long_input LONG_N
  <> rne_binary64 (exact_dot_scaled long_input long_input LONG_N).
Proof.
  assert (Hr : rne_binary64 (exact_dot_scaled long_input long_input LONG_N)
               = POS_INF).
  { rewrite long_input_exact_sum. vm_compute. reflexivity. }
  split; [exact long_input_finite |].
  split; [exact long_input_result |].
  split; [exact Hr |].
  rewrite long_input_result, Hr. discriminate.
Qed.

(** The lost borrow of [bigu_sub] on a short input: the exact sum of
    [2^92 - (2^53-1) 2^-14 - (2^53-1) 2^39] is [2^-14], the code returns
    [2^92]. *)
Lemma ddot_repro_lost_borrow :
  let x := [0x45B0000000000000; 0x425FFFFFFFFFFFFF; 0x45AFFFFFFFFFFFFF] in
  let y := [0x3FF0000000000000; 0xBFF0000000000000; 0xBFF0000000000000] in
  overflow (ddot_loop x y 3) = false /\
  finalize_sub_wraps (pos (ddot_loop x y 3)) (neg (ddot_loop x y 3)) = true /\
  ddot_repro x y 3 = 0x45B0000000000000 /\
  rne_binary64 (exact_dot_scaled x y 3) = 0x3F10000000000000.
Proof. vm_compute. repeat split; reflexivity. Qed.

(** *** Fewer than [2^28] pairs cannot exhaust the accumulator *)

Lemma classify_product_small (xu yu : Z) (b : bool) (v s : Z) :
  classify_pair xu yu = PairProduct b v s -> v < 2 ^ 106.
Proof.
  unfold classify_pair.
  destruct (is_nan_u64 xu || is_nan_u64 yu); [discriminate |].
  destruct ((is_inf_u64 xu && is_zero_u64 yu)
            || (is_inf_u64 yu && is_zero_u64 xu)); [discriminate |].
  destruct (is_inf_u64 xu || is_inf_u64 yu); [discriminate |].
  destruct (decode_double_SE xu) as [[[sx Sx] Ex] |] eqn:Dx; [| discriminate].
  destruct (decode_double_SE yu) as [[[sy Sy] Ey] |] eqn:Dy; [| discriminate].
  destruct (decode_double_SE_range _ _ _ _ Dx) as (_ & HSx & _).
  destruct (decode_double_SE_range _ _ _ _ Dy) as (_ & HSy & _).
  destruct ((Sx =? 0) || (Sy =? 0)); [discriminate |].
  destruct (Ex + Ey <? ACC_EMIN); [discriminate |].
  intros H. inversion H; subst.
  rewrite u128_small by (change (2 ^ 128) with (2 ^ 53 * 2 ^ 75); nia).
  change (2 ^ 106) with (2 ^ 53 * 2 ^ 53). nia.
Qed.

Lemma term_bound (b : bool) (xu yu : Z) :
  (if b then pos_term xu yu else neg_term xu yu) <= 2 ^ 4196 - 1.
Proof.
  assert (H0 : 0 <= 2 ^ 4196 - 1) by (pose proof (pow2_pos 4196); lia).
  unfold pos_term, neg_term.
  destruct (classify_pair xu yu) as [| | | | b' v s] eqn:Hc;
    try (destruct b; exact H0).
  destruct (classify_product_range _ _ _ _ _ Hc) as [Hv Hs].
  pose proof (classify_product_small _ _ _ _ _ Hc) as Hv'.
  assert (Hb : v * 2 ^ s <= 2 ^ 4196 - 1).
  { assert (2 ^ s <= 2 ^ 4090) by (apply Z.pow_le_mono_r; lia).
    pose proof (pow2_pos s ltac:(lia)).
    assert (H4196 : 2 ^ 4196 = 2 ^ 106 * 2 ^ 4090)
      by (rewrite <- Z.pow_add_r by lia; reflexivity).
    rewrite H4196. nia. }
  destruct b, b'; assumption.
Qed.

Lemma sum_pairs_bound (f : Z -> Z -> Z) (B : Z) (l : list (Z * Z)) :
  (forall a b, f a b <= B) -> sum_pairs f l <= Z.of_nat (length l) * B.
Proof.
  intros Hf. induction l as [| p l IH]; [simpl; lia |].
  simpl length. rewrite Nat2Z.inj_succ. simpl sum_pairs.
  fold (sum_pairs f l). specialize (Hf (fst p) (snd p)). lia.
Qed.

Lemma short_input_no_overflow (x y : list Z) (n : nat) :
  Z.of_nat n <= 2 ^ 28 -> overflow (ddot_loop x y n) = false.
Proof.
  intros Hn. rewrite ddot_loop_state. cbv zeta. cbn [overflow].
  assert (Hlen : length (pairs x y n) = n)
    by (unfold pairs; now rewrite length_map, length_seq).
  pose proof (sum_pairs_bound pos_term _ (pairs x y n) (term_bound true)) as Hp.
  pose proof (sum_pairs_bound neg_term _ (pairs x y n) (term_bound false)) as Hm.
  rewrite Hlen in Hp, Hm.
  assert (HW : weight ACC_LIMBS = 2 ^ 28 * 2 ^ 4196).
  { unfold weight. rewrite <- Z.pow_add_r by lia. reflexivity. }
  pose proof (pow2_pos 4196 ltac:(lia)) as H4196.
  apply orb_false_iff. split; apply Z.leb_gt; rewrite HW; nia.
Qed.

(** ** C6: sign symmetry *)

Lemma b64_neg_cases (u : Z) :
  is_u64 u ->
  (u < 2 ^ 63 /\ b64_neg u = u + 2 ^ 63) \/
  (2 ^ 63 <= u /\ b64_neg u = u - 2 ^ 63).
Proof.
  unfold is_u64, b64_neg. intros Hu.
  assert (Hlow : forall v, 0 <= v < 2 ^ 63 -> Z.lxor v (2 ^ 63) = v + 2 ^ 63).
  { intros v Hv. symmetry. apply Z.add_nocarry_lxor.
    rewrite Z.land_comm. apply (land_disjoint _ _ 63); try lia.
    apply Z.mod_same. lia. }
  destruct (Z.lt_ge_cases u (2 ^ 63)) as [Hlt | Hge].
  - left. split; [assumption | apply Hlow; lia].
  - right. split; [assumption |].
    replace u with ((u - 2 ^ 63) + 2 ^ 63) at 1 by lia.
    rewrite <- (Hlow (u - 2 ^ 63)) by lia.
    rewrite Z.lxor_assoc, Z.lxor_nilpotent. apply Z.lxor_0_r.
Qed.

Lemma b64_neg_fields (u : Z) :
  is_u64 u ->
  exp_field (b64_neg u) = exp_field u /\
  frac_field (b64_neg u) = frac_field u /\
  is_zero_u64 (b64_neg u) = is_zero_u64 u /\
  sign_of_u64 (b64_neg u) = - sign_of_u64 u.
Proof.
  intros Hu. rewrite !exp_field_eq, !frac_field_eq.
  unfold is_zero_u64, sign_of_u64.
  change (u64 (Z.lnot (Z.shiftl 1 63))) with (Z.ones 63).
  rewrite !Z.land_ones, !Z.shiftr_div_pow2 by lia.
  assert (H63 : 2 ^ 63 = 2 ^ 11 * 2 ^ 52) by reflexivity.
  unfold is_u64 in Hu.
  destruct (b64_neg_cases u Hu) as [[H ->] | [H ->]].
  - replace (u + 2 ^ 63) with (u + 1 * 2 ^ 63) by ring.
    rewrite Z.mod_add, Z.div_add by lia.
    rewrite (Z.div_small u (2 ^ 63)) by lia.
    replace (u + 1 * 2 ^ 63) with (u + 2 ^ 11 * 2 ^ 52) by (rewrite H63; ring).
    rewrite Z.mod_add, Z.div_add by lia.
    replace (u / 2 ^ 52 + 2 ^ 11) with (u / 2 ^ 52 + 1 * 2 ^ 11) by ring.
    rewrite Z.mod_add by lia. repeat split; reflexivity.
  - replace (u - 2 ^ 63) with (u + (-1) * 2 ^ 63) by ring.
    rewrite Z.mod_add, Z.div_add by lia.
    assert (Hq : u / 2 ^ 63 = 1).
    { assert (0 <= u / 2 ^ 63 < 2)
        by (split; [apply Z.div_pos; lia | apply Z.div_lt_upper_bound; lia]).
      assert (1 <= u / 2 ^ 63) by (apply Z.div_le_lower_bound; lia). lia. }
    rewrite Hq.
    replace (u + -1 * 2 ^ 63) with (u + - 2 ^ 11 * 2 ^ 52)
      by (rewrite H63; ring).
    rewrite Z.mod_add, Z.div_add by lia.
    replace (u / 2 ^ 52 + - 2 ^ 11) with (u / 2 ^ 52 + (-1) * 2 ^ 11) by ring.
    rewrite Z.mod_add by lia. repeat split; reflexivity.
Qed.

Lemma b64_neg_classes (u : Z) :
  is_u64 u ->
  is_nan_u64 (b64_neg u) = is_nan_u64 u /\
  is_inf_u64 (b64_neg u) = is_inf_u64 u /\
  decode_double_SE (b64_neg u)
  = match decode_double_SE u with
    | Some (s, sig, e) => Some (- s, sig, e)
    | None => None
    end.
Proof.
  intros Hu. destruct (b64_neg_fields u Hu) as (He & Hf & _ & Hs).
  unfold is_nan_u64, is_inf_u64, decode_double_SE. rewrite He, Hf, Hs.
  repeat split.
  destruct (exp_field u =? 0x7FF); [reflexivity |].
  destruct (exp_field u =? 0); [| reflexivity].
  destruct (frac_field u =? 0); reflexivity.
Qed.

Lemma sign_product_flip (sx sy : Z) :
  (sx = 1 \/ sx = -1) -> (sy = 1 \/ sy = -1) ->
  (0 <? - sx * sy) = negb (0 <? sx * sy) /\
  (0 <? sx * - sy) = negb (0 <? sx * sy).
Proof. intros [-> | ->] [-> | ->]; split; reflexivity. Qed.

Lemma classify_pair_neg (xu yu : Z) :
  is_u64 xu -> is_u64 yu ->
  classify_pair (b64_neg xu) yu = flip_class (classify_pair xu yu) /\
  classify_pair xu (b64_neg yu) = flip_class (classify_pair xu yu).
Proof.
  intros Hx Hy.
  destruct (b64_neg_classes xu Hx) as (Nx & Ix & Dx).
  destruct (b64_neg_classes yu Hy) as (Ny & Iy & Dy).
  destruct (b64_neg_fields xu Hx) as (_ & _ & Zx & Sx).
  destruct (b64_neg_fields yu Hy) as (_ & _ & Zy & Sy).
  pose proof (sign_of_u64_cases xu) as Cx.
  pose proof (sign_of_u64_cases yu) as Cy.
  destruct (sign_product_flip _ _ Cx Cy) as [F1 F2].
  unfold classify_pair. rewrite Nx, Ix, Zx, Sx, Dx, Ny, Iy, Zy, Sy, Dy, F1, F2.
  destruct (is_nan_u64 xu || is_nan_u64 yu); [split; reflexivity |].
  destruct ((is_inf_u64 xu && is_zero_u64 yu)
            || (is_inf_u64 yu && is_zero_u64 xu)); [split; reflexivity |].
  destruct (is_inf_u64 xu || is_inf_u64 yu); [split; reflexivity |].
  destruct (decode_double_SE xu) as [[[sx Sx'] Ex] |] eqn:Ex_;
    [| split; reflexivity].
  destruct (decode_double_SE yu) as [[[sy Sy'] Ey] |] eqn:Ey_;
    [| split; reflexivity].
  destruct (decode_double_SE_range _ _ _ _ Ex_) as (Hsx & _ & _).
  destruct (decode_double_SE_range _ _ _ _ Ey_) as (Hsy & _ & _).
  destruct (sign_product_flip _ _ Hsx Hsy) as [G1 G2].
  rewrite G1, G2.
  destruct ((Sx' =? 0) || (Sy' =? 0)); [split; reflexivity |].
  destruct (Ex + Ey <? ACC_EMIN); split; reflexivity.
Qed.

Lemma apply_class_swap (st : ddot_state) (c : pair_class) :
  apply_class (swap_state st) (flip_class c) = swap_state (apply_class st c).
Proof.
  destruct c as [| | [|] | | [|] v s]; try reflexivity.
  - unfold flip_class, apply_class, add_to_neg, add_to_pos, swap_state.
    cbn [pos neg overflow saw_nan saw_invalid_zero_inf saw_pos_inf
           saw_neg_inf negb].
    destruct (bigu_add_shifted_u128 (pos st) v s (overflow st)). reflexivity.
  - unfold flip_class, apply_class, add_to_neg, add_to_pos, swap_state.
    cbn [pos neg overflow saw_nan saw_invalid_zero_inf saw_pos_inf
           saw_neg_inf negb].
    destruct (bigu_add_shifted_u128 (neg st) v s (overflow st)). reflexivity.
Qed.

Lemma ddot_step_neg (st : ddot_state) (xu yu : Z) :
  is_u64 xu -> is_u64 yu ->
  ddot_step (swap_state st) (b64_neg xu) yu = swap_state (ddot_step st xu yu) /\
  ddot_step (swap_state st) xu (b64_neg yu) = swap_state (ddot_step st xu yu).
Proof.
  intros Hx Hy. rewrite !ddot_step_classify.
  destruct (classify_pair_neg xu yu Hx Hy) as [-> ->].
  split; apply apply_class_swap.
Qed.

Lemma nth_map_neg (x : list Z) (i : nat) :
  (i < length x)%nat -> nth i (map b64_neg x) 0 = b64_neg (nth i x 0).
Proof.
  intros Hi. rewrite (nth_indep _ 0 (b64_neg 0)) by now rewrite length_map.
  apply map_nth.
Qed.

Lemma nth_is_u64 (x : list Z) (i : nat) : Forall is_u64 x -> is_u64 (nth i x 0).
Proof.
  intros Hx. destruct (Nat.lt_ge_cases i (length x)) as [Hlt | Hge].
  - eapply Forall_forall; [exact Hx | now apply nth_In].
  - rewrite nth_overflow by assumption. unfold is_u64. lia.
Qed.

Lemma ddot_loop_neg (x y : list Z) (n : nat) :
  Forall is_u64 x -> Forall is_u64 y ->
  (n <= length x)%nat -> (n <= length y)%nat ->
  ddot_loop (map b64_neg x) y n = swap_state (ddot_loop x y n) /\
  ddot_loop x (map b64_neg y) n = swap_state (ddot_loop x y n).
Proof.
  intros Hx Hy Hlx Hly. unfold ddot_loop.
  change ddot_init with (swap_state ddot_init) at 1 3.
  assert (Hin : forall i, In i (seq 0 n) -> (i < n)%nat)
    by (intros i Hi; apply in_seq in Hi; lia).
  generalize ddot_init.
  induction (seq 0 n) as [| i l IH]; intros st; [split; reflexivity |].
  simpl fold_left.
  pose proof (Hin i ltac:(now left)) as Hi.
  rewrite !nth_map_neg by lia.
  destruct (ddot_step_neg st (nth i x 0) (nth i y 0)
              (nth_is_u64 x i Hx) (nth_is_u64 y i Hy)) as [-> ->].
  apply IH. intros j Hj. apply Hin. now right.
Qed.

(** Every valid call of [pack_double] puts the sign in bit 63 and the rest
    below it. *)
Lemma pack_double_fields (e f : Z) :
  (e = INT_MAX \/ e = INT_MIN \/ 1 <= e + 1023 <= 2046) ->
  exists M, 0 <= M < 2 ^ 63 /\
    forall sgn, pack_double sgn e f = sign_bit sgn + M.
Proof.
  intros He. unfold pack_double.
  change (Z.shiftl 1 52 - 1) with (Z.ones 52). rewrite Z.land_ones by lia.
  rewrite Z.shiftl_1_l.
  pose proof (Z.mod_pos_bound f (2 ^ 52) ltac:(lia)) as Hf.
  assert (H63 : 2 ^ 63 = 2 ^ 11 * 2 ^ 52) by reflexivity.
  destruct (Z.eqb_spec e INT_MIN) as [H1 | H1].
  { exists (0 * 2 ^ 52 + f mod 2 ^ 52). split; [lia |]. intros sgn.
    fold (sign_bit sgn). pose proof (sign_bit_cases sgn).
    rewrite pack_fields by lia. ring. }
  destruct (Z.eqb_spec e INT_MAX) as [H2 | H2].
  { exists (2047 * 2 ^ 52 + 0). split; [lia |]. intros sgn.
    fold (sign_bit sgn). pose proof (sign_bit_cases sgn).
    rewrite pack_fields by lia. ring. }
  destruct He as [He | [He | He]]; try contradiction.
  assert (H3 : (e + 1023 <=? 0) = false) by (apply Z.leb_gt; lia).
  cbv zeta. rewrite H3. change 0x7FF with (Z.ones 11).
  rewrite Z.land_ones, Z.mod_small by lia.
  exists ((e + 1023) * 2 ^ 52 + f mod 2 ^ 52). split; [nia |]. intros sgn.
  fold (sign_bit sgn). pose proof (sign_bit_cases sgn).
  rewrite pack_fields by lia. ring.
Qed.

Lemma round_and_pack_sign (mag : bigu_t) :
  0 <= bigu_msb_index mag ->
  exists M, 0 <= M < 2 ^ 63 /\
    forall sgn, round_and_pack mag sgn = sign_bit sgn + M.
Proof.
  intros Hmsb. unfold round_and_pack. cbv zeta. unfold ACC_EMIN.
  assert (H0 : (bigu_msb_index mag <? 0) = false) by (apply Z.ltb_ge; lia).
  rewrite H0.
  destruct (1023 <? -2148 + bigu_msb_index mag) eqn:H1.
  { apply pack_double_fields. now left. }
  apply Z.ltb_ge in H1.
  destruct (-2148 + bigu_msb_index mag <? -1022) eqn:H2.
  { destruct (round_up mag _ _).
    - destruct (_ =? Z.shiftl 1 52); apply pack_double_fields;
        [right; right; lia | right; now left].
    - apply pack_double_fields. right. now left. }
  apply Z.ltb_ge in H2.
  destruct (round_up mag _ _).
  - destruct (_ =? Z.shiftl 1 53).
    + destruct (1023 <? -2148 + bigu_msb_index mag + 1) eqn:H3.
      * apply pack_double_fields. now left.
      * apply Z.ltb_ge in H3. apply pack_double_fields. right; right; lia.
    + apply pack_double_fields. right; right; lia.
  - apply pack_double_fields. right; right; lia.
Qed.

Lemma b64_neg_low (M : Z) : 0 <= M < 2 ^ 63 -> b64_neg M = 2 ^ 63 + M.
Proof.
  intros HM.
  destruct (b64_neg_cases M) as [[_ ->] | [H _]]; [unfold is_u64 | |]; lia.
Qed.

Lemma b64_neg_high (M : Z) : 0 <= M < 2 ^ 63 -> b64_neg (2 ^ 63 + M) = M.
Proof.
  intros HM.
  destruct (b64_neg_cases (2 ^ 63 + M)) as [[H _] | [_ ->]];
    [unfold is_u64; change (2 ^ 64) with (2 ^ 63 + 2 ^ 63) | |]; lia.
Qed.

(** The finalizer on exchanged accumulators. *)
Lemma finalize_to_double_swap (P N : bigu_t) :
  bigu_wf P -> bigu_wf N ->
  (bigu_val P = bigu_val N ->
   finalize_to_double P N = POS_ZERO /\ finalize_to_double N P = POS_ZERO) /\
  (bigu_val P <> bigu_val N ->
   finalize_to_double N P = b64_neg (finalize_to_double P N)).
Proof.
  intros HP HN. rewrite !finalize_to_double_eq. cbv zeta.
  rewrite (bigu_cmp_swap P N), (bigu_cmp_spec P N HP HN).
  split.
  - intros ->. rewrite Z.sub_diag.
    change (Z.sgn 0) with 0. change (- 0) with 0.
    change (0 =? 0) with true. cbv iota. split; reflexivity.
  - intros Hne.
    destruct (Z.lt_trichotomy (bigu_val P) (bigu_val N)) as [Hlt | [He | Hgt]];
      [| contradiction |].
    + assert (Hc : bigu_cmp N P <> 0).
      { rewrite (bigu_cmp_spec N P HN HP), Z.sgn_pos by lia. lia. }
      destruct (round_and_pack_sign _ (bigu_sub_nonzero N P HN HP Hc))
        as (M & HM & Hpack).
      rewrite Z.sgn_neg by lia.
      change (- -1) with 1. change (1 =? 0) with false.
      change (-1 =? 0) with false. change (0 <? 1) with true.
      change (0 <? -1) with false. cbv iota.
      rewrite (Hpack 1), (Hpack (-1)).
      change (sign_bit 1) with 0. change (sign_bit (-1)) with (2 ^ 63).
      rewrite !Z.add_0_l. symmetry. now apply b64_neg_high.
    + assert (Hc : bigu_cmp P N <> 0).
      { rewrite (bigu_cmp_spec P N HP HN), Z.sgn_pos by lia. lia. }
      destruct (round_and_pack_sign _ (bigu_sub_nonzero P N HP HN Hc))
        as (M & HM & Hpack).
      rewrite Z.sgn_pos by lia.
      change (- 1) with (-1). change (1 =? 0) with false.
      change (-1 =? 0) with false. change (0 <? 1) with true.
      change (0 <? -1) with false. cbv iota.
      rewrite (Hpack 1), (Hpack (-1)).
      change (sign_bit 1) with 0. change (sign_bit (-1)) with (2 ^ 63).
      rewrite !Z.add_0_l. symmetry. now apply b64_neg_low.
Qed.

(** The order of precedence of [ddot_finish], rule by rule. *)
Lemma finish_nan (st : ddot_state) :
  saw_nan st || saw_invalid_zero_inf st = true ->
  ddot_finish st = CANONICAL_NAN.
Proof. intros H. unfold ddot_finish. now rewrite H. Qed.

Lemma finish_inf (st : ddot_state) :
  saw_nan st || saw_invalid_zero_inf st = false ->
  saw_pos_inf st || saw_neg_inf st = true ->
  ddot_finish st =
  if saw_pos_inf st && saw_neg_inf st then CANONICAL_NAN
  else if saw_pos_inf st then POS_INF else NEG_INF.
Proof.
  intros H1 H2. unfold ddot_finish. rewrite H1.
  destruct (saw_pos_inf st), (saw_neg_inf st);
    try reflexivity; discriminate.
Qed.

Lemma finish_overflow (st : ddot_state) :
  state_wf st ->
  saw_nan st || saw_invalid_zero_inf st = false ->
  saw_pos_inf st || saw_neg_inf st = false ->
  overflow st = true ->
  ddot_finish st = overflow_result (pos st) (neg st).
Proof.
  intros [HP HN] H1 H2 H3. unfold ddot_finish, overflow_result.
  apply orb_false_iff in H2. destruct H2 as [H2 H2'].
  rewrite H1, H2, H2', H3. cbn [orb andb negb]. cbv zeta.
  rewrite (bigu_cmp_spec _ _ HP HN).
  destruct (Z.compare_spec (bigu_val (pos st)) (bigu_val (neg st)))
    as [E | L | G].
  - rewrite E, Z.sub_diag. reflexivity.
  - rewrite Z.sgn_neg by lia. reflexivity.
  - rewrite Z.sgn_pos by lia. reflexivity.
Qed.

Lemma finish_finalize (st : ddot_state) :
  saw_nan st || saw_invalid_zero_inf st = false ->
  saw_pos_inf st || saw_neg_inf st = false ->
  overflow st = false ->
  ddot_finish st = finalize_to_double (pos st) (neg st).
Proof.
  intros H1 H2 H3. unfold ddot_finish.
  apply orb_false_iff in H2. destruct H2 as [H2 H2'].
  now rewrite H1, H2, H2', H3.
Qed.

Lemma overflow_result_swap (P N : bigu_t) :
  (bigu_val P = bigu_val N ->
   overflow_result P N = POS_ZERO /\ overflow_result N P = POS_ZERO) /\
  (bigu_val P <> bigu_val N ->
   overflow_result N P = b64_neg (overflow_result P N)).
Proof.
  unfold overflow_result. rewrite (Z.compare_antisym (bigu_val P)).
  destruct (Z.compare_spec (bigu_val P) (bigu_val N)) as [E | L | G];
    cbn [CompOpp]; split; intros H; try lia;
    try split; reflexivity.
Qed.

(** The precedence chain on a state with the two signs exchanged. *)
Lemma ddot_finish_swap (st : ddot_state) :
  state_wf st ->
  let r := ddot_finish st in
  let r' := ddot_finish (swap_state st) in
  (is_nan_u64 r = true -> r' = r) /\
  (is_nan_u64 r = false -> exact_cancellation st ->
   r = POS_ZERO /\ r' = POS_ZERO) /\
  (is_nan_u64 r = false -> ~ exact_cancellation st -> r' = b64_neg r).
Proof.
  intros Hwf. cbv zeta.
  assert (Hwf' : state_wf (swap_state st)) by (destruct Hwf; now split).
  destruct (ddot_finish_is_nan st) as [Hnan _]. rewrite Hnan. clear Hnan.
  unfold exact_cancellation.
  destruct (saw_nan st || saw_invalid_zero_inf st) eqn:H1.
  { (* rule 1 *)
    rewrite (finish_nan st H1), (finish_nan (swap_state st) H1).
    split; [reflexivity |]. split; discriminate. }
  destruct (saw_pos_inf st || saw_neg_inf st) eqn:H2.
  { (* rules 2 to 4 *)
    assert (H2' : saw_pos_inf (swap_state st) || saw_neg_inf (swap_state st)
                  = true) by (cbn [swap_state saw_pos_inf saw_neg_inf];
                              now rewrite orb_comm).
    rewrite (finish_inf st H1 H2), (finish_inf (swap_state st) H1 H2').
    cbn [swap_state saw_pos_inf saw_neg_inf].
    destruct (saw_pos_inf st), (saw_neg_inf st); try discriminate;
      cbn [orb andb].
    - split; [reflexivity |]. split; discriminate.
    - split; [discriminate |].
      split; [intros _ (H & _); discriminate | intros _ _; reflexivity].
    - split; [discriminate |].
      split; [intros _ (_ & H & _); discriminate | intros _ _; reflexivity]. }
  assert (H2' : saw_pos_inf (swap_state st) || saw_neg_inf (swap_state st)
                = false) by (cbn [swap_state saw_pos_inf saw_neg_inf];
                             now rewrite orb_comm).
  apply orb_false_iff in H2. destruct H2 as [Hp Hn]. rewrite Hp, Hn.
  cbn [orb andb]. split; [discriminate |].
  destruct (overflow st) eqn:H3.
  - (* rule 5 *)
    rewrite (finish_overflow st Hwf H1 ltac:(now rewrite Hp, Hn) H3).
    rewrite (finish_overflow (swap_state st) Hwf' H1 H2' H3).
    cbn [swap_state pos neg].
    destruct (overflow_result_swap (pos st) (neg st)) as [Heq Hne].
    split.
    + intros _ (_ & _ & H). exact (Heq H).
    + intros _ H. apply Hne. intros He. apply H. auto.
  - (* rule 6 *)
    rewrite (finish_finalize st H1 ltac:(now rewrite Hp, Hn) H3).
    rewrite (finish_finalize (swap_state st) H1 H2' H3).
    cbn [swap_state pos neg].
    destruct (finalize_to_double_swap _ _ (proj1 Hwf) (proj2 Hwf))
      as [Heq Hne].
    split.
    + intros _ (_ & _ & H). exact (Heq H).
    + intros _ H. apply Hne. intros He. apply H. auto.
Qed.

(** C6, as the code has it.  For 64-bit patterns [x] and [y] of length at
    least [n], [ddot_repro (-x) y n] and [ddot_repro x (-y) n] are equal.
    When [ddot_repro x y n] is the canonical NaN they are that NaN too; when
    no infinity was seen and [Pos] equals [Neg] after the loop all three are
    [+0.0]; in every other case they are [ddot_repro x y n] with bit 63
    flipped, also when that result is a zero produced by the underflow of a
    non-zero difference. *)
Theorem ddot_repro_sign_symmetry (x y : list Z) (n : nat) :
  Forall is_u64 x -> Forall is_u64 y ->
  (n <= length x)%nat -> (n <= length y)%nat ->
  let r := ddot_repro x y n in
  let st := ddot_loop x y n in
  ddot_repro (map b64_neg x) y n = ddot_repro x (map b64_neg y) n /\
  (is_nan_u64 r = true -> ddot_repro (map b64_neg x) y n = r) /\
  (is_nan_u64 r = false -> exact_cancellation st ->
   r = POS_ZERO /\ ddot_repro (map b64_neg x) y n = POS_ZERO) /\
  (is_nan_u64 r = false -> ~ exact_cancellation st ->
   ddot_repro (map b64_neg x) y n = b64_neg r).
Proof.
  intros Hx Hy Hlx Hly. cbv zeta. unfold ddot_repro.
  destruct (ddot_loop_neg x y n Hx Hy Hlx Hly) as [-> ->].
  split; [reflexivity |].
  exact (ddot_finish_swap (ddot_loop x y n) (state_wf_loop x y n)).
Qed.

Lemma ddot_repro_sign_symmetry_witness :
  let x := [0x4000000000000000; 1] in
  let y := [0x4008000000000000; 0x3FF0000000000000] in
  let r := ddot_repro x y 2 in
  let st := ddot_loop x y 2 in
  ddot_repro (map b64_neg x) y 2 = ddot_repro x (map b64_neg y) 2 /\
  (is_nan_u64 r = true -> ddot_repro (map b64_neg x) y 2 = r) /\
  (is_nan_u64 r = false -> exact_cancellation st ->
   r = POS_ZERO /\ ddot_repro (map b64_neg x) y 2 = POS_ZERO) /\
  (is_nan_u64 r = false -> ~ exact_cancellation st ->
   ddot_repro (map b64_neg x) y 2 = b64_neg r).
Proof.
  apply ddot_repro_sign_symmetry.
  - repeat constructor; unfold is_u64; lia.
  - repeat constructor; unfold is_u64; lia.
  - simpl. lia.
  - simpl. lia.
Defined.

(** The sign-symmetry sentence as the specification words it fails on the
    smallest subnormal squared: the product underflows to [+0.0], and with
    one operand negated to [-0.0], not to [+0.0]. *)
Lemma ddot_repro_sign_symmetry_counterexample :
  ddot_repro [1] [1] 1 = POS_ZERO /\
  ddot_repro (map b64_neg [1]) [1] 1 = NEG_ZERO /\
  ddot_repro [1] (map b64_neg [1]) 1 = NEG_ZERO /\
  ddot_repro (map b64_neg [1]) [1] 1
  <> claimed_negation (ddot_repro [1] [1] 1).
Proof. vm_compute. repeat split; try reflexivity. discriminate. Qed.

(** * Further properties of the code

    Properties of the functions of [ddot.c] on their own, of the driver
    beyond the statements above, and of the test program. *)

(** ** Decoding and packing *)

Lemma is_zero_u64_eq (u : Z) : is_zero_u64 u = (u mod 2 ^ 63 =? 0).
Proof.
  unfold is_zero_u64.
  change (u64 (Z.lnot (Z.shiftl 1 63))) with (Z.ones 63).
  now rewrite Z.land_ones by lia.
Qed.

Lemma sign_bit_of_u64 (u : Z) :
  is_u64 u -> sign_bit (sign_of_u64 u) = if Z.testbit u 63 then 2 ^ 63 else 0.
Proof.
  intros Hu. rewrite (sign_of_u64_b64_sign u Hu). unfold b64_sign, sign_bit.
  now destruct (Z.testbit u 63).
Qed.

(** A 64-bit pattern is the sum of its three fields. *)
Lemma u64_code_fields (u : Z) :
  is_u64 u ->
  u = sign_bit (sign_of_u64 u) + exp_field u * 2 ^ 52 + frac_field u.
Proof.
  intros Hu. rewrite (sign_bit_of_u64 u Hu), exp_field_eq, frac_field_eq.
  exact (u64_fields u Hu).
Qed.

Lemma is_zero_u64_fields (u : Z) :
  is_u64 u ->
  is_zero_u64 u = (exp_field u =? 0) && (frac_field u =? 0).
Proof.
  intros Hu. rewrite is_zero_u64_eq.
  pose proof (u64_code_fields u Hu) as H.
  pose proof (exp_field_range u) as He.
  pose proof (frac_field_range u) as Hf.
  pose proof (sign_bit_cases (sign_of_u64 u)) as Hs.
  assert (Hm : u mod 2 ^ 63 = exp_field u * 2 ^ 52 + frac_field u).
  { rewrite H at 1.
    destruct Hs as [-> | ->].
    - apply Z.mod_small. lia.
    - replace (2 ^ 63 + exp_field u * 2 ^ 52 + frac_field u)
        with (exp_field u * 2 ^ 52 + frac_field u + 1 * 2 ^ 63) by ring.
      rewrite Z.mod_add by lia. apply Z.mod_small. lia. }
  rewrite Hm.
  destruct (Z.eqb_spec (exp_field u) 0), (Z.eqb_spec (frac_field u) 0);
    cbn; apply Z.eqb_eq || apply Z.eqb_neq; lia.
Qed.

Lemma saw_nan_step (st : ddot_state) (xu yu : Z) :
  saw_nan (ddot_step st xu yu)
  = saw_nan st || (is_nan_u64 xu || is_nan_u64 yu).
Proof.
  rewrite ddot_step_classify, <- nan_pair_eq. unfold nan_pair.
  destruct (classify_pair xu yu) as [| | [|] | | [|] v s];
    cbn [apply_class latch_nan latch_invalid latch_pos_inf latch_neg_inf
         saw_nan];
    rewrite ?orb_true_r, ?orb_false_r; try reflexivity.
  - unfold add_to_pos.
    now destruct (bigu_add_shifted_u128 (pos st) v s (overflow st)).
  - unfold add_to_neg.
    now destruct (bigu_add_shifted_u128 (neg st) v s (overflow st)).
Qed.

(** X1.  [decode_double_SE] returns [false] exactly for the patterns that
    [is_nan_u64] or [is_inf_u64] accepts, and no pattern is accepted by
    both.  The driver reaches its two decoding calls only with operands that
    neither accepts, so the [saw_nan] latches that follow them never fire:
    one iteration sets [saw_nan] exactly when an operand is a NaN. *)
Theorem decode_double_SE_fails_iff (st : ddot_state) (xu yu : Z) :
  (decode_double_SE xu = None <-> is_nan_u64 xu || is_inf_u64 xu = true) /\
  is_nan_u64 xu && is_inf_u64 xu = false /\
  saw_nan (ddot_step st xu yu)
  = saw_nan st || (is_nan_u64 xu || is_nan_u64 yu).
Proof.
  split; [| split; [| apply saw_nan_step]];
    unfold decode_double_SE, is_nan_u64, is_inf_u64;
    destruct (exp_field xu =? 2047), (exp_field xu =? 0),
      (frac_field xu =? 0);
    cbn; try reflexivity; split; intros H; try discriminate H; reflexivity.
Qed.

(** X2.  For a 64-bit pattern that decodes, the outputs denote its value
    exactly, [value = sign * S * 2^E] (here times [2^1074]); the sign is
    [+1] or [-1], [S] is below [2^53], [S = 0] exactly for the two zeros
    that [is_zero_u64] accepts, and otherwise [E] lies in [[-1074, 971]]. *)
Theorem decode_double_SE_exact (u sx S E : Z) :
  is_u64 u -> decode_double_SE u = Some (sx, S, E) ->
  b64_scaled u = sx * S * 2 ^ (E + 1074) /\
  (sx = 1 \/ sx = -1) /\
  0 <= S < 2 ^ 53 /\
  (S = 0 <-> is_zero_u64 u = true) /\
  (S <> 0 -> -1074 <= E <= 971).
Proof.
  intros Hu Hd.
  split; [exact (decode_double_SE_scaled u sx S E Hu Hd) |].
  destruct (decode_double_SE_range u sx S E Hd) as (Hs & HS & HE).
  split; [exact Hs |]. split; [exact HS |]. split; [| exact HE].
  rewrite (is_zero_u64_fields u Hu).
  revert Hd. unfold decode_double_SE.
  pose proof (frac_field_range u) as Hf.
  destruct (Z.eqb_spec (exp_field u) 0x7FF) as [| Hne]; [discriminate |].
  destruct (Z.eqb_spec (exp_field u) 0) as [Hz | Hnz].
  - destruct (Z.eqb_spec (frac_field u) 0) as [Hf0 | Hf0];
      intros H; inversion H; subst; clear H; cbn; split; intros; try reflexivity;
      try discriminate; try lia.
  - intros H. inversion H; subst; clear H. cbn.
    rewrite Z.shiftl_1_l.
    rewrite (lor_disjoint (2 ^ 52) (frac_field u) 52)
      by (try lia; apply Z.mod_same; lia).
    split; intros; try discriminate; lia.
Qed.

Lemma decode_double_SE_exact_witness :
  b64_scaled 0x4008000000000000 = 1 * 0x18000000000000 * 2 ^ (-51 + 1074) /\
  (1 = 1 \/ 1 = -1) /\
  0 <= 0x18000000000000 < 2 ^ 53 /\
  (0x18000000000000 = 0 <-> is_zero_u64 0x4008000000000000 = true) /\
  (0x18000000000000 <> 0 -> -1074 <= -51 <= 971).
Proof.
  apply (decode_double_SE_exact 0x4008000000000000 1 0x18000000000000 (-51)).
  - unfold is_u64. lia.
  - reflexivity.
Defined.

Lemma pack_double_low_exp (sgn e f : Z) :
  e + 1023 <= 0 -> pack_double sgn e f = sign_bit sgn + f mod 2 ^ 52.
Proof.
  intros He. unfold pack_double.
  assert (H2 : (e =? INT_MAX) = false) by (apply Z.eqb_neq; unfold INT_MAX; lia).
  assert (H3 : (e + 1023 <=? 0) = true) by (apply Z.leb_le; lia).
  pose proof (Z.mod_pos_bound f (2 ^ 52) ltac:(lia)) as Hf.
  destruct (e =? INT_MIN); [| rewrite H2; cbv zeta; rewrite H3];
    change (Z.land 0 2047) with 0;
    change (Z.shiftl 1 52 - 1) with (Z.ones 52); rewrite Z.land_ones by lia;
    rewrite Z.shiftl_1_l; fold (sign_bit sgn);
    (rewrite pack_fields by (try apply sign_bit_cases; lia)); lia.
Qed.

Lemma pack_double_mid_exp (sgn e f : Z) :
  1 <= e + 1023 <= 2046 ->
  pack_double sgn e f = sign_bit sgn + (e + 1023) * 2 ^ 52 + f mod 2 ^ 52.
Proof.
  intros He. unfold pack_double.
  assert (H1 : (e =? INT_MIN) = false) by (apply Z.eqb_neq; unfold INT_MIN; lia).
  assert (H2 : (e =? INT_MAX) = false) by (apply Z.eqb_neq; unfold INT_MAX; lia).
  assert (H3 : (e + 1023 <=? 0) = false) by (apply Z.leb_gt; lia).
  pose proof (Z.mod_pos_bound f (2 ^ 52) ltac:(lia)) as Hf.
  rewrite H1, H2. cbv zeta. rewrite H3.
  change 0x7FF with (Z.ones 11).
  change (Z.shiftl 1 52 - 1) with (Z.ones 52). rewrite !Z.land_ones by lia.
  rewrite (Z.mod_small (e + 1023)) by lia. rewrite Z.shiftl_1_l.
  fold (sign_bit sgn).
  apply pack_fields; try apply sign_bit_cases; lia.
Qed.

Lemma pack_double_inf_any (sgn f : Z) :
  pack_double sgn INT_MAX f = sign_bit sgn + POS_INF.
Proof.
  unfold pack_double, sign_bit. destruct (sgn <? 0); reflexivity.
Qed.

Lemma sign_of_fields (sgn e f : Z) :
  0 <= e < 2 ^ 11 -> 0 <= f < 2 ^ 52 ->
  sign_of_u64 (sign_bit sgn + e * 2 ^ 52 + f) = if sgn <? 0 then -1 else 1.
Proof.
  intros He Hf. unfold sign_of_u64, sign_bit.
  rewrite Z.shiftr_div_pow2 by lia.
  destruct (sgn <? 0).
  - replace (2 ^ 63 + e * 2 ^ 52 + f) with (e * 2 ^ 52 + f + 1 * 2 ^ 63) by ring.
    rewrite Z.div_add by lia. rewrite Z.div_small by lia. reflexivity.
  - rewrite Z.add_0_l. rewrite Z.div_small by lia. reflexivity.
Qed.

(** X3.  Round trip from a pattern: packing the decoded sign and significand
    gives the pattern back, with the marker [INT_MIN] for a significand
    below [2^52] (zero or subnormal) and the exponent [E + 52] for a normal
    one, whose implicit bit [pack_double] masks away. *)
Theorem decode_then_pack (u sx S E : Z) :
  is_u64 u -> decode_double_SE u = Some (sx, S, E) ->
  pack_double sx (if S <? 2 ^ 52 then INT_MIN else E + 52) S = u.
Proof.
  intros Hu. unfold decode_double_SE.
  pose proof (u64_code_fields u Hu) as Hfields.
  pose proof (exp_field_range u) as He.
  pose proof (frac_field_range u) as Hf.
  destruct (Z.eqb_spec (exp_field u) 0x7FF) as [| Hne]; [discriminate |].
  destruct (Z.eqb_spec (exp_field u) 0) as [Hz | Hnz].
  - assert (Hsub : pack_double (sign_of_u64 u) INT_MIN (frac_field u) = u).
    { rewrite pack_double_low_exp by (unfold INT_MIN; lia).
      rewrite Z.mod_small by lia. rewrite Hfields at 3. rewrite Hz. ring. }
    destruct (Z.eqb_spec (frac_field u) 0) as [Hf0 | Hf0];
      intros H; inversion H; subst sx S E; clear H.
    + change (0 <? 2 ^ 52) with true. cbv iota. now rewrite <- Hf0.
    + assert (Hlt : (frac_field u <? 2 ^ 52) = true) by (apply Z.ltb_lt; lia).
      now rewrite Hlt.
  - intros H. inversion H; subst sx S E; clear H.
    rewrite Z.shiftl_1_l.
    rewrite (lor_disjoint (2 ^ 52) (frac_field u) 52)
      by (try lia; apply Z.mod_same; lia).
    assert (Hge : (2 ^ 52 + frac_field u <? 2 ^ 52) = false)
      by (apply Z.ltb_ge; lia).
    rewrite Hge.
    rewrite pack_double_mid_exp by lia.
    replace (2 ^ 52 + frac_field u) with (frac_field u + 1 * 2 ^ 52) by ring.
    rewrite Z.mod_add by lia. rewrite Z.mod_small by lia.
    rewrite Hfields at 4. ring.
Qed.

Lemma decode_then_pack_witness :
  pack_double (-1) (if 0x18000000000000 <? 2 ^ 52 then INT_MIN else -51 + 52)
    0x18000000000000 = 0xC008000000000000.
Proof.
  apply (decode_then_pack 0xC008000000000000 (-1) 0x18000000000000 (-51)).
  - unfold is_u64. lia.
  - reflexivity.
Defined.

(** X4.  Round trip from the fields: for a fraction below [2^52],
    [decode_double_SE] reads back what [pack_double] wrote.  An exponent in
    [[-1022, 1023]] decodes with the implicit bit set and exponent [e - 52];
    every exponent of [-1023] or less, [INT_MIN] included, is clamped to the
    subnormal encoding; [INT_MAX] packs an infinity, which does not decode. *)
Theorem pack_then_decode (sgn e f : Z) :
  0 <= f < 2 ^ 52 ->
  let s := if sgn <? 0 then -1 else 1 in
  (1 <= e + 1023 <= 2046 ->
   decode_double_SE (pack_double sgn e f) = Some (s, 2 ^ 52 + f, e - 52)) /\
  (e + 1023 <= 0 ->
   decode_double_SE (pack_double sgn e f)
   = if f =? 0 then Some (s, 0, 0) else Some (s, f, -1074)) /\
  decode_double_SE (pack_double sgn INT_MAX f) = None.
Proof.
  intros Hf s. split; [| split].
  - intros He. rewrite pack_double_mid_exp by exact He.
    rewrite Z.mod_small by lia. unfold decode_double_SE.
    destruct (exp_frac_of_fields (sign_bit sgn) (e + 1023) f) as [-> ->];
      try apply sign_bit_cases; try lia.
    rewrite sign_of_fields by lia.
    assert (H1 : (e + 1023 =? 2047) = false) by (apply Z.eqb_neq; lia).
    assert (H2 : (e + 1023 =? 0) = false) by (apply Z.eqb_neq; lia).
    rewrite H1, H2. rewrite Z.shiftl_1_l.
    rewrite (lor_disjoint (2 ^ 52) f 52) by (try lia; apply Z.mod_same; lia).
    fold s. f_equal. f_equal. lia.
  - intros He. rewrite pack_double_low_exp by exact He.
    rewrite Z.mod_small by lia. unfold decode_double_SE.
    replace (sign_bit sgn + f) with (sign_bit sgn + 0 * 2 ^ 52 + f) by ring.
    destruct (exp_frac_of_fields (sign_bit sgn) 0 f) as [-> ->];
      try apply sign_bit_cases; try lia.
    rewrite sign_of_fields by lia. fold s.
    change (0 =? 2047) with false. change (0 =? 0) with true. reflexivity.
  - rewrite pack_double_inf_any. unfold decode_double_SE.
    change POS_INF with (2047 * 2 ^ 52 + 0). rewrite Z.add_assoc.
    destruct (exp_frac_of_fields (sign_bit sgn) 2047 0) as [-> _];
      try apply sign_bit_cases; try lia.
    reflexivity.
Qed.

Lemma pack_then_decode_witness :
  let s := if 1 <? 0 then -1 else 1 in
  (1 <= 1 + 1023 <= 2046 ->
   decode_double_SE (pack_double 1 1 0x8000000000000)
   = Some (s, 2 ^ 52 + 0x8000000000000, 1 - 52)) /\
  (1 + 1023 <= 0 ->
   decode_double_SE (pack_double 1 1 0x8000000000000)
   = if 0x8000000000000 =? 0 then Some (s, 0, 0)
     else Some (s, 0x8000000000000, -1074)) /\
  decode_double_SE (pack_double 1 INT_MAX 0x8000000000000) = None.
Proof.
  apply (pack_then_decode 1 1 0x8000000000000). lia.
Defined.

(** ** Addition at and beyond the end of the accumulator *)

Lemma add_word_at_out (a : bigu_t) (idx : nat) (w carry : Z) (o : bool) :
  (ACC_LIMBS <= idx)%nat ->
  add_word_at a idx w carry o
  = (a, carry, o || negb ((w =? 0) && (carry =? 0))).
Proof.
  intros Hidx. unfold add_word_at.
  destruct ((w =? 0) && (carry =? 0)).
  - now rewrite orb_false_r.
  - apply Nat.leb_le in Hidx. rewrite Hidx. now rewrite orb_true_r.
Qed.

Lemma carry_loop_out (fuel : nat) (a : bigu_t) (i : nat) (carry : Z)
  (o : bool) :
  (ACC_LIMBS <= i)%nat ->
  carry_loop (S fuel) a i carry o = (a, o || negb (carry =? 0)).
Proof.
  intros Hi. rewrite carry_loop_S.
  destruct (carry =? 0).
  - now rewrite orb_false_r.
  - apply Nat.leb_le in Hi. rewrite Hi. now rewrite orb_true_r.
Qed.

(** X5.  [add_word_at] inside the accumulator adds the word and the incoming
    carry at limb [idx] exactly, returns the carry out of that limb and
    leaves the overflow flag alone.  At or beyond limb [ACC_LIMBS] it writes
    nothing, keeps the carry, and sets the flag unless both the word and the
    carry are zero. *)
Theorem add_word_at_exact (a : bigu_t) (idx : nat) (w carry : Z) (o : bool) :
  bigu_wf a -> is_u64 w -> 0 <= carry <= 1 ->
  ((idx < ACC_LIMBS)%nat ->
   exists a' c',
     add_word_at a idx w carry o = (a', c', o) /\
     bigu_wf a' /\ 0 <= c' <= 1 /\
     bigu_val a' + c' * weight (S idx)
     = bigu_val a + (w + carry) * weight idx) /\
  ((ACC_LIMBS <= idx)%nat ->
   add_word_at a idx w carry o
   = (a, carry, o || negb ((w =? 0) && (carry =? 0)))).
Proof.
  intros Ha Hw Hc. split.
  - intros Hidx. exact (add_word_at_spec a idx w carry o Ha Hidx Hw Hc).
  - apply add_word_at_out.
Qed.

Lemma add_word_at_exact_witness :
  ((2 < ACC_LIMBS)%nat ->
   exists a' c',
     add_word_at (bigu_of_Z (2 ^ 192 - 1)) 2 1 1 false = (a', c', false) /\
     bigu_wf a' /\ 0 <= c' <= 1 /\
     bigu_val a' + c' * weight 3
     = bigu_val (bigu_of_Z (2 ^ 192 - 1)) + (1 + 1) * weight 2) /\
  ((ACC_LIMBS <= 2)%nat ->
   add_word_at (bigu_of_Z (2 ^ 192 - 1)) 2 1 1 false
   = (bigu_of_Z (2 ^ 192 - 1), 1, false || negb ((1 =? 0) && (1 =? 0)))).
Proof.
  apply (add_word_at_exact (bigu_of_Z (2 ^ 192 - 1)) 2 1 1 false).
  - apply bigu_wf_of_Z.
  - unfold is_u64. lia.
  - lia.
Defined.

(** X6.  The [while (carry != 0)] loop that ends [bigu_add_shifted_u128]
    terminates: entered at limb [i] it makes at most [ACC_LIMBS - i]
    iterations, so every iteration bound above that gives the same result,
    the bound [ACC_LIMBS + 1] of [bigu_add_shifted_u128] included.  It adds
    [carry * 2^(64 i)] modulo [2^4224] and sets the overflow flag exactly when
    the sum reaches [2^4224]. *)
Theorem carry_loop_terminates (fuel : nat) (a : bigu_t) (i : nat)
  (carry : Z) (o : bool) :
  bigu_wf a -> (i <= ACC_LIMBS)%nat -> 0 <= carry <= 1 ->
  (ACC_LIMBS - i < fuel)%nat ->
  let r := carry_loop fuel a i carry o in
  r = carry_loop (S ACC_LIMBS) a i carry o /\
  bigu_wf (fst r) /\
  bigu_val (fst r) = (bigu_val a + carry * weight i) mod weight ACC_LIMBS /\
  snd r = o || (weight ACC_LIMBS <=? bigu_val a + carry * weight i).
Proof.
  intros Hwf Hi Hc Hf r. subst r.
  split; [apply carry_loop_fuel; [exact Hf | lia] |].
  destruct (carry_loop_spec fuel a i carry o Hwf Hi ltac:(lia) Hc)
    as (a' & c' & E & Hwf' & Hc' & V).
  rewrite E. cbn [fst snd]. split; [exact Hwf' |].
  pose proof (bigu_val_bound a' (proj2 Hwf')) as Hb.
  rewrite (proj1 Hwf') in Hb. rewrite <- V.
  set (W := weight ACC_LIMBS) in *. split.
  - rewrite Z.mod_add by lia. symmetry. apply Z.mod_small. exact Hb.
  - f_equal.
    assert (Hcases : c' = 0 \/ c' = 1) by lia.
    destruct Hcases as [Hz | Hz]; rewrite Hz; symmetry.
    + apply Z.leb_gt. lia.
    + apply Z.leb_le. lia.
Qed.

Lemma carry_loop_terminates_witness :
  let r := carry_loop 3 (bigu_of_Z (2 ^ 4224 - 1)) 64 1 false in
  r = carry_loop (S ACC_LIMBS) (bigu_of_Z (2 ^ 4224 - 1)) 64 1 false /\
  bigu_wf (fst r) /\
  bigu_val (fst r)
  = (bigu_val (bigu_of_Z (2 ^ 4224 - 1)) + 1 * weight 64)
      mod weight ACC_LIMBS /\
  snd r
  = false || (weight ACC_LIMBS
              <=? bigu_val (bigu_of_Z (2 ^ 4224 - 1)) + 1 * weight 64).
Proof.
  apply (carry_loop_terminates 3 (bigu_of_Z (2 ^ 4224 - 1)) 64 1 false).
  - apply bigu_wf_of_Z.
  - unfold ACC_LIMBS. lia.
  - lia.
  - unfold ACC_LIMBS. lia.
Defined.

Lemma weight_add_nat (i j : nat) : weight (i + j) = weight i * weight j.
Proof.
  unfold weight. rewrite <- Z.pow_add_r by lia. f_equal. lia.
Qed.

Lemma bigu_of_Z_add_multiple (v k : Z) :
  bigu_of_Z (v + k * weight ACC_LIMBS) = bigu_of_Z v.
Proof.
  unfold bigu_of_Z. apply bigu_val_inj.
  - apply limbs_ok_limbs_of.
  - apply limbs_ok_limbs_of.
  - now rewrite !length_limbs_of.
  - rewrite !bigu_val_limbs_of. apply Z.mod_add.
    pose proof (weight_pos ACC_LIMBS). lia.
Qed.

Lemma weight_66 : weight ACC_LIMBS = 2 ^ 64 * weight 65.
Proof. apply weight_S. Qed.

Lemma weight_65 : weight 65 = 2 ^ 64 * weight 64.
Proof. apply weight_S. Qed.

Lemma overflow_flag_excess (v e W : Z) (o : bool) (b : bool) :
  0 <= v < W -> 0 <= e -> b = negb (e =? 0) ->
  o || b = o || (W <=? v + e * W).
Proof.
  intros Hv He ->. f_equal.
  destruct (Z.eqb_spec e 0) as [-> | Hne]; cbn; symmetry.
  - apply Z.leb_gt. lia.
  - apply Z.leb_le. nia.
Qed.

Lemma nonzero_flags (v c : Z) :
  0 <= v -> 0 <= c ->
  negb ((v =? 0) && (c =? 0)) || negb (c =? 0)
  = negb (c + v =? 0).
Proof.
  intros Hv Hc.
  destruct (Z.eqb_spec v 0), (Z.eqb_spec c 0), (Z.eqb_spec (c + v) 0);
    cbn; try reflexivity; lia.
Qed.

Section HighShift.

Variables (a : bigu_t) (o : bool) (v0 v1 v2 : Z).
Hypothesis Hwf : bigu_wf a.
Hypothesis H0 : is_u64 v0.
Hypothesis H1 : is_u64 v1.
Hypothesis H2 : is_u64 v2.

(** All three words are present. *)
Lemma add_words_inside (i : nat) :
  (i <= 63)%nat ->
  let T := bigu_val a + (v0 + v1 * 2 ^ 64 + v2 * 2 ^ 128) * weight i in
  let '(a1, c1, o1) := add_word_at a i v0 0 o in
  let '(a2, c2, o2) := add_word_at a1 (i + 1) v1 c1 o1 in
  let '(a3, c3, o3) := add_word_at a2 (i + 2) v2 c2 o2 in
  carry_loop (S ACC_LIMBS) a3 (i + 3) c3 o3
  = (bigu_of_Z T, o || (weight ACC_LIMBS <=? T)).
Proof using Hwf H0 H1 H2.
  intros Hi T. subst T.
  assert (HACC : ACC_LIMBS = 66%nat) by reflexivity.
  destruct (add_word_at_spec a i v0 0 o Hwf ltac:(lia) H0 ltac:(lia))
    as (a1 & c1 & E1 & Hwf1 & Hc1 & V1).
  rewrite E1.
  destruct (add_word_at_spec a1 (i + 1) v1 c1 o Hwf1 ltac:(lia) H1 Hc1)
    as (a2 & c2 & E2 & Hwf2 & Hc2 & V2).
  rewrite E2.
  destruct (add_word_at_spec a2 (i + 2) v2 c2 o Hwf2 ltac:(lia) H2 Hc2)
    as (a3 & c3 & E3 & Hwf3 & Hc3 & V3).
  rewrite E3.
  destruct (carry_loop_spec (S ACC_LIMBS) a3 (i + 3) c3 o Hwf3
              ltac:(lia) ltac:(lia) Hc3)
    as (a' & c & E & Hwf' & Hc & V).
  rewrite E.
  pose proof (bigu_val_bound a' (proj2 Hwf')) as Hb'.
  rewrite (proj1 Hwf') in Hb'.
  replace (S (i + 2)) with (i + 3)%nat in V3 by lia.
  replace (S (i + 1)) with (i + 2)%nat in V2 by lia.
  replace (S i) with (i + 1)%nat in V1 by lia.
  assert (W1 : weight (i + 1) = 2 ^ 64 * weight i).
  { rewrite Nat.add_1_r. apply weight_S. }
  assert (W2 : weight (i + 2) = 2 ^ 128 * weight i).
  { replace (i + 2)%nat with (S (S i)) by lia. rewrite !weight_S.
    change (2 ^ 128) with (2 ^ 64 * 2 ^ 64). ring. }
  rewrite W2 in V3, V2. rewrite W1 in V2, V1.
  set (W := weight ACC_LIMBS) in *. set (wi := weight i) in *.
  set (w3 := weight (i + 3)) in *.
  assert (Htot : bigu_val a + (v0 + v1 * 2 ^ 64 + v2 * 2 ^ 128) * wi
                 = bigu_val a' + c * W) by lia.
  rewrite Htot. subst W.
  rewrite bigu_of_Z_add_multiple, (bigu_of_Z_val a' Hwf').
  f_equal. apply overflow_flag_excess; [lia | lia |].
  destruct (Z.eqb_spec c 1), (Z.eqb_spec c 0); cbn; try reflexivity; lia.
Qed.

(** Limbs 64 and 65 are present, the third word falls outside. *)
Lemma add_words_from_64 :
  let T := bigu_val a + (v0 + v1 * 2 ^ 64 + v2 * 2 ^ 128) * weight 64 in
  let '(a1, c1, o1) := add_word_at a 64 v0 0 o in
  let '(a2, c2, o2) := add_word_at a1 65 v1 c1 o1 in
  let '(a3, c3, o3) := add_word_at a2 66 v2 c2 o2 in
  carry_loop (S ACC_LIMBS) a3 67 c3 o3
  = (bigu_of_Z T, o || (weight ACC_LIMBS <=? T)).
Proof using Hwf H0 H1 H2.
  intros T. subst T.
  assert (HACC : ACC_LIMBS = 66%nat) by reflexivity.
  destruct (add_word_at_spec a 64 v0 0 o Hwf ltac:(lia) H0 ltac:(lia))
    as (a1 & c1 & E1 & Hwf1 & Hc1 & V1).
  rewrite E1.
  destruct (add_word_at_spec a1 65 v1 c1 o Hwf1 ltac:(lia) H1 Hc1)
    as (a2 & c2 & E2 & Hwf2 & Hc2 & V2).
  rewrite E2.
  rewrite (add_word_at_out a2 66 v2 c2 o) by lia.
  rewrite carry_loop_out by lia.
  pose proof (bigu_val_bound a2 (proj2 Hwf2)) as Hb2.
  rewrite (proj1 Hwf2) in Hb2.
  fold ACC_LIMBS in V2.
  pose proof weight_66 as W66. pose proof weight_65 as W65.
  pose proof (weight_pos 64) as HW64.
  unfold is_u64 in H0, H1, H2.
  set (W := weight ACC_LIMBS) in *. set (w65 := weight 65) in *.
  set (w64 := weight 64) in *.
  assert (Htot : bigu_val a + (v0 + v1 * 2 ^ 64 + v2 * 2 ^ 128) * w64
                 = bigu_val a2 + (c2 + v2) * W) by lia.
  rewrite Htot. subst W.
  rewrite bigu_of_Z_add_multiple, (bigu_of_Z_val a2 Hwf2).
  f_equal. rewrite <- orb_assoc.
  apply overflow_flag_excess; [lia | lia |].
  apply nonzero_flags; lia.
Qed.

(** Only limb 65 is present. *)
Lemma add_words_from_65 :
  let T := bigu_val a + (v0 + v1 * 2 ^ 64 + v2 * 2 ^ 128) * weight 65 in
  let '(a1, c1, o1) := add_word_at a 65 v0 0 o in
  let '(a2, c2, o2) := add_word_at a1 66 v1 c1 o1 in
  let '(a3, c3, o3) := add_word_at a2 67 v2 c2 o2 in
  carry_loop (S ACC_LIMBS) a3 68 c3 o3
  = (bigu_of_Z T, o || (weight ACC_LIMBS <=? T)).
Proof using Hwf H0 H1 H2.
  intros T. subst T.
  assert (HACC : ACC_LIMBS = 66%nat) by reflexivity.
  destruct (add_word_at_spec a 65 v0 0 o Hwf ltac:(lia) H0 ltac:(lia))
    as (a1 & c1 & E1 & Hwf1 & Hc1 & V1).
  rewrite E1.
  rewrite (add_word_at_out a1 66 v1 c1 o) by lia.
  rewrite (add_word_at_out a1 67 v2 c1 _) by lia.
  rewrite carry_loop_out by lia.
  pose proof (bigu_val_bound a1 (proj2 Hwf1)) as Hb1.
  rewrite (proj1 Hwf1) in Hb1.
  fold ACC_LIMBS in V1.
  pose proof weight_66 as W66.
  pose proof (weight_pos 65) as HW65.
  unfold is_u64 in H0, H1, H2.
  set (W := weight ACC_LIMBS) in *. set (w65 := weight 65) in *.
  assert (Htot : bigu_val a + (v0 + v1 * 2 ^ 64 + v2 * 2 ^ 128) * w65
                 = bigu_val a1 + (c1 + v1 + v2 * 2 ^ 64) * W) by lia.
  rewrite Htot. subst W.
  rewrite bigu_of_Z_add_multiple, (bigu_of_Z_val a1 Hwf1).
  f_equal. rewrite <- !orb_assoc.
  apply overflow_flag_excess; [lia | lia |].
  destruct (Z.eqb_spec v1 0), (Z.eqb_spec v2 0), (Z.eqb_spec c1 0),
    (Z.eqb_spec (c1 + v1 + v2 * 2 ^ 64) 0); cbn; try reflexivity; lia.
Qed.

(** Every word falls outside. *)
Lemma add_words_outside (i : nat) :
  (ACC_LIMBS <= i)%nat -> 0 < v0 + v1 * 2 ^ 64 + v2 * 2 ^ 128 ->
  let T := bigu_val a + (v0 + v1 * 2 ^ 64 + v2 * 2 ^ 128) * weight i in
  let '(a1, c1, o1) := add_word_at a i v0 0 o in
  let '(a2, c2, o2) := add_word_at a1 (i + 1) v1 c1 o1 in
  let '(a3, c3, o3) := add_word_at a2 (i + 2) v2 c2 o2 in
  carry_loop (S ACC_LIMBS) a3 (i + 3) c3 o3
  = (bigu_of_Z T, o || (weight ACC_LIMBS <=? T)).
Proof using Hwf H0 H1 H2.
  intros Hi Hnz T. subst T.
  rewrite (add_word_at_out a i v0 0 o) by lia.
  rewrite (add_word_at_out a (i + 1) v1 0 _) by lia.
  rewrite (add_word_at_out a (i + 2) v2 0 _) by lia.
  rewrite carry_loop_out by lia.
  pose proof (bigu_val_bound a (proj2 Hwf)) as Hb.
  rewrite (proj1 Hwf) in Hb.
  assert (Hw : weight i = weight (i - ACC_LIMBS) * weight ACC_LIMBS).
  { rewrite <- weight_add_nat. f_equal. lia. }
  pose proof (weight_pos (i - ACC_LIMBS)) as Hwp.
  rewrite Hw. unfold is_u64 in H0, H1, H2.
  set (W := weight ACC_LIMBS) in *. set (w := weight (i - ACC_LIMBS)) in *.
  replace (bigu_val a + (v0 + v1 * 2 ^ 64 + v2 * 2 ^ 128) * (w * W))
    with (bigu_val a + ((v0 + v1 * 2 ^ 64 + v2 * 2 ^ 128) * w) * W) by ring.
  subst W.
  rewrite bigu_of_Z_add_multiple, (bigu_of_Z_val a Hwf).
  f_equal. rewrite <- !orb_assoc.
  apply overflow_flag_excess; [lia | nia |].
  change (0 =? 0) with true. rewrite !andb_true_r.
  assert (Hne : (v0 + v1 * 2 ^ 64 + v2 * 2 ^ 128) * w <> 0) by nia.
  apply Z.eqb_neq in Hne. rewrite Hne.
  destruct (Z.eqb_spec v0 0), (Z.eqb_spec v1 0), (Z.eqb_spec v2 0);
    cbn; try reflexivity; lia.
Qed.

End HighShift.

Ltac three_words H :=
  repeat match type of H with
  | context [add_word_at ?a ?i ?w ?c ?o] =>
    destruct (add_word_at a i w c o) as [[? ?] ?]
  end.

(** Whatever the shift: the limbs hold the sum modulo the capacity, the
    flag tells whether the sum reached it. *)
Lemma bigu_add_shifted_u128_all (a : bigu_t) (val shift : Z)
  (o : bool) :
  bigu_wf a -> 0 <= val < 2 ^ 128 -> 0 <= shift ->
  bigu_add_shifted_u128 a val shift o =
  (bigu_of_Z (bigu_val a + val * 2 ^ shift),
   o || (weight ACC_LIMBS <=? bigu_val a + val * 2 ^ shift)).
Proof.
  intros Hwf Hval Hshift.
  pose proof (bigu_val_bound a (proj2 Hwf)) as Hb. rewrite (proj1 Hwf) in Hb.
  unfold bigu_add_shifted_u128, WORD_BITS.
  destruct (Z.eqb_spec val 0) as [Hv0 | Hv0].
  - subst val. rewrite Z.mul_0_l, Z.add_0_r.
    rewrite (bigu_of_Z_val a Hwf).
    assert (H : (weight ACC_LIMBS <=? bigu_val a) = false)
      by (apply Z.leb_gt; lia).
    now rewrite H, orb_false_r.
  - pose proof (Z.mod_pos_bound shift 64 ltac:(lia)) as Hr.
    pose proof (shifted_limbs_spec val (shift mod 64) Hval Hr) as Hlimbs.
    destruct (shifted_limbs val (shift mod 64)) as [[v0 v1] v2].
    destruct Hlimbs as (H0 & H1 & H2 & Hsum).
    pose proof (Z.div_pos shift 64 ltac:(lia) ltac:(lia)) as Hq.
    set (i := Z.to_nat (shift / 64)) in *.
    assert (Hpow : val * 2 ^ shift
                   = (v0 + v1 * 2 ^ 64 + v2 * 2 ^ 128) * weight i).
    { rewrite (pow2_shift_split shift) by lia. fold i.
      rewrite Z.mul_assoc, <- Hsum. ring. }
    assert (Hnz : 0 < v0 + v1 * 2 ^ 64 + v2 * 2 ^ 128).
    { rewrite Hsum. pose proof (pow2_pos (shift mod 64) ltac:(lia)). nia. }
    rewrite Hpow.
    assert (HACC : ACC_LIMBS = 66%nat) by reflexivity.
    destruct (Nat.le_gt_cases i 63) as [Hlo | Hhi];
      [| destruct (Nat.eq_dec i 64) as [E64 | N64];
         [| destruct (Nat.eq_dec i 65) as [E65 | N65]]].
    + pose proof (add_words_inside a o v0 v1 v2 Hwf H0 H1 H2 i Hlo) as H.
      cbv zeta in H |- *. now three_words H.
    + pose proof (add_words_from_64 a o v0 v1 v2 Hwf H0 H1 H2) as H.
      rewrite E64. change (64 + 1)%nat with 65%nat.
      change (64 + 2)%nat with 66%nat. change (64 + 3)%nat with 67%nat.
      cbv zeta in H |- *. now three_words H.
    + pose proof (add_words_from_65 a o v0 v1 v2 Hwf H0 H1 H2) as H.
      rewrite E65. change (65 + 1)%nat with 66%nat.
      change (65 + 2)%nat with 67%nat. change (65 + 3)%nat with 68%nat.
      cbv zeta in H |- *. now three_words H.
    + pose proof (add_words_outside a o v0 v1 v2 Hwf H0 H1 H2 i
                    ltac:(lia) Hnz) as H.
      cbv zeta in H |- *. now three_words H.
Qed.

(** X7.  For every shift, also one that reaches past the last limb,
    [bigu_add_shifted_u128] leaves in the accumulator the sum modulo
    [2^4224], and the overflow flag afterwards is the flag before or-ed with
    the sum having reached [2^4224]: words that fall outside are dropped and
    reported, never written. *)
Theorem bigu_add_shifted_u128_any_shift (a : bigu_t) (val shift : Z)
  (o : bool) :
  bigu_wf a -> 0 <= val < 2 ^ 128 -> 0 <= shift ->
  let r := bigu_add_shifted_u128 a val shift o in
  bigu_wf (fst r) /\
  bigu_val (fst r) = (bigu_val a + val * 2 ^ shift) mod weight ACC_LIMBS /\
  snd r = o || (weight ACC_LIMBS <=? bigu_val a + val * 2 ^ shift).
Proof.
  intros Hwf Hval Hshift r. subst r.
  rewrite (bigu_add_shifted_u128_all a val shift o Hwf Hval Hshift).
  cbn [fst snd]. split; [apply bigu_wf_of_Z |].
  split; [apply bigu_val_of_Z | reflexivity].
Qed.

Lemma bigu_add_shifted_u128_any_shift_witness :
  let r := bigu_add_shifted_u128 (bigu_of_Z 7) (2 ^ 127 + 1) 4100 false in
  bigu_wf (fst r) /\
  bigu_val (fst r)
  = (bigu_val (bigu_of_Z 7) + (2 ^ 127 + 1) * 2 ^ 4100) mod weight ACC_LIMBS /\
  snd r
  = false || (weight ACC_LIMBS
              <=? bigu_val (bigu_of_Z 7) + (2 ^ 127 + 1) * 2 ^ 4100).
Proof.
  apply (bigu_add_shifted_u128_any_shift (bigu_of_Z 7) (2 ^ 127 + 1) 4100
           false).
  - apply bigu_wf_of_Z.
  - lia.
  - lia.
Defined.

Lemma bigu_add_shifted_u128_pair (a : bigu_t) (v1 s1 v2 s2 : Z) (o : bool) :
  bigu_wf a -> 0 <= v1 < 2 ^ 128 -> 0 <= s1 -> 0 <= v2 < 2 ^ 128 -> 0 <= s2 ->
  bigu_add_shifted_u128 (fst (bigu_add_shifted_u128 a v1 s1 o)) v2 s2
    (snd (bigu_add_shifted_u128 a v1 s1 o))
  = (bigu_of_Z (bigu_val a + (v1 * 2 ^ s1 + v2 * 2 ^ s2)),
     o || (weight ACC_LIMBS <=? bigu_val a + (v1 * 2 ^ s1 + v2 * 2 ^ s2))).
Proof.
  intros Hwf Hv1 Hs1 Hv2 Hs2.
  rewrite (bigu_add_shifted_u128_all a v1 s1 o Hwf Hv1 Hs1). cbn [fst snd].
  rewrite (bigu_add_shifted_u128_all _ v2 s2 _ (bigu_wf_of_Z _) Hv2 Hs2).
  rewrite bigu_val_of_Z, bigu_of_Z_add_mod, Z.add_assoc.
  f_equal. rewrite <- orb_assoc. f_equal.
  pose proof (bigu_val_bound a (proj2 Hwf)) as Hb. rewrite (proj1 Hwf) in Hb.
  pose proof (pow2_pos s1 Hs1). pose proof (pow2_pos s2 Hs2).
  rewrite <- Z.add_assoc. apply overflow_accum; [exact Hb | nia | nia].
Qed.

(** X8.  Two additions into the same accumulator commute, overflow flag
    included: in either order the limbs hold the total modulo [2^4224] and
    the flag tells whether the total reached [2^4224]. *)
Theorem bigu_add_shifted_u128_commutes (a : bigu_t) (v1 s1 v2 s2 : Z)
  (o : bool) :
  bigu_wf a -> 0 <= v1 < 2 ^ 128 -> 0 <= s1 -> 0 <= v2 < 2 ^ 128 -> 0 <= s2 ->
  let r1 := bigu_add_shifted_u128 a v1 s1 o in
  let r2 := bigu_add_shifted_u128 a v2 s2 o in
  let r12 := bigu_add_shifted_u128 (fst r1) v2 s2 (snd r1) in
  let r21 := bigu_add_shifted_u128 (fst r2) v1 s1 (snd r2) in
  r12 = r21 /\
  bigu_val (fst r12)
  = (bigu_val a + v1 * 2 ^ s1 + v2 * 2 ^ s2) mod weight ACC_LIMBS /\
  snd r12
  = o || (weight ACC_LIMBS <=? bigu_val a + v1 * 2 ^ s1 + v2 * 2 ^ s2).
Proof.
  intros Hwf Hv1 Hs1 Hv2 Hs2. cbv zeta.
  rewrite (bigu_add_shifted_u128_pair a v1 s1 v2 s2 o) by assumption.
  rewrite (bigu_add_shifted_u128_pair a v2 s2 v1 s1 o) by assumption.
  rewrite (Z.add_comm (v2 * 2 ^ s2)). cbn [fst snd].
  rewrite Z.add_assoc.
  split; [reflexivity |]. split; [apply bigu_val_of_Z | reflexivity].
Qed.

Lemma bigu_add_shifted_u128_commutes_witness :
  let r1 := bigu_add_shifted_u128 (bigu_of_Z 7) (2 ^ 100) 4000 false in
  let r2 := bigu_add_shifted_u128 (bigu_of_Z 7) 5 3 false in
  let r12 := bigu_add_shifted_u128 (fst r1) 5 3 (snd r1) in
  let r21 := bigu_add_shifted_u128 (fst r2) (2 ^ 100) 4000 (snd r2) in
  r12 = r21 /\
  bigu_val (fst r12)
  = (bigu_val (bigu_of_Z 7) + 2 ^ 100 * 2 ^ 4000 + 5 * 2 ^ 3)
      mod weight ACC_LIMBS /\
  snd r12
  = false || (weight ACC_LIMBS
              <=? bigu_val (bigu_of_Z 7) + 2 ^ 100 * 2 ^ 4000 + 5 * 2 ^ 3).
Proof.
  apply (bigu_add_shifted_u128_commutes (bigu_of_Z 7) (2 ^ 100) 4000 5 3
           false).
  - apply bigu_wf_of_Z.
  - lia.
  - lia.
  - lia.
  - lia.
Defined.

(** ** Comparison and subtraction *)

(** X9.  On accumulators of [ACC_LIMBS] 64-bit limbs, [bigu_cmp] is the order
    of the integers they denote: [-1] for less, [0] exactly for equal limbs,
    [+1] for greater; exchanging the arguments negates the result. *)
Theorem bigu_cmp_order (a b : bigu_t) :
  bigu_wf a -> bigu_wf b ->
  (bigu_cmp a b = -1 <-> bigu_val a < bigu_val b) /\
  (bigu_cmp a b = 0 <-> a = b) /\
  (bigu_cmp a b = 1 <-> bigu_val b < bigu_val a) /\
  bigu_cmp b a = - bigu_cmp a b.
Proof.
  intros Ha Hb. rewrite (bigu_cmp_swap a b).
  rewrite (bigu_cmp_spec a b Ha Hb).
  split; [| split; [| split; [| reflexivity]]].
  - split; intros H; lia.
  - split; intros H.
    + apply bigu_val_inj; try apply Ha; try apply Hb.
      * now rewrite (proj1 Ha), (proj1 Hb).
      * lia.
    + subst b. lia.
  - split; intros H; lia.
Qed.

Lemma bigu_cmp_order_witness :
  (bigu_cmp (bigu_of_Z 5) (bigu_of_Z (2 ^ 70)) = -1
   <-> bigu_val (bigu_of_Z 5) < bigu_val (bigu_of_Z (2 ^ 70))) /\
  (bigu_cmp (bigu_of_Z 5) (bigu_of_Z (2 ^ 70)) = 0
   <-> bigu_of_Z 5 = bigu_of_Z (2 ^ 70)) /\
  (bigu_cmp (bigu_of_Z 5) (bigu_of_Z (2 ^ 70)) = 1
   <-> bigu_val (bigu_of_Z (2 ^ 70)) < bigu_val (bigu_of_Z 5)) /\
  bigu_cmp (bigu_of_Z (2 ^ 70)) (bigu_of_Z 5)
  = - bigu_cmp (bigu_of_Z 5) (bigu_of_Z (2 ^ 70)).
Proof.
  apply (bigu_cmp_order (bigu_of_Z 5) (bigu_of_Z (2 ^ 70)));
    apply bigu_wf_of_Z.
Defined.

(** No limb sum wraps when the limbs of [b] from [i] on are below
    [0xFFFFFFFFFFFFFFFF]. *)
Lemma sub_wraps_loop_none (k : nat) :
  forall i a b borrow,
  limbs_ok a -> limbs_ok b -> 0 <= borrow <= 1 ->
  (forall j, (i <= j)%nat -> limb b j < 2 ^ 64 - 1) ->
  sub_wraps_loop k i a b borrow = false.
Proof.
  induction k as [| k IH]; intros i a b borrow Ha Hb Hbw Hmax;
    [reflexivity |].
  rewrite sub_wraps_loop_S. cbv zeta.
  pose proof (Hmax i (Nat.le_refl i)) as Hi.
  pose proof (limb_is_u64 a i Ha) as Hai.
  pose proof (limb_is_u64 b i Hb) as Hbi.
  assert (Hbi' : is_u64 (limb b i + borrow)) by (unfold is_u64 in *; lia).
  apply orb_false_iff. split.
  - apply Z.leb_gt. lia.
  - rewrite (u64_small (limb b i + borrow)) by assumption.
    destruct (sub_limb_step (limb a i) (limb b i + borrow) Hai Hbi')
      as [Hbw' _].
    apply IH; try assumption. intros j Hj. apply Hmax. lia.
Qed.

Lemma Forall_limb_lt (b : bigu_t) (B : Z) :
  0 < B -> Forall (fun w => w < B) b -> forall j, limb b j < B.
Proof.
  intros HB Hall j. unfold limb.
  destruct (Nat.lt_ge_cases j (length b)) as [Hlt | Hge].
  - rewrite Forall_forall in Hall. apply Hall. now apply nth_In.
  - now rewrite nth_overflow.
Qed.

Lemma Forall_ltb (B : Z) (b : bigu_t) :
  forallb (fun w => w <? B) b = true -> Forall (fun w => w < B) b.
Proof.
  intros H. apply Forall_forall. intros w Hw.
  rewrite forallb_forall in H. apply Z.ltb_lt. now apply H.
Qed.

(** X10.  When no limb of [b] is [0xFFFFFFFFFFFFFFFF], [bigu_sub] into a
    cleared accumulator computes the difference modulo [2^4224]: the sum
    [b->limb[i] + borrow] then never wraps. *)
Theorem bigu_sub_exact (a b : bigu_t) :
  bigu_wf a -> bigu_wf b ->
  Forall (fun w => w < 2 ^ 64 - 1) b ->
  bigu_wf (bigu_sub a b bigu_clear) /\
  bigu_val (bigu_sub a b bigu_clear)
  = (bigu_val a - bigu_val b) mod weight ACC_LIMBS.
Proof.
  intros [Hla Ha] [Hlb Hb] Hmax.
  pose proof (bigu_wf_sub a b) as Hwf. split; [exact Hwf |].
  pose proof bigu_wf_clear as [Hl0 Hok0].
  assert (Hlow : bigu_val bigu_clear < weight 0).
  { rewrite bigu_val_clear, weight_0. lia. }
  assert (Hnw : sub_wraps_loop ACC_LIMBS 0 a b 0 = false).
  { apply sub_wraps_loop_none; try assumption; [lia |].
    intros j _. apply Forall_limb_lt; [lia | assumption]. }
  destruct (bigu_sub_loop_spec ACC_LIMBS 0 a b bigu_clear 0 Ha Hb Hok0
              ltac:(congruence) ltac:(congruence) ltac:(now rewrite Hl0)
              Hlow ltac:(lia) Hnw)
    as (bout & Hbout & Hval).
  destruct Hwf as [Hlc Hc].
  pose proof (bigu_val_bound _ Hc) as Hbc. rewrite Hlc in Hbc.
  unfold bigu_sub in Hbc |- *.
  rewrite bigu_val_clear, weight_0, !Z.div_1_r, Nat.add_0_l in Hval.
  pose proof (weight_pos ACC_LIMBS) as HW.
  remember (bigu_val (bigu_sub_loop ACC_LIMBS 0 a b bigu_clear 0)) as r.
  remember (weight ACC_LIMBS) as W.
  assert (E : bigu_val a - bigu_val b = r + (- bout) * W) by lia.
  rewrite E, Z.mod_add by lia. symmetry. apply Z.mod_small. exact Hbc.
Qed.

Lemma bigu_sub_exact_witness :
  bigu_wf (bigu_sub (bigu_of_Z (2 ^ 200)) (bigu_of_Z (2 ^ 70 + 9)) bigu_clear)
  /\ bigu_val (bigu_sub (bigu_of_Z (2 ^ 200)) (bigu_of_Z (2 ^ 70 + 9))
                 bigu_clear)
     = (bigu_val (bigu_of_Z (2 ^ 200)) - bigu_val (bigu_of_Z (2 ^ 70 + 9)))
         mod weight ACC_LIMBS.
Proof.
  apply (bigu_sub_exact (bigu_of_Z (2 ^ 200)) (bigu_of_Z (2 ^ 70 + 9))).
  - apply bigu_wf_of_Z.
  - apply bigu_wf_of_Z.
  - apply Forall_ltb. vm_compute. reflexivity.
Defined.

Lemma limb_skipn (i : nat) : forall (b : bigu_t) (j : nat),
  limb (skipn i b) j = limb b (i + j).
Proof.
  unfold limb. induction i as [| i IH]; intros b j; [reflexivity |].
  destruct b as [| h t]; [now destruct j | apply IH].
Qed.

(** X11.  The borrow [bigu_sub] loses.  When limb 0 borrows and limb 1 of
    [b] is [0xFFFFFFFFFFFFFFFF], the sum [b->limb[1] + borrow] wraps to [0]
    in [uint64_t]: limb 1 of the result is limb 1 of [a] and no borrow is
    passed on, so that (the higher limbs of [b] being smaller) the result
    is the difference plus [2^128], modulo [2^4224]. *)
Theorem bigu_sub_drops_borrow (a b : bigu_t) :
  bigu_wf a -> bigu_wf b ->
  limb a 0 < limb b 0 ->
  limb b 1 = 2 ^ 64 - 1 ->
  Forall (fun w => w < 2 ^ 64 - 1) (skipn 2 b) ->
  limb (bigu_sub a b bigu_clear) 1 = limb a 1 /\
  bigu_val (bigu_sub a b bigu_clear)
  = (bigu_val a - bigu_val b + 2 ^ 128) mod weight ACC_LIMBS.
Proof.
  intros [Hla Ha] [Hlb Hb] Hlt Hmax1 Hall.
  assert (Hmax : forall j, (2 <= j)%nat -> limb b j < 2 ^ 64 - 1).
  { intros j Hj. replace j with (2 + (j - 2))%nat by lia.
    rewrite <- limb_skipn. apply Forall_limb_lt; [lia | exact Hall]. }
  clear Hall.
  pose proof (bigu_wf_sub a b) as [Hlc Hc].
  pose proof (bigu_val_bound _ Hc) as Hbc. rewrite Hlc in Hbc.
  pose proof bigu_wf_clear as [Hl0 Hok0].
  pose proof (limb_is_u64 a 0 Ha) as Ha0.
  pose proof (limb_is_u64 b 0 Hb) as Hb0.
  pose proof (limb_is_u64 a 1 Ha) as Ha1.
  unfold bigu_sub in Hbc |- *.
  assert (Hunf : forall c borrow,
    bigu_sub_loop ACC_LIMBS 0 a b c borrow
    = let d0 := u128 (limb a 0 - u64 (limb b 0 + borrow)) in
      let bw0 := u64 (Z.land (Z.shiftr d0 64) 1) in
      let d1 := u128 (limb a 1 - u64 (limb b 1 + bw0)) in
      bigu_sub_loop 64 2 a b (set_limb (set_limb c 0 (u64 d0)) 1 (u64 d1))
        (u64 (Z.land (Z.shiftr d1 64) 1))).
  { intros c borrow. unfold ACC_LIMBS.
    rewrite (bigu_sub_loop_S 65 0). cbv zeta.
    rewrite (bigu_sub_loop_S 64 1). reflexivity. }
  rewrite Hunf in Hbc |- *. clear Hunf. cbv zeta in Hbc |- *.
  rewrite Z.add_0_r in Hbc |- *.
  rewrite (u64_small (limb b 0) Hb0) in Hbc |- *.
  destruct (sub_limb_step (limb a 0) (limb b 0) Ha0 Hb0) as [Hbw0 Hstep0].
  cbv zeta in Hbw0, Hstep0.
  set (d0 := u128 (limb a 0 - limb b 0)) in *.
  pose proof (u64_is_u64 d0) as Hv0. set (c0 := u64 d0) in *.
  assert (Hb1 : u64 (Z.land (Z.shiftr d0 64) 1) = 1)
    by (unfold is_u64 in *; lia).
  rewrite Hb1 in Hbc |- *. rewrite Hmax1 in Hbc |- *.
  change (u64 (2 ^ 64 - 1 + 1)) with 0 in Hbc |- *.
  rewrite Z.sub_0_r in Hbc |- *.
  assert (Hd1 : u128 (limb a 1) = limb a 1)
    by (apply u128_small; unfold is_u64 in Ha1; lia).
  rewrite Hd1 in Hbc |- *. rewrite (u64_small (limb a 1) Ha1) in Hbc |- *.
  assert (Hbw1 : u64 (Z.land (Z.shiftr (limb a 1) 64) 1) = 0).
  { rewrite Z.shiftr_div_pow2 by lia. unfold is_u64 in Ha1.
    rewrite Z.div_small by lia. reflexivity. }
  rewrite Hbw1 in Hbc |- *.
  set (c := set_limb (set_limb bigu_clear 0 c0) 1 (limb a 1)) in *.
  assert (Hokc : limbs_ok c).
  { subst c. apply limbs_ok_set_limb; [| exact Ha1].
    apply limbs_ok_set_limb; [exact Hok0 | exact Hv0]. }
  assert (Hlenc : length c = ACC_LIMBS).
  { subst c. now rewrite !length_set_limb. }
  assert (Hvalc : bigu_val c = c0 + limb a 1 * 2 ^ 64).
  { subst c. rewrite bigu_val_set_limb
      by (rewrite length_set_limb, Hl0; unfold ACC_LIMBS; lia).
    rewrite limb_set_limb_other by lia.
    rewrite bigu_val_set_limb by (rewrite Hl0; unfold ACC_LIMBS; lia).
    rewrite bigu_val_clear.
    assert (Hz : forall j, limb bigu_clear j = 0).
    { intros j. unfold limb, bigu_clear.
      destruct (Nat.lt_ge_cases j ACC_LIMBS).
      - now rewrite nth_repeat.
      - apply nth_overflow. now rewrite repeat_length. }
    rewrite !Hz. change (weight 1) with (2 ^ 64). rewrite weight_0. ring. }
  split.
  - rewrite limb_bigu_sub_loop_below by lia.
    subst c. apply limb_set_limb_same. rewrite length_set_limb, Hl0.
    unfold ACC_LIMBS. lia.
  - assert (Hnw : sub_wraps_loop 64 2 a b 0 = false)
      by (apply sub_wraps_loop_none; try assumption; lia).
    assert (W2 : weight 2 = 2 ^ 128) by reflexivity.
    destruct (bigu_sub_loop_spec 64 2 a b c 0 Ha Hb Hokc
                ltac:(congruence) ltac:(congruence)
                ltac:(now rewrite Hlenc)
                ltac:(rewrite Hvalc, W2; unfold is_u64 in *; lia)
                ltac:(lia) Hnw)
      as (bout & Hbout & Hval).
    change (2 + 64)%nat with ACC_LIMBS in Hval.
    pose proof (val_div_weight_S a 0 Ha) as A0.
    pose proof (val_div_weight_S a 1 Ha) as A1.
    pose proof (val_div_weight_S b 0 Hb) as B0.
    pose proof (val_div_weight_S b 1 Hb) as B1.
    rewrite weight_0, Z.div_1_r in A0, B0.
    change (weight 1) with (2 ^ 64) in A0, A1, B0, B1.
    change (weight 2) with (2 ^ 128) in A1, B1, W2, Hval.
    rewrite Hmax1 in B1.
    pose proof (weight_pos ACC_LIMBS) as HW.
    remember (bigu_val (bigu_sub_loop 64 2 a b c 0)) as r.
    remember (weight ACC_LIMBS) as W.
    remember (bigu_val a / 2 ^ 128) as A2.
    remember (bigu_val b / 2 ^ 128) as B2.
    remember (bigu_val a / 2 ^ 64) as A1'.
    remember (bigu_val b / 2 ^ 64) as B1'.
    assert (E : bigu_val a - bigu_val b + 2 ^ 128 = r + (- bout) * W).
    { rewrite Hval, Hvalc, A0, B0, A1, B1. lia. }
    rewrite E, Z.mod_add by lia. symmetry. apply Z.mod_small. exact Hbc.
Qed.

Lemma bigu_sub_drops_borrow_witness :
  limb (bigu_sub (bigu_of_Z (2 ^ 128)) (bigu_of_Z (2 ^ 128 - 2 ^ 64 + 1))
          bigu_clear) 1
  = limb (bigu_of_Z (2 ^ 128)) 1 /\
  bigu_val (bigu_sub (bigu_of_Z (2 ^ 128)) (bigu_of_Z (2 ^ 128 - 2 ^ 64 + 1))
              bigu_clear)
  = (bigu_val (bigu_of_Z (2 ^ 128))
     - bigu_val (bigu_of_Z (2 ^ 128 - 2 ^ 64 + 1)) + 2 ^ 128)
      mod weight ACC_LIMBS.
Proof.
  apply (bigu_sub_drops_borrow (bigu_of_Z (2 ^ 128))
           (bigu_of_Z (2 ^ 128 - 2 ^ 64 + 1))).
  - apply bigu_wf_of_Z.
  - apply bigu_wf_of_Z.
  - vm_compute. reflexivity.
  - vm_compute. reflexivity.
  - apply Forall_ltb. vm_compute. reflexivity.
Defined.

(** ** Bit positions and windows *)

(** X12.  [bigu_msb_index] returns [-1] exactly for the zero accumulator,
    and otherwise the position [m] of the leading bit:
    [2^m <= value < 2^(m+1)], with [0 <= m < 4224]. *)
Theorem bigu_msb_index_bounds (a : bigu_t) :
  bigu_wf a ->
  (bigu_msb_index a = -1 <-> bigu_val a = 0) /\
  (bigu_val a <> 0 ->
   0 <= bigu_msb_index a < Z.of_nat ACC_LIMBS * 64 /\
   2 ^ bigu_msb_index a <= bigu_val a < 2 ^ (bigu_msb_index a + 1)).
Proof.
  intros Ha. rewrite (bigu_msb_index_spec a Ha).
  pose proof (bigu_val_bound a (proj2 Ha)) as Hb. rewrite (proj1 Ha) in Hb.
  destruct (Z.eqb_spec (bigu_val a) 0) as [Hz | Hnz].
  - split; [split; auto | intros H; contradiction].
  - assert (Hpos : 0 < bigu_val a) by lia.
    pose proof (Z.log2_spec (bigu_val a) Hpos) as Hl.
    pose proof (Z.log2_nonneg (bigu_val a)) as Hl0.
    split; [split; intros H; lia |]. intros _.
    split; [split; [exact Hl0 |] |].
    + apply Z.log2_lt_pow2; [exact Hpos |].
      unfold weight in Hb. rewrite Z.mul_comm. apply Hb.
    + replace (Z.log2 (bigu_val a) + 1) with (Z.succ (Z.log2 (bigu_val a)))
        by lia. exact Hl.
Qed.

Lemma bigu_msb_index_bounds_witness :
  (bigu_msb_index (bigu_of_Z (2 ^ 70 + 3)) = -1
   <-> bigu_val (bigu_of_Z (2 ^ 70 + 3)) = 0) /\
  (bigu_val (bigu_of_Z (2 ^ 70 + 3)) <> 0 ->
   0 <= bigu_msb_index (bigu_of_Z (2 ^ 70 + 3)) < Z.of_nat ACC_LIMBS * 64 /\
   2 ^ bigu_msb_index (bigu_of_Z (2 ^ 70 + 3))
   <= bigu_val (bigu_of_Z (2 ^ 70 + 3))
   < 2 ^ (bigu_msb_index (bigu_of_Z (2 ^ 70 + 3)) + 1)).
Proof.
  apply (bigu_msb_index_bounds (bigu_of_Z (2 ^ 70 + 3))). apply bigu_wf_of_Z.
Defined.

Lemma bit_scan_S (fuel : nat) (w bit : Z) :
  bit_scan (S fuel) w bit
  = if (0 <=? bit) && (Z.land (Z.shiftr w bit) 1 =? 0)
    then bit_scan fuel w (bit - 1) else bit.
Proof. reflexivity. Qed.

Lemma bit_scan_spec (fuel : nat) :
  forall w bit,
  -1 <= bit -> 0 <= w < 2 ^ (bit + 1) -> bit + 1 < Z.of_nat fuel ->
  bit_scan fuel w bit = if w =? 0 then -1 else Z.log2 w.
Proof.
  induction fuel as [| fuel IH]; intros w bit Hbit Hw Hfuel; [lia |].
  rewrite bit_scan_S.
  destruct (Z.leb_spec 0 bit) as [Hge | Hlt].
  - rewrite andb_true_l, land_1, Z.shiftr_div_pow2 by lia.
    pose proof (pow2_pos bit Hge) as Hp.
    assert (Hpow : 2 ^ (bit + 1) = 2 * 2 ^ bit)
      by (rewrite Z.pow_add_r by lia; ring).
    assert (Hq : 0 <= w / 2 ^ bit < 2).
    { split; [apply Z.div_pos; lia | apply Z.div_lt_upper_bound; lia]. }
    rewrite Z.mod_small by lia.
    destruct (Z.eqb_spec (w / 2 ^ bit) 0) as [Hz | Hnz].
    + apply IH; try lia.
      replace (bit - 1 + 1) with bit by lia.
      split; [lia |].
      apply Z.div_small_iff in Hz; lia.
    + assert (Hlo : 2 ^ bit <= w).
      { destruct (Z.lt_ge_cases w (2 ^ bit)) as [Hs | Hs]; [| exact Hs].
        rewrite Z.div_small in Hnz by lia. contradiction. }
      assert (Hw0 : (w =? 0) = false) by (apply Z.eqb_neq; lia).
      rewrite Hw0. symmetry. apply Z.log2_unique; lia.
  - assert (bit = -1) as -> by lia.
    change (2 ^ (-1 + 1)) with 1 in Hw.
    assert (w = 0) as -> by lia. reflexivity.
Qed.

Lemma msb_bit_portable_spec (w : Z) :
  is_u64 w -> msb_bit_portable w = if w =? 0 then -1 else Z.log2 w.
Proof.
  intros Hw. unfold msb_bit_portable.
  apply bit_scan_spec; [lia | exact Hw | reflexivity].
Qed.

(** X13.  The two preprocessor branches of [bigu_msb_index] agree: on every
    non-zero limb the portable bit scan stops at [63 - __builtin_clzll(w)],
    so both versions of the function return the same index. *)
Theorem bigu_msb_index_portable_agrees (a : bigu_t) :
  limbs_ok a ->
  (forall i, limb a i <> 0 ->
     msb_bit_portable (limb a i) = 63 - builtin_clzll (limb a i)) /\
  bigu_msb_index_portable a = bigu_msb_index a.
Proof.
  intros Ha.
  assert (Hbit : forall i, limb a i <> 0 ->
            msb_bit_portable (limb a i) = 63 - builtin_clzll (limb a i)).
  { intros i Hnz. rewrite msb_bit_portable_spec by now apply limb_is_u64.
    apply Z.eqb_neq in Hnz. rewrite Hnz. unfold builtin_clzll. ring. }
  split; [exact Hbit |].
  unfold bigu_msb_index_portable, bigu_msb_index.
  induction ACC_LIMBS as [| k IH]; [reflexivity |].
  cbn [bigu_msb_from_portable bigu_msb_from]. cbv zeta.
  destruct (Z.eqb_spec (limb a k) 0) as [Hz | Hnz]; cbn [negb].
  - exact IH.
  - now rewrite Hbit.
Qed.

Lemma bigu_msb_index_portable_agrees_witness :
  (forall i, limb (bigu_of_Z (2 ^ 70 + 3)) i <> 0 ->
     msb_bit_portable (limb (bigu_of_Z (2 ^ 70 + 3)) i)
     = 63 - builtin_clzll (limb (bigu_of_Z (2 ^ 70 + 3)) i)) /\
  bigu_msb_index_portable (bigu_of_Z (2 ^ 70 + 3))
  = bigu_msb_index (bigu_of_Z (2 ^ 70 + 3)).
Proof.
  apply (bigu_msb_index_portable_agrees (bigu_of_Z (2 ^ 70 + 3))).
  apply bigu_wf_of_Z.
Defined.

(** X14.  For a start position at or above bit 0, [bigu_extract_bits64]
    returns the [count] bits of the value from [start] up, for every [count]
    from 1 to 64, limb boundaries and positions past the last limb (which
    read as zero) included; a [count] of zero or less gives [0]. *)
Theorem bigu_extract_bits64_window (a : bigu_t) (start count : Z) :
  bigu_wf a -> 0 <= start ->
  (1 <= count <= 64 ->
   bigu_extract_bits64 a start count = (bigu_val a / 2 ^ start) mod 2 ^ count) /\
  (count <= 0 -> bigu_extract_bits64 a start count = 0).
Proof.
  intros Ha Hs. split.
  - intros Hc.
    destruct (Z.ltb_spec start (Z.of_nat ACC_LIMBS * 64)) as [Hlt | Hge].
    + apply bigu_extract_bits64_spec; [exact Ha | lia | exact Hc].
    + unfold bigu_extract_bits64.
      assert (Hc0 : (count <=? 0) = false) by (apply Z.leb_gt; lia).
      assert (Hs0 : (Z.of_nat ACC_LIMBS * 64 <=? start) = true)
        by (apply Z.leb_le; lia).
      rewrite Hc0, Hs0.
      pose proof (bigu_val_bound a (proj2 Ha)) as Hb.
      rewrite (proj1 Ha) in Hb. unfold weight in Hb.
      assert (Hp : 2 ^ (64 * Z.of_nat ACC_LIMBS) <= 2 ^ start)
        by (apply Z.pow_le_mono_r; lia).
      rewrite Z.div_small by lia. symmetry. apply Z.mod_0_l.
      apply Z.pow_nonzero; lia.
  - intros Hc. unfold bigu_extract_bits64.
    assert (Hc0 : (count <=? 0) = true) by (apply Z.leb_le; lia).
    now rewrite Hc0.
Qed.

Lemma bigu_extract_bits64_window_witness :
  (1 <= 8 <= 64 ->
   bigu_extract_bits64 (bigu_of_Z (0xABCD * 2 ^ 60)) 60 8
   = (bigu_val (bigu_of_Z (0xABCD * 2 ^ 60)) / 2 ^ 60) mod 2 ^ 8) /\
  (8 <= 0 -> bigu_extract_bits64 (bigu_of_Z (0xABCD * 2 ^ 60)) 60 8 = 0).
Proof.
  apply (bigu_extract_bits64_window (bigu_of_Z (0xABCD * 2 ^ 60)) 60 8).
  - apply bigu_wf_of_Z.
  - lia.
Defined.

(** X15.  For an index up to [4224], [bigu_has_any_below] is true exactly
    when the index is positive and some bit of the value below it is set. *)
Theorem bigu_has_any_below_iff (a : bigu_t) (idx : Z) :
  bigu_wf a -> idx <= Z.of_nat ACC_LIMBS * 64 ->
  (bigu_has_any_below a idx = true
   <-> 0 < idx /\ bigu_val a mod 2 ^ idx <> 0).
Proof.
  intros Ha Hi.
  destruct (Z.leb_spec idx 0) as [Hle | Hgt].
  - unfold bigu_has_any_below.
    assert (H0 : (idx <=? 0) = true) by (apply Z.leb_le; lia).
    rewrite H0. split; [discriminate | intros [H _]; lia].
  - destruct (Z.ltb_spec idx (Z.of_nat ACC_LIMBS * 64)) as [Hlt | Hge].
    + rewrite bigu_has_any_below_spec by (assumption || lia).
      rewrite negb_true_iff, Z.eqb_neq. split; [auto | intros [_ H]; exact H].
    + assert (idx = Z.of_nat ACC_LIMBS * 64) as -> by lia.
      unfold bigu_has_any_below.
      change (Z.of_nat ACC_LIMBS * 64 <=? 0) with false.
      change (Z.quot (Z.of_nat ACC_LIMBS * 64) 64) with (Z.of_nat ACC_LIMBS).
      change (Z.rem (Z.of_nat ACC_LIMBS * 64) 64) with 0.
      cbv zeta iota. rewrite Nat2Z.id.
      rewrite existsb_limbs_nonzero by apply Ha.
      rewrite (val_low_all a Ha).
      change (0 <? 0) with false. rewrite andb_false_l.
      pose proof (bigu_val_bound a (proj2 Ha)) as Hb.
      rewrite (proj1 Ha) in Hb. unfold weight in Hb.
      rewrite (Z.mul_comm (Z.of_nat ACC_LIMBS) 64).
      rewrite Z.mod_small by exact Hb.
      destruct (Z.eqb_spec (bigu_val a) 0) as [Hz | Hnz]; cbn.
      * split; [discriminate | intros [_ H]; contradiction].
      * split; [intros _; split; [reflexivity | exact Hnz] | reflexivity].
Qed.

Lemma bigu_has_any_below_iff_witness :
  bigu_has_any_below (bigu_of_Z (2 ^ 100)) 101 = true
  <-> 0 < 101 /\ bigu_val (bigu_of_Z (2 ^ 100)) mod 2 ^ 101 <> 0.
Proof.
  apply (bigu_has_any_below_iff (bigu_of_Z (2 ^ 100)) 101).
  - apply bigu_wf_of_Z.
  - unfold ACC_LIMBS. lia.
Defined.

(** ** The finalizer *)

(** X16.  The sign bit of [finalize_to_double] is set exactly when [Pos] is
    smaller than [Neg], also when the magnitude underflows to zero (the
    result is then [-0.0]); on unequal accumulators, exchanging them flips
    bit 63 of the result and nothing else. *)
Theorem finalize_to_double_sign (Pos Neg : bigu_t) :
  bigu_wf Pos -> bigu_wf Neg ->
  Z.testbit (finalize_to_double Pos Neg) 63
  = (bigu_val Pos <? bigu_val Neg) /\
  (bigu_val Pos <> bigu_val Neg ->
   finalize_to_double Neg Pos = b64_neg (finalize_to_double Pos Neg)).
Proof.
  intros Hp Hn.
  split; [| exact (proj2 (finalize_to_double_swap Pos Neg Hp Hn))].
  rewrite finalize_to_double_eq. cbv zeta.
  pose proof (bigu_cmp_spec Pos Neg Hp Hn) as Hc.
  assert (Hbit : forall M sgn, 0 <= M < 2 ^ 63 ->
            Z.testbit (sign_bit sgn + M) 63 = (sgn <? 0)).
  { intros M sgn HM. rewrite Z.testbit_eqb by lia. unfold sign_bit.
    destruct (sgn <? 0).
    - replace (2 ^ 63 + M) with (M + 1 * 2 ^ 63) by ring.
      rewrite Z.div_add by lia. rewrite Z.div_small by lia. reflexivity.
    - rewrite Z.add_0_l, Z.div_small by lia. reflexivity. }
  destruct (Z.eqb_spec (bigu_cmp Pos Neg) 0) as [Hz | Hnz].
  - rewrite Hz in Hc. symmetry. apply Z.ltb_ge. lia.
  - destruct (Z.ltb_spec 0 (bigu_cmp Pos Neg)) as [Hgt | Hle].
    + pose proof (bigu_sub_nonzero Pos Neg Hp Hn Hnz) as Hmsb.
      destruct (round_and_pack_sign _ Hmsb) as (M & HM & Hpack).
      rewrite Hpack, Hbit by exact HM.
      change (1 <? 0) with false. symmetry. apply Z.ltb_ge. lia.
    + assert (Hnz' : bigu_cmp Neg Pos <> 0)
        by (rewrite bigu_cmp_swap; lia).
      pose proof (bigu_sub_nonzero Neg Pos Hn Hp Hnz') as Hmsb.
      destruct (round_and_pack_sign _ Hmsb) as (M & HM & Hpack).
      rewrite Hpack, Hbit by exact HM.
      change (-1 <? 0) with true. symmetry. apply Z.ltb_lt. lia.
Qed.

Lemma finalize_to_double_sign_witness :
  Z.testbit (finalize_to_double (bigu_of_Z 1) (bigu_of_Z 2)) 63
  = (bigu_val (bigu_of_Z 1) <? bigu_val (bigu_of_Z 2)) /\
  (bigu_val (bigu_of_Z 1) <> bigu_val (bigu_of_Z 2) ->
   finalize_to_double (bigu_of_Z 2) (bigu_of_Z 1)
   = b64_neg (finalize_to_double (bigu_of_Z 1) (bigu_of_Z 2))).
Proof.
  apply (finalize_to_double_sign (bigu_of_Z 1) (bigu_of_Z 2));
    apply bigu_wf_of_Z.
Defined.

(** X17.  When neither accumulator has a limb equal to
    [0xFFFFFFFFFFFFFFFF], [finalize_to_double] returns the difference
    [Pos - Neg], in units of [2^-2148], rounded to nearest, ties to even. *)
Theorem finalize_to_double_exact (Pos Neg : bigu_t) :
  bigu_wf Pos -> bigu_wf Neg ->
  Forall (fun w => w < 2 ^ 64 - 1) Pos ->
  Forall (fun w => w < 2 ^ 64 - 1) Neg ->
  finalize_to_double Pos Neg = rne_binary64 (bigu_val Pos - bigu_val Neg).
Proof.
  intros Hp Hn Mp Mn. apply finalize_to_double_rounds; try assumption.
  unfold finalize_sub_wraps, bigu_sub_wraps.
  destruct (0 <? bigu_cmp Pos Neg);
    apply sub_wraps_loop_none; try apply Hp; try apply Hn; try lia;
    intros j _; apply Forall_limb_lt; (lia || assumption).
Qed.

Lemma finalize_to_double_exact_witness :
  finalize_to_double (bigu_of_Z (2 ^ 2000 + 1)) (bigu_of_Z (2 ^ 1900 + 7))
  = rne_binary64 (bigu_val (bigu_of_Z (2 ^ 2000 + 1))
                  - bigu_val (bigu_of_Z (2 ^ 1900 + 7))).
Proof.
  apply (finalize_to_double_exact (bigu_of_Z (2 ^ 2000 + 1))
           (bigu_of_Z (2 ^ 1900 + 7))).
  - apply bigu_wf_of_Z.
  - apply bigu_wf_of_Z.
  - apply Forall_ltb. vm_compute. reflexivity.
  - apply Forall_ltb. vm_compute. reflexivity.
Defined.

(** ** The driver *)

Lemma THRESHOLD_N_eq : Z.of_nat THRESHOLD_N = 2 ^ 28 + 1.
Proof. unfold THRESHOLD_N. apply Z2Nat.id. lia. Qed.

Lemma dbl_max_terms :
  pos_term DBL_MAX DBL_MAX = (2 ^ 53 - 1) * (2 ^ 53 - 1) * 2 ^ 4090.
Proof. vm_compute. reflexivity. Qed.

(** X18.  The accumulator cannot overflow on at most [2^28] pairs, whatever
    they are, and [2^28] is the exact threshold: [2^28 + 1] pairs
    [DBL_MAX * DBL_MAX] latch the overflow flag. *)
Theorem ddot_loop_overflow_threshold :
  (forall (x y : list Z) (n : nat),
     Z.of_nat n <= 2 ^ 28 -> overflow (ddot_loop x y n) = false) /\
  Z.of_nat THRESHOLD_N = 2 ^ 28 + 1 /\
  overflow (ddot_loop dbl_max_input dbl_max_input THRESHOLD_N) = true.
Proof.
  split; [exact short_input_no_overflow |].
  split; [exact THRESHOLD_N_eq |].
  rewrite ddot_loop_state. cbv zeta. cbn [overflow].
  unfold dbl_max_input. rewrite pairs_repeat, !sum_pairs_repeat.
  cbn [fst snd]. rewrite dbl_max_terms, THRESHOLD_N_eq.
  apply orb_true_iff. left. apply Z.leb_le.
  unfold weight. vm_compute. discriminate.
Qed.

Lemma ddot_loop_overflow_threshold_witness :
  overflow (ddot_loop [DBL_MAX; DBL_MAX] [DBL_MAX; DBL_MAX] 2) = false.
Proof.
  apply (proj1 ddot_loop_overflow_threshold). simpl. lia.
Defined.

Lemma terms_exclusive (xu yu : Z) :
  pos_term xu yu = 0 \/ neg_term xu yu = 0.
Proof.
  unfold pos_term, neg_term.
  destruct (classify_pair xu yu) as [| | [|] | | [|] v s]; auto.
Qed.

Lemma sum_pairs_zero (f : Z -> Z -> Z) (x y : list Z) (n : nat) :
  (forall i, (i < n)%nat -> f (nth i x 0) (nth i y 0) = 0) ->
  sum_pairs f (pairs x y n) = 0.
Proof.
  unfold pairs. intros H.
  assert (Hin : forall i, In i (seq 0 n) -> (i < n)%nat)
    by (intros i Hi; apply in_seq in Hi; lia).
  induction (seq 0 n) as [| i l IH]; [reflexivity |].
  simpl map. simpl sum_pairs.
  fold (sum_pairs f (map (fun i => (nth i x 0, nth i y 0)) l)).
  rewrite (H i (Hin i ltac:(now left))).
  rewrite IH by (intros j Hj; apply Hin; now right). ring.
Qed.

Lemma zero_limbs (b : bigu_t) :
  limbs_ok b -> bigu_val b = 0 -> forall j, limb b j = 0.
Proof.
  intros Hb Hz j. rewrite (limb_of_val b j Hb), Hz.
  rewrite Z.div_0_l by (pose proof (weight_pos j); lia).
  reflexivity.
Qed.

Lemma bigu_sub_wraps_zero (a b : bigu_t) :
  limbs_ok a -> limbs_ok b -> bigu_val b = 0 -> bigu_sub_wraps a b = false.
Proof.
  intros Ha Hb Hz. unfold bigu_sub_wraps.
  apply sub_wraps_loop_none; try assumption; [lia |].
  intros j _. rewrite (zero_limbs b Hb Hz). lia.
Qed.

(** With one of the two accumulators empty, the subtraction of the
    finalizer has nothing to borrow from a wrapped limb sum. *)
Lemma finalize_sub_wraps_one_sided (Pos Neg : bigu_t) :
  bigu_wf Pos -> bigu_wf Neg ->
  bigu_val Pos = 0 \/ bigu_val Neg = 0 ->
  finalize_sub_wraps Pos Neg = false.
Proof.
  intros Hp Hn Hz. unfold finalize_sub_wraps.
  rewrite (bigu_cmp_spec Pos Neg Hp Hn).
  pose proof (bigu_val_bound Pos (proj2 Hp)) as Bp.
  pose proof (bigu_val_bound Neg (proj2 Hn)) as Bn.
  destruct (Z.ltb_spec 0 (Z.sgn (bigu_val Pos - bigu_val Neg))) as [Hgt | Hle].
  - apply bigu_sub_wraps_zero; try apply Hp; try apply Hn. lia.
  - apply bigu_sub_wraps_zero; try apply Hp; try apply Hn. lia.
Qed.

Lemma one_sign_one_side (x y : list Z) (n : nat) :
  finite_inputs x y n ->
  (forall i, (i < n)%nat ->
     0 <= b64_scaled (nth i x 0) * b64_scaled (nth i y 0)) \/
  (forall i, (i < n)%nat ->
     b64_scaled (nth i x 0) * b64_scaled (nth i y 0) <= 0) ->
  sum_pairs pos_term (pairs x y n) = 0 \/
  sum_pairs neg_term (pairs x y n) = 0.
Proof.
  intros Hfin Hsign.
  destruct Hsign as [Hs | Hs]; [right | left];
    apply sum_pairs_zero; intros i Hi;
    destruct (Hfin i Hi) as (U1 & U2 & F1 & F2);
    pose proof (finite_pair_terms _ _ U1 U2 F1 F2) as Ht;
    pose proof (pos_term_nonneg (nth i x 0) (nth i y 0));
    pose proof (neg_term_nonneg (nth i x 0) (nth i y 0));
    specialize (Hs i Hi);
    destruct (terms_exclusive (nth i x 0) (nth i y 0)); lia.
Qed.

(** With one accumulator empty and no overflow, the result is the rounded
    exact sum. *)
Lemma one_side_rounds (x y : list Z) (n : nat) :
  finite_inputs x y n ->
  overflow (ddot_loop x y n) = false ->
  sum_pairs pos_term (pairs x y n) = 0 \/
  sum_pairs neg_term (pairs x y n) = 0 ->
  ddot_repro x y n = rne_binary64 (exact_dot_scaled x y n).
Proof.
  intros Hfin Hov Hside.
  destruct (no_nan_no_inf_state x y n (finite_no_nan_no_inf x y n Hfin))
    as (H1 & H2 & H3 & H4).
  destruct (state_wf_loop x y n) as [Hp Hm].
  destruct (no_overflow_values x y n Hov) as [Vp Vn].
  rewrite <- Vp, <- Vn in Hside.
  pose proof (finalize_sub_wraps_one_sided _ _ Hp Hm Hside) as Hnw.
  unfold ddot_repro, ddot_finish. rewrite H1, H2, H3, H4, Hov.
  cbn [orb andb negb].
  rewrite (finalize_to_double_rounds _ _ Hp Hm Hnw), Vp, Vn.
  now rewrite (finite_sums x y n Hfin).
Qed.

(** X19.  On at most [2^28] finite pairs whose products are all non-negative,
    or all non-positive (a sum of squares, a single product),
    [ddot_repro] returns the exact sum rounded to nearest, ties to even:
    one accumulator stays empty, and the subtraction of the finalizer has no
    borrow to lose. *)
Theorem ddot_repro_exact_one_sign (x y : list Z) (n : nat) :
  finite_inputs x y n ->
  Z.of_nat n <= 2 ^ 28 ->
  (forall i, (i < n)%nat ->
     0 <= b64_scaled (nth i x 0) * b64_scaled (nth i y 0)) \/
  (forall i, (i < n)%nat ->
     b64_scaled (nth i x 0) * b64_scaled (nth i y 0) <= 0) ->
  ddot_repro x y n = rne_binary64 (exact_dot_scaled x y n).
Proof.
  intros Hfin Hn Hsign. apply one_side_rounds.
  - exact Hfin.
  - apply short_input_no_overflow. exact Hn.
  - apply one_sign_one_side; assumption.
Qed.

Lemma ddot_repro_exact_one_sign_witness :
  ddot_repro [0x3FF8000000000000; 0xC008000000000000; 0x0000000000000001]
    [0x3FF8000000000000; 0xC008000000000000; 0x0000000000000001] 3
  = rne_binary64
      (exact_dot_scaled
         [0x3FF8000000000000; 0xC008000000000000; 0x0000000000000001]
         [0x3FF8000000000000; 0xC008000000000000; 0x0000000000000001] 3).
Proof.
  apply ddot_repro_exact_one_sign.
  - intros [| [| [| i]]] Hi; try lia; unfold is_u64;
      repeat split; try reflexivity; discriminate.
  - simpl. lia.
  - left. intros [| [| [| i]]] Hi; try lia; vm_compute; discriminate.
Defined.

Lemma single_pair_one_sign (a b : Z) :
  (forall i, (i < 1)%nat ->
     0 <= b64_scaled (nth i [a] 0) * b64_scaled (nth i [b] 0)) \/
  (forall i, (i < 1)%nat ->
     b64_scaled (nth i [a] 0) * b64_scaled (nth i [b] 0) <= 0).
Proof.
  destruct (Z.le_ge_cases 0 (b64_scaled a * b64_scaled b)) as [Hs | Hs];
    [left | right]; intros [| i] Hi; try lia; cbn [nth]; lia.
Qed.

Lemma single_pair_rounds (a b : Z) :
  is_u64 a -> is_u64 b -> b64_finite a = true -> b64_finite b = true ->
  ddot_repro [a] [b] 1 = rne_binary64 (b64_scaled a * b64_scaled b).
Proof.
  intros Ha Hb Fa Fb.
  assert (Hfin : finite_inputs [a] [b] 1).
  { intros [| i] Hi; [| lia]. cbn [nth]. auto. }
  rewrite (one_side_rounds [a] [b] 1 Hfin).
  - unfold exact_dot_scaled. cbn [seq map fold_right nth].
    now rewrite Z.add_0_r.
  - apply short_input_no_overflow. simpl. lia.
  - apply one_sign_one_side; [exact Hfin | apply single_pair_one_sign].
Qed.

(** X20.  For [n = 1] and finite operands [ddot_repro] is the correctly
    rounded product: the exact product of the two values, rounded once to
    nearest, ties to even, whichever operand comes first. *)
Theorem ddot_repro_single_product (a b : Z) :
  is_u64 a -> is_u64 b -> b64_finite a = true -> b64_finite b = true ->
  ddot_repro [a] [b] 1 = rne_binary64 (b64_scaled a * b64_scaled b) /\
  ddot_repro [b] [a] 1 = ddot_repro [a] [b] 1.
Proof.
  intros Ha Hb Fa Fb.
  rewrite (single_pair_rounds a b Ha Hb Fa Fb).
  rewrite (single_pair_rounds b a Hb Ha Fb Fa).
  split; [reflexivity | now rewrite Z.mul_comm].
Qed.

Lemma ddot_repro_single_product_witness :
  ddot_repro [0x3FF8000000000001] [0xC008000000000003] 1
  = rne_binary64 (b64_scaled 0x3FF8000000000001
                  * b64_scaled 0xC008000000000003) /\
  ddot_repro [0xC008000000000003] [0x3FF8000000000001] 1
  = ddot_repro [0x3FF8000000000001] [0xC008000000000003] 1.
Proof.
  apply (ddot_repro_single_product 0x3FF8000000000001 0xC008000000000003);
    try reflexivity; unfold is_u64; lia.
Defined.

Lemma classify_pair_comm (xu yu : Z) :
  classify_pair xu yu = classify_pair yu xu.
Proof.
  unfold classify_pair.
  rewrite (orb_comm (is_nan_u64 yu)), (orb_comm (is_inf_u64 yu && _)),
    (orb_comm (is_inf_u64 yu) (is_inf_u64 xu)),
    (Z.mul_comm (sign_of_u64 yu)).
  destruct (is_nan_u64 xu || is_nan_u64 yu); [reflexivity |].
  destruct ((is_inf_u64 xu && is_zero_u64 yu)
            || (is_inf_u64 yu && is_zero_u64 xu)); [reflexivity |].
  destruct (is_inf_u64 xu || is_inf_u64 yu); [reflexivity |].
  destruct (decode_double_SE xu) as [[[sx Sx] Ex] |],
           (decode_double_SE yu) as [[[sy Sy] Ey] |]; try reflexivity.
  rewrite (orb_comm (Sy =? 0)), (Z.add_comm Ey), (Z.mul_comm sy),
    (Z.mul_comm Sy).
  reflexivity.
Qed.

Lemma ddot_step_comm (st : ddot_state) (xu yu : Z) :
  ddot_step st xu yu = ddot_step st yu xu.
Proof. now rewrite !ddot_step_classify, classify_pair_comm. Qed.

Lemma fold_left_pointwise {A B : Type} (f g : A -> B -> A) (l : list B) :
  (forall s b, In b l -> f s b = g s b) ->
  forall s, fold_left f l s = fold_left g l s.
Proof.
  induction l as [| b l IH]; intros H s; [reflexivity |].
  cbn [fold_left]. rewrite (H s b) by now left.
  apply IH. intros s' b' Hin. apply H. now right.
Qed.

(** X21.  [ddot_repro] is symmetric in its two arrays, bit for bit and for
    all inputs, NaNs, infinities and overflow included. *)
Theorem ddot_repro_commutative (x y : list Z) (n : nat) :
  ddot_repro x y n = ddot_repro y x n.
Proof.
  unfold ddot_repro, ddot_loop. f_equal.
  apply fold_left_pointwise. intros st i _. apply ddot_step_comm.
Qed.

(** X22.  Multiplying by one is the identity: for a finite [u], the dot
    product of [u] and [1.0], in either order, is [u] itself, except that both
    zeros give [+0.0]. *)
Theorem ddot_repro_times_one (u : Z) :
  is_u64 u -> b64_finite u = true ->
  ddot_repro [u] [D_1] 1 = (if is_zero_u64 u then POS_ZERO else u) /\
  ddot_repro [D_1] [u] 1 = (if is_zero_u64 u then POS_ZERO else u).
Proof.
  intros Hu Hfin.
  assert (Hone : b64_scaled D_1 = 2 ^ 1074) by reflexivity.
  assert (H1 : is_u64 D_1) by (unfold is_u64, D_1; lia).
  assert (F1 : b64_finite D_1 = true) by reflexivity.
  rewrite (single_pair_rounds u D_1 Hu H1 Hfin F1).
  rewrite (single_pair_rounds D_1 u H1 Hu F1 Hfin).
  rewrite (Z.mul_comm (b64_scaled D_1)), Hone.
  assert (Hr : rne_binary64 (b64_scaled u * 2 ^ 1074)
               = if is_zero_u64 u then POS_ZERO else u).
  { destruct (is_zero_u64 u) eqn:Hz.
    - assert (Hs : b64_scaled u = 0).
      { rewrite (is_zero_u64_fields u Hu) in Hz.
        apply andb_true_iff in Hz. destruct Hz as [He Hf].
        apply Z.eqb_eq in He, Hf. unfold b64_scaled.
        unfold b64_exp, b64_frac. rewrite <- exp_field_eq, <- frac_field_eq.
        rewrite He, Hf. change (0 =? 0) with true. cbv iota. ring. }
      rewrite Hs. reflexivity.
    - apply rne_binary64_representable; try assumption.
      intros ->. discriminate Hz. }
  split; exact Hr.
Qed.

Lemma ddot_repro_times_one_witness :
  ddot_repro [0xC008000000000001] [D_1] 1
  = (if is_zero_u64 0xC008000000000001 then POS_ZERO
     else 0xC008000000000001) /\
  ddot_repro [D_1] [0xC008000000000001] 1
  = (if is_zero_u64 0xC008000000000001 then POS_ZERO
     else 0xC008000000000001).
Proof.
  apply (ddot_repro_times_one 0xC008000000000001).
  - unfold is_u64. lia.
  - reflexivity.
Defined.

Lemma b64_neg_u64 (u : Z) : is_u64 u -> is_u64 (b64_neg u).
Proof.
  intros Hu. destruct (b64_neg_cases u Hu) as [[H ->] | [H ->]];
    unfold is_u64 in *; lia.
Qed.

Lemma swap_state_involutive (st : ddot_state) :
  swap_state (swap_state st) = st.
Proof. now destruct st. Qed.

(** X23.  Negating both arrays leaves the result unchanged, bit for bit. *)
Theorem ddot_repro_both_negated (x y : list Z) (n : nat) :
  Forall is_u64 x -> Forall is_u64 y ->
  (n <= length x)%nat -> (n <= length y)%nat ->
  ddot_repro (map b64_neg x) (map b64_neg y) n = ddot_repro x y n.
Proof.
  intros Hx Hy Hlx Hly. unfold ddot_repro. f_equal.
  assert (Hy' : Forall is_u64 (map b64_neg y)).
  { apply Forall_forall. intros u Hu. apply in_map_iff in Hu.
    destruct Hu as (v & <- & Hv). apply b64_neg_u64.
    rewrite Forall_forall in Hy. now apply Hy. }
  destruct (ddot_loop_neg x (map b64_neg y) n Hx Hy' Hlx
              ltac:(now rewrite length_map)) as [-> _].
  destruct (ddot_loop_neg x y n Hx Hy Hlx Hly) as [_ ->].
  apply swap_state_involutive.
Qed.

Lemma ddot_repro_both_negated_witness :
  ddot_repro (map b64_neg [0x3FF0000000000000; 0xC000000000000000])
    (map b64_neg [0x4008000000000000; 0x3FF8000000000000]) 2
  = ddot_repro [0x3FF0000000000000; 0xC000000000000000]
      [0x4008000000000000; 0x3FF8000000000000] 2.
Proof.
  apply (ddot_repro_both_negated [0x3FF0000000000000; 0xC000000000000000]
           [0x4008000000000000; 0x3FF8000000000000] 2).
  - repeat constructor; unfold is_u64; lia.
  - repeat constructor; unfold is_u64; lia.
  - simpl. lia.
  - simpl. lia.
Defined.

Lemma zero_fields (z : Z) :
  is_zero_u64 z = true -> exp_field z = 0 /\ frac_field z = 0.
Proof.
  rewrite is_zero_u64_eq, exp_field_eq, frac_field_eq. intros H.
  apply Z.eqb_eq in H.
  assert (Hz : z = 2 ^ 63 * (z / 2 ^ 63)).
  { pose proof (Z.div_mod z (2 ^ 63) ltac:(lia)). lia. }
  set (k := z / 2 ^ 63) in *. rewrite Hz. split.
  - replace (2 ^ 63 * k) with (k * 2 ^ 11 * 2 ^ 52)
      by (change (2 ^ 63) with (2 ^ 11 * 2 ^ 52); ring).
    rewrite Z.div_mul by lia. apply Z.mod_mul. lia.
  - replace (2 ^ 63 * k) with (k * 2 ^ 11 * 2 ^ 52)
      by (change (2 ^ 63) with (2 ^ 11 * 2 ^ 52); ring).
    apply Z.mod_mul. lia.
Qed.

Lemma classify_zero_pair (z v : Z) :
  is_zero_u64 z = true -> is_nan_u64 v = false -> is_inf_u64 v = false ->
  classify_pair z v = PairSkip.
Proof.
  intros Hz Hn Hi. destruct (zero_fields z Hz) as [He Hf].
  pose proof (not_nan_not_inf v Hn Hi) as Hv.
  unfold classify_pair.
  assert (Hnz : is_nan_u64 z = false) by (unfold is_nan_u64; now rewrite He).
  assert (Hiz : is_inf_u64 z = false) by (unfold is_inf_u64; now rewrite He).
  rewrite Hnz, Hn, Hiz, Hi. cbn [orb andb].
  unfold decode_double_SE at 1. rewrite He, Hf.
  change (0 =? 2047) with false. change (0 =? 0) with true. cbv iota.
  destruct (decode_double_SE v) as [[[sy Sy] Ey] |] eqn:Dv.
  - reflexivity.
  - apply decode_double_SE_None in Dv. contradiction.
Qed.

Lemma ddot_loop_snoc (x y : list Z) (n : nat) (a b : Z) :
  length x = n -> length y = n ->
  ddot_loop (x ++ [a]) (y ++ [b]) (S n) = ddot_step (ddot_loop x y n) a b.
Proof.
  intros Hx Hy. unfold ddot_loop.
  rewrite seq_S, fold_left_app. cbn [fold_left Nat.add].
  rewrite <- Hx at 2. rewrite nth_middle.
  rewrite <- Hy at 2. rewrite nth_middle.
  f_equal. apply fold_left_pointwise. intros st i Hi.
  apply in_seq in Hi.
  rewrite !app_nth1 by lia. reflexivity.
Qed.

(** X24.  A further pair made of a zero of either sign and an operand that
    is neither NaN nor infinite does not change the result, whichever array
    holds the zero: the pair is skipped before anything is added. *)
Theorem ddot_repro_zero_pair (x y : list Z) (n : nat) (z v : Z) :
  length x = n -> length y = n ->
  is_zero_u64 z = true -> is_nan_u64 v = false -> is_inf_u64 v = false ->
  ddot_repro (x ++ [z]) (y ++ [v]) (S n) = ddot_repro x y n /\
  ddot_repro (x ++ [v]) (y ++ [z]) (S n) = ddot_repro x y n.
Proof.
  intros Hx Hy Hz Hn Hi. unfold ddot_repro.
  rewrite !ddot_loop_snoc by assumption.
  rewrite (ddot_step_comm _ v z).
  rewrite ddot_step_classify, (classify_zero_pair z v Hz Hn Hi).
  split; reflexivity.
Qed.

Lemma ddot_repro_zero_pair_witness :
  ddot_repro ([0x3FF0000000000000] ++ [0x8000000000000000])
    ([0x4000000000000000] ++ [0x7FEFFFFFFFFFFFFF]) 2
  = ddot_repro [0x3FF0000000000000] [0x4000000000000000] 1 /\
  ddot_repro ([0x3FF0000000000000] ++ [0x7FEFFFFFFFFFFFFF])
    ([0x4000000000000000] ++ [0x8000000000000000]) 2
  = ddot_repro [0x3FF0000000000000] [0x4000000000000000] 1.
Proof.
  apply (ddot_repro_zero_pair [0x3FF0000000000000] [0x4000000000000000] 1
           0x8000000000000000 0x7FEFFFFFFFFFFFFF); reflexivity.
Defined.

(** ** The test program *)

(** The decimal constants of the tests: [D_1e308] is [10^308] rounded to
    nearest, and [D_1em308] is the binary64 nearest to [10^-308], less than
    half a unit in the last place away. *)
Lemma test_constants :
  rne_binary64 (10 ^ 308 * 2 ^ 2148) = D_1e308 /\
  2 * Z.abs (b64_scaled D_1em308 * 10 ^ 308 - 2 ^ 1074) < 10 ^ 308 /\
  b64_scaled D_32 = 32 * 2 ^ 1074 /\
  b64_scaled D_ldexp_1_m1074 = 1.
Proof.
  split; [| split; [| split]]; vm_compute; reflexivity.
Qed.

Lemma ddot_step_nan (st : ddot_state) (nan yu : Z) :
  is_nan_u64 nan = true -> ddot_step st nan yu = latch_nan st.
Proof. intros H. unfold ddot_step. now rewrite H. Qed.

Lemma test_exceptions_passes (nan : Z) :
  is_nan_u64 nan = true -> test_exceptions nan = 1.
Proof.
  intros Hnan. unfold test_exceptions.
  assert (Hr : ddot_repro [nan; D_1] [D_2; D_3] 2 = CANONICAL_NAN).
  { unfold ddot_repro, ddot_loop. cbn [seq fold_left nth].
    rewrite (ddot_step_nan _ nan D_2 Hnan). vm_compute. reflexivity. }
  cbv zeta. rewrite Hr. vm_compute. reflexivity.
Qed.

(** X25.  Each of the four tests of [test_ddot.c] returns [1] and [main]
    returns [0], whichever NaN pattern the macro [NAN] denotes. *)
Theorem test_main_passes (nan : Z) :
  is_nan_u64 nan = true ->
  test_basic = 1 /\ test_order_independence = 1 /\
  test_exceptions nan = 1 /\ test_subnormal_path = 1 /\
  main nan = 0.
Proof.
  intros Hnan.
  assert (H1 : test_basic = 1) by (vm_compute; reflexivity).
  assert (H2 : test_order_independence = 1) by (vm_compute; reflexivity).
  pose proof (test_exceptions_passes nan Hnan) as H3.
  assert (H4 : test_subnormal_path = 1) by (vm_compute; reflexivity).
  split; [exact H1 |]. split; [exact H2 |]. split; [exact H3 |].
  split; [exact H4 |].
  unfold main. cbv zeta. rewrite H1, H2, H3, H4. reflexivity.
Qed.

Lemma test_main_passes_witness :
  test_basic = 1 /\ test_order_independence = 1 /\
  test_exceptions 0x7FF8000000000000 = 1 /\ test_subnormal_path = 1 /\
  main 0x7FF8000000000000 = 0.
Proof.
  apply (test_main_passes 0x7FF8000000000000). reflexivity.
Defined.
